(** * BLogger: the rotating file writer and the asynchronous worker pool

    A shallow embedding of [include/BLogger/Loggers/FileManager.h] and of
    the [thread_pool] class of [include/BLogger/Loggers/BLoggerAsync.h],
    with the properties the specification states about them.

    Conventions.
    - [size_t] is a 64-bit unsigned integer: a [Z] in [0, 2^64), every
      arithmetic result reduced by [wrap].
    - A [FILE*] is [option string]: [None] is [nullptr], [Some p] a stream
      opened on path [p].
    - The operating system's files are an explicit [filesystem] value that
      the writer's operations take and return.
    - The pool is a state machine. A producer's call, a worker's dequeue
      (the block of [do_work] under [m_QueueAccess]), its processing of the
      dequeued task and the test of its loop are separate atomic steps; a
      schedule is a list of such steps.
    - Where the moment of a console block matters, the processing of a
      task is split further (module [Interleaving]): the block under
      [m_GlobalWrite] and the file write that follows it are separate
      moves, next to the moves of the loggers, which construct, open and
      close their writers while the workers run. *)

From stdpp Require Import base option list gmap fin_maps strings pretty sorting.
From Stdlib Require Import ZArith Lia.

Local Open Scope Z_scope.

(** ** Machine integers *)

Definition SIZE_MAX : Z := 2 ^ 64 - 1.

Definition wrap (z : Z) : Z := z mod 2 ^ 64.

Definition is_size_t (z : Z) : Prop := 0 ≤ z ≤ SIZE_MAX.

Definition nonzero (z : Z) : bool := negb (z =? 0).

(** ** The operating system's files *)

Record filesystem := {
  fs_data : gmap string (list Byte.byte);  (* contents of every file, by path *)
  fs_streams : list string;                (* the open streams, by the path each was opened on *)
  fs_openable : string → bool              (* whether opening a path succeeds *)
}.

(** What a call produces: the state it returns with, or a fault when a
    null stream reaches [fwrite]. *)
Inductive outcome (A : Type) : Type :=
  | Returned (a : A)
  | Faulted.
Arguments Returned {A} a.
Arguments Faulted {A}.

Fixpoint remove_first (p : string) (l : list string) : list string :=
  match l with
  | [] => []
  | q :: l' => if decide (p = q) then l' else q :: remove_first p l'
  end.

Definition fclose (h : string) (fs : filesystem) : filesystem :=
  {| fs_data := fs_data fs;
     fs_streams := remove_first h (fs_streams fs);
     fs_openable := fs_openable fs |}.

(** Modelled from the spec: the macro [OPEN_FILE] comes from
    [BLogger/OS/Functions.h], which is not among the sources. Section 4.2
    has the open create the file or truncate its prior contents, and has
    it fail (leaving a null stream) when the path cannot be opened. *)
Definition OPEN_FILE (path : string) (fs : filesystem) : option string * filesystem :=
  if fs_openable fs path
  then (Some path,
        {| fs_data := <[path := []]> (fs_data fs);
           fs_streams := path :: fs_streams fs;
           fs_openable := fs_openable fs |})
  else (None, fs).

(** [fwrite(data, 1, count, stream)]: the first [count] bytes of [data] go
    to the end of the stream's file; a null stream is a fault. *)
Definition fwrite (data : list Byte.byte) (count : Z) (stream : option string)
    (fs : filesystem) : outcome filesystem :=
  match stream with
  | None => Faulted
  | Some p =>
      Returned
        {| fs_data := <[p := default [] (fs_data fs !! p) ++ take (Z.to_nat count) data]> (fs_data fs);
           fs_streams := fs_streams fs;
           fs_openable := fs_openable fs |}
  end.

(** The bytes of the file at [p]; a file that does not exist has none. *)
Definition file_bytes (p : string) (fs : filesystem) : list Byte.byte :=
  default [] (fs_data fs !! p).

(** ** FileManager.h *)

Module FileManager.

Record FileManager := {
  m_File : option string;
  m_DirectoryPath : string;
  m_CachedTag : string;
  m_BytesPerFile : Z;
  m_CurrentBytes : Z;
  m_MaxLogFiles : Z;
  m_CurrentLogFiles : Z;
  m_RotateLogs : bool;
  m_State : bool
}.

(** The constructor's member initialisers. *)
Definition FileManager_new : FileManager :=
  {| m_File := None;
     m_DirectoryPath := "none";
     m_CachedTag := "";
     m_BytesPerFile := 0;
     m_CurrentBytes := 0;
     m_MaxLogFiles := 0;
     m_CurrentLogFiles := 0;
     m_RotateLogs := false;
     m_State := true |}.

Definition set_File (f : option string) (healthy : bool) (st : FileManager) : FileManager :=
  {| m_File := f;
     m_DirectoryPath := m_DirectoryPath st;
     m_CachedTag := m_CachedTag st;
     m_BytesPerFile := m_BytesPerFile st;
     m_CurrentBytes := m_CurrentBytes st;
     m_MaxLogFiles := m_MaxLogFiles st;
     m_CurrentLogFiles := m_CurrentLogFiles st;
     m_RotateLogs := m_RotateLogs st;
     m_State := healthy |}.

Definition set_counters (files bytes : Z) (st : FileManager) : FileManager :=
  {| m_File := m_File st;
     m_DirectoryPath := m_DirectoryPath st;
     m_CachedTag := m_CachedTag st;
     m_BytesPerFile := m_BytesPerFile st;
     m_CurrentBytes := bytes;
     m_MaxLogFiles := m_MaxLogFiles st;
     m_CurrentLogFiles := files;
     m_RotateLogs := m_RotateLogs st;
     m_State := m_State st |}.

Definition ready (st : FileManager) : bool := bool_decide (is_Some (m_File st)).

Definition ok (st : FileManager) : bool := m_State st.

(** [operator bool]. *)
Definition to_bool (st : FileManager) : bool := ok st && ready st.

Definition constructFullPath (st : FileManager) : string :=
  m_DirectoryPath st +:+ m_CachedTag st +:+ "-" +:+ pretty (m_CurrentLogFiles st) +:+ ".log".

Definition newLogFile (s : FileManager * filesystem) : FileManager * filesystem :=
  let '(st, fs) := s in
  let fs1 := match m_File st with
             | Some h => fclose h fs
             | None => fs
             end in
  let st1 := set_File None (m_State st) st in
  let '(f, fs2) := OPEN_FILE (constructFullPath st1) fs1 in
  (set_File f (bool_decide (is_Some f)) st1, fs2).

Definition setTag (tag : string) (s : FileManager * filesystem) : FileManager * filesystem :=
  let '(st, fs) := s in
  ({| m_File := m_File st;
      m_DirectoryPath := m_DirectoryPath st;
      m_CachedTag := tag;
      m_BytesPerFile := m_BytesPerFile st;
      m_CurrentBytes := m_CurrentBytes st;
      m_MaxLogFiles := m_MaxLogFiles st;
      m_CurrentLogFiles := m_CurrentLogFiles st;
      m_RotateLogs := m_RotateLogs st;
      m_State := m_State st |}, fs).

(** [init] returns whether the stream is open, next to the new state. *)
Definition init (directoryPath loggerTag : string) (bytesPerFile maxLogFiles : Z)
    (rotateLogs : bool) (s : FileManager * filesystem) : bool * (FileManager * filesystem) :=
  let '(st, fs) := s in
  let st1 :=
    {| m_File := m_File st;
       m_DirectoryPath := directoryPath +:+ "/";
       m_CachedTag := loggerTag;
       m_BytesPerFile := bytesPerFile;
       m_CurrentBytes := 0;
       m_MaxLogFiles := maxLogFiles;
       m_CurrentLogFiles := 1;
       m_RotateLogs := rotateLogs;
       m_State := m_State st |} in
  let s2 := newLogFile (st1, fs) in
  (ready (fst s2), s2).

Definition terminate (s : FileManager * filesystem) : FileManager * filesystem :=
  let '(st, fs) := s in
  match m_File st with
  | Some h => (set_File None (m_State st) st, fclose h fs)
  | None => s
  end.

(** [fflush] moves buffered bytes to the file; the model has no buffer
    between [fwrite] and the file, so nothing changes. *)
Definition flush (s : FileManager * filesystem) : FileManager * filesystem := s.

(** The rollover block of [write]: [None] is the early [return] taken when
    the last file is full and rotation is off. *)
Definition roll_over (size : Z) (s : FileManager * filesystem)
    : option (FileManager * filesystem) :=
  let '(st, fs) := s in
  if nonzero (m_BytesPerFile st) && (m_BytesPerFile st <? wrap (m_CurrentBytes st + size))
  then
    if m_CurrentLogFiles st =? m_MaxLogFiles st
    then
      if negb (m_RotateLogs st)
      then None
      else Some (newLogFile (set_counters 1 0 st, fs))
    else Some (newLogFile (set_counters (wrap (m_CurrentLogFiles st + 1)) 0 st, fs))
  else Some s.

(** [write(data, size)]: the buffer and its length travel together, so
    [size] is [length data]. *)
Definition write (data : list Byte.byte) (s : FileManager * filesystem)
    : outcome (FileManager * filesystem) :=
  let '(st, fs) := s in
  if negb (ready st) then Returned s
  else
    let size := wrap (Z.of_nat (length data) + 1) in
    if nonzero (m_BytesPerFile st) && (m_BytesPerFile st <? size) then Returned s
    else
      match roll_over size s with
      | None => Returned s
      | Some (st1, fs1) =>
          let st2 := set_counters (m_CurrentLogFiles st1)
                       (wrap (m_CurrentBytes st1 + size)) st1 in
          match fwrite data (wrap (size - 1)) (m_File st2) fs1 with
          | Returned fs2 => Returned (st2, fs2)
          | Faulted => Faulted
          end
      end.

(** The destructor. *)
Definition destroy (s : FileManager * filesystem) : filesystem :=
  let '(st, fs) := s in
  match m_File st with
  | Some h => fclose h fs
  | None => fs
  end.

(** *** The writer's operations as data, and its invariants *)

Inductive operation :=
  | op_init (directoryPath loggerTag : string) (bytesPerFile maxLogFiles : Z) (rotateLogs : bool)
  | op_write (data : list Byte.byte)
  | op_terminate
  | op_setTag (tag : string)
  | op_flush.

Definition is_init (o : operation) : bool :=
  match o with
  | op_init _ _ _ _ _ => true
  | _ => false
  end.

Definition apply_op (o : operation) (s : FileManager * filesystem)
    : outcome (FileManager * filesystem) :=
  match o with
  | op_init d t b m r => Returned (snd (init d t b m r s))
  | op_write data => write data s
  | op_terminate => Returned (terminate s)
  | op_setTag tag => Returned (setTag tag s)
  | op_flush => Returned (flush s)
  end.

Fixpoint apply_ops (os : list operation) (s : FileManager * filesystem)
    : outcome (FileManager * filesystem) :=
  match os with
  | [] => Returned s
  | o :: os' =>
      match apply_op o s with
      | Returned s1 => apply_ops os' s1
      | Faulted => Faulted
      end
  end.

(** The arguments of [init] are [size_t] values. *)
Definition op_typed (o : operation) : Prop :=
  match o with
  | op_init _ _ b m _ => is_size_t b ∧ is_size_t m
  | _ => True
  end.

(** The four counters are [size_t] values. *)
Definition size_typed (st : FileManager) : Prop :=
  is_size_t (m_BytesPerFile st) ∧ is_size_t (m_CurrentBytes st) ∧
  is_size_t (m_MaxLogFiles st) ∧ is_size_t (m_CurrentLogFiles st).

(** The streams a writer holds: the one behind [m_File], if any. *)
Definition held (st : FileManager) : list string :=
  match m_File st with
  | Some p => [p]
  | None => []
  end.

(** The invariant of section 3, for a writer living next to the open
    streams [others] of the rest of the process: the file index is within
    [1, maxFiles] when maxFiles > 0, the byte count is at most
    bytesPerFile when bytesPerFile > 0, and the process's open streams are
    [others] plus the at most one stream the writer holds. *)
Definition writer_inv (others : list string) (s : FileManager * filesystem) : Prop :=
  size_typed (fst s) ∧
  (0 < m_MaxLogFiles (fst s) → 1 ≤ m_CurrentLogFiles (fst s) ≤ m_MaxLogFiles (fst s)) ∧
  (0 < m_BytesPerFile (fst s) → m_CurrentBytes (fst s) ≤ m_BytesPerFile (fst s)) ∧
  fs_streams (snd s) = held (fst s) ++ others.

(** The name of the log file with index [i]. *)
Definition log_path (directoryPath tag : string) (i : Z) : string :=
  (directoryPath +:+ "/") +:+ tag +:+ "-" +:+ pretty i +:+ ".log".

(** *** Sample inputs *)

Definition empty_disk : filesystem :=
  {| fs_data := ∅; fs_streams := []; fs_openable := λ _, true |}.

Definition record_of (n : nat) : list Byte.byte := replicate n Byte.x61.

(** bytesPerFile = 10, maxFiles = 0, rotate = true. *)
Definition unbounded_writer : FileManager * filesystem :=
  snd (init "logs" "app" 10 0 true (FileManager_new, empty_disk)).

(** The state a call that returned has left; the argument when it faulted. *)
Definition after (o : outcome (FileManager * filesystem)) (s : FileManager * filesystem)
    : FileManager * filesystem :=
  match o with
  | Returned s' => s'
  | Faulted => s
  end.

(** [unbounded_writer] after one record of five bytes. *)
Definition unbounded_writer_1 : FileManager * filesystem :=
  after (write (record_of 5) unbounded_writer) unbounded_writer.

(** bytesPerFile = 10, maxFiles = 2, rotate = true. *)
Definition two_file_writer : FileManager * filesystem :=
  snd (init "logs" "app" 10 2 true (FileManager_new, empty_disk)).

End FileManager.

(** ** BLoggerAsync.h: tasks *)

Module thread_pool.

Import FileManager.

Inductive level := trace | debug | info | warn | error | crit.

(** The arguments [set_output_color] is called with. *)
Inductive color_code :=
  | BLOGGER_TRACE_COLOR | BLOGGER_DEBUG_COLOR | BLOGGER_INFO_COLOR
  | BLOGGER_WARN_COLOR | BLOGGER_ERROR_COLOR | BLOGGER_CRIT_COLOR
  | BLOGGER_RESET.

(** Modelled from the spec: [LogMsg] is declared in
    [BLogger/Loggers/BLoggerBase.h], which is not among the sources. The
    record has the accessors [do_work] calls; section 3 lists the same
    fields (senderId, bytes, toConsole, toFile, colorize, severity). *)
Record LogMsg := {
  sender : Z;
  data : list Byte.byte;
  console : bool;
  file : bool;
  color : bool;
  log_level : level
}.

(** Modelled from the spec: formatting is owned elsewhere and a task is
    immutable once constructed (section 3), so [data] stands for the
    finalized bytes and [finalize_format] leaves the record as it is. *)
Definition finalize_format (m : LogMsg) : LogMsg := m.

Inductive task_type := flush_type | log_type.

Inductive task :=
  | log_task (msg : LogMsg)
  | flush_task.

Definition type (t : task) : task_type :=
  match t with
  | log_task _ => log_type
  | flush_task => flush_type
  end.

(** [std::shared_ptr<task>]: every [new] returns a fresh object; [addr]
    numbers the allocations in the order they are made. *)
Record task_ptr := { addr : nat; obj : task }.

Definition BLOGGER_TASK_LIMIT : nat := 100.

(** What reaches [std::cout], in order. *)
Inductive cout_event :=
  | set_output_color (c : color_code)
  | cout_write (bytes : list Byte.byte)
  | cout_flush.

(** Where a worker thread stands in [worker()]. *)
Inductive worker_pc :=
  | at_do_work                      (* about to call do_work (line 105 or 112) *)
  | holding (p : task_ptr)          (* do_work has left the locked block with the front task *)
  | at_loop_test (did_work : bool)  (* about to evaluate m_Running || did_work *)
  | returned.                       (* worker() has returned; join succeeds *)

(** The pool's members, then the part of the process it acts on, then two
    logs that no code reads: they record the order of dequeues and of
    completed tasks. [FileHelper.h] is not among the sources; the registry's
    writers are [FileManager] objects, whose [write] has the signature
    [do_work] calls. *)
Record thread_pool := {
  m_Files : gmap Z nat;            (* logger id -> address of its writer *)
  m_Pool : list worker_pc;
  m_TaskQueue : list task_ptr;
  m_Running : bool;
  helpers : gmap nat FileManager;  (* the writers, by address *)
  disk : filesystem;
  cout : list cout_event;
  allocated : nat;                 (* number of tasks allocated so far *)
  popped : list task_ptr;          (* tasks in the order the queue handed them out *)
  handled : list (nat * task_ptr)  (* (worker, task) in the order tasks were completed *)
}.

Definition thread_pool_new (thread_count : nat) (fs : filesystem) : thread_pool :=
  {| m_Files := ∅;
     m_Pool := replicate thread_count at_do_work;
     m_TaskQueue := [];
     m_Running := true;
     helpers := ∅;
     disk := fs;
     cout := [];
     allocated := 0;
     popped := [];
     handled := [] |}.

Definition set_Files (fm : gmap Z nat) (s : thread_pool) : thread_pool :=
  {| m_Files := fm; m_Pool := m_Pool s; m_TaskQueue := m_TaskQueue s;
     m_Running := m_Running s; helpers := helpers s; disk := disk s;
     cout := cout s; allocated := allocated s; popped := popped s;
     handled := handled s |}.

Definition set_pc (w : nat) (pc : worker_pc) (s : thread_pool) : thread_pool :=
  {| m_Files := m_Files s; m_Pool := <[w := pc]> (m_Pool s); m_TaskQueue := m_TaskQueue s;
     m_Running := m_Running s; helpers := helpers s; disk := disk s;
     cout := cout s; allocated := allocated s; popped := popped s;
     handled := handled s |}.

Definition set_TaskQueue (q : list task_ptr) (s : thread_pool) : thread_pool :=
  {| m_Files := m_Files s; m_Pool := m_Pool s; m_TaskQueue := q;
     m_Running := m_Running s; helpers := helpers s; disk := disk s;
     cout := cout s; allocated := allocated s; popped := popped s;
     handled := handled s |}.

Definition set_Running (b : bool) (s : thread_pool) : thread_pool :=
  {| m_Files := m_Files s; m_Pool := m_Pool s; m_TaskQueue := m_TaskQueue s;
     m_Running := b; helpers := helpers s; disk := disk s;
     cout := cout s; allocated := allocated s; popped := popped s;
     handled := handled s |}.

Definition set_helper (fh : nat) (st : FileManager) (fs : filesystem) (s : thread_pool)
    : thread_pool :=
  {| m_Files := m_Files s; m_Pool := m_Pool s; m_TaskQueue := m_TaskQueue s;
     m_Running := m_Running s; helpers := <[fh := st]> (helpers s); disk := fs;
     cout := cout s; allocated := allocated s; popped := popped s;
     handled := handled s |}.

Definition put_cout (evs : list cout_event) (s : thread_pool) : thread_pool :=
  {| m_Files := m_Files s; m_Pool := m_Pool s; m_TaskQueue := m_TaskQueue s;
     m_Running := m_Running s; helpers := helpers s; disk := disk s;
     cout := cout s ++ evs; allocated := allocated s; popped := popped s;
     handled := handled s |}.

(** [new log_task(...)] / [new flush_task()] followed by [emplace_back]. *)
Definition emplace_back (t : task) (s : thread_pool) : thread_pool :=
  {| m_Files := m_Files s; m_Pool := m_Pool s;
     m_TaskQueue := m_TaskQueue s ++ [{| addr := allocated s; obj := t |}];
     m_Running := m_Running s; helpers := helpers s; disk := disk s;
     cout := cout s; allocated := S (allocated s); popped := popped s;
     handled := handled s |}.

Definition log_popped (p : task_ptr) (s : thread_pool) : thread_pool :=
  {| m_Files := m_Files s; m_Pool := m_Pool s; m_TaskQueue := m_TaskQueue s;
     m_Running := m_Running s; helpers := helpers s; disk := disk s;
     cout := cout s; allocated := allocated s; popped := popped s ++ [p];
     handled := handled s |}.

Definition log_handled (w : nat) (p : task_ptr) (s : thread_pool) : thread_pool :=
  {| m_Files := m_Files s; m_Pool := m_Pool s; m_TaskQueue := m_TaskQueue s;
     m_Running := m_Running s; helpers := helpers s; disk := disk s;
     cout := cout s; allocated := allocated s; popped := popped s;
     handled := handled s ++ [(w, p)] |}.

(** ** BLoggerAsync.h: the pool's operations *)

Definition pop_front (s : thread_pool) : thread_pool :=
  set_TaskQueue (tail (m_TaskQueue s)) s.

Definition post (message : LogMsg) (s : thread_pool) : thread_pool :=
  let s1 := if (length (m_TaskQueue s) =? BLOGGER_TASK_LIMIT)%nat
            then pop_front s else s in
  emplace_back (log_task message) s1.

Definition flush (s : thread_pool) : thread_pool :=
  emplace_back flush_task s.

Definition add_helper (id : Z) (fhptr : nat) (s : thread_pool) : thread_pool :=
  set_Files (<[id := fhptr]> (m_Files s)) s.

Definition remove_helper (id : Z) (s : thread_pool) : thread_pool :=
  match m_Files s !! id with
  | Some _ => set_Files (delete id (m_Files s)) s
  | None => s
  end.

(** The block of [do_work] under [m_QueueAccess]: the front task, if any,
    leaves the queue. *)
Definition do_work_locked (s : thread_pool) : option task_ptr * thread_pool :=
  match m_TaskQueue s with
  | p :: _ => (Some p, log_popped p (pop_front s))
  | [] => (None, s)
  end.

Definition level_color (l : level) : color_code :=
  match l with
  | trace => BLOGGER_TRACE_COLOR
  | debug => BLOGGER_DEBUG_COLOR
  | info => BLOGGER_INFO_COLOR
  | warn => BLOGGER_WARN_COLOR
  | error => BLOGGER_ERROR_COLOR
  | crit => BLOGGER_CRIT_COLOR
  end.

(** The block of [do_work] under [m_GlobalWrite] for a log task. *)
Definition console_events (msg : LogMsg) : list cout_event :=
  if console msg
  then (if color msg then [set_output_color (level_color (log_level msg))] else [])
       ++ [cout_write (data msg)]
       ++ (if color msg then [set_output_color BLOGGER_RESET] else [])
  else [].

(** The rest of [do_work], on the task taken from the queue. A registry
    entry always refers to a live writer (shared ownership); a missing one
    is a fault. *)
Definition do_work_task (p : task_ptr) (s : thread_pool) : outcome thread_pool :=
  match obj p with
  | log_task msg0 =>
      let msg := finalize_format msg0 in
      let s1 := put_cout (console_events msg) s in
      if file msg
      then
        match m_Files s1 !! sender msg with
        | Some fh =>
            match helpers s1 !! fh with
            | Some st =>
                match FileManager.write (data msg) (st, disk s1) with
                | Returned (st', fs') => Returned (set_helper fh st' fs' s1)
                | Faulted => Faulted
                end
            | None => Faulted
            end
        | None => Returned s1
        end
      else Returned s1
  | flush_task => Returned (put_cout [cout_flush] s)
  end.

(** [do_work] run by one thread with no other thread in between. *)
Definition do_work (s : thread_pool) : outcome (bool * thread_pool) :=
  match do_work_locked s with
  | (Some p, s1) =>
      match do_work_task p s1 with
      | Returned s2 => Returned (true, s2)
      | Faulted => Faulted
      end
  | (None, s1) => Returned (false, s1)
  end.

(** ** Threads *)

(** One atomic step of one thread. Producers run [post], [flush],
    [add_helper], [remove_helper]; [a_stop] is the assignment
    [m_Running = false] that opens [shutdown]; worker [w] runs the locked
    block of [do_work] ([a_poll]), the rest of [do_work] ([a_handle]) and
    the test of its [while] ([a_test]). The one-second sleep of an idle
    worker changes no state: it is the time between an [a_test] and the
    next [a_poll] of that worker. *)
Inductive action :=
  | a_post (message : LogMsg)
  | a_flush
  | a_add_helper (id : Z) (fhptr : nat)
  | a_remove_helper (id : Z)
  | a_stop
  | a_poll (w : nat)
  | a_handle (w : nat)
  | a_test (w : nat).

(** [None]: the thread is not at that point, or the process has faulted. *)
Definition step (a : action) (s : thread_pool) : option thread_pool :=
  match a with
  | a_post message => Some (post message s)
  | a_flush => Some (flush s)
  | a_add_helper id fhptr => Some (add_helper id fhptr s)
  | a_remove_helper id => Some (remove_helper id s)
  | a_stop => Some (set_Running false s)
  | a_poll w =>
      match m_Pool s !! w with
      | Some at_do_work =>
          match do_work_locked s with
          | (Some p, s1) => Some (set_pc w (holding p) s1)
          | (None, s1) => Some (set_pc w (at_loop_test false) s1)
          end
      | _ => None
      end
  | a_handle w =>
      match m_Pool s !! w with
      | Some (holding p) =>
          match do_work_task p s with
          | Returned s1 => Some (set_pc w (at_loop_test true) (log_handled w p s1))
          | Faulted => None
          end
      | _ => None
      end
  | a_test w =>
      match m_Pool s !! w with
      | Some (at_loop_test did_work) =>
          Some (set_pc w (if m_Running s || did_work then at_do_work else returned) s)
      | _ => None
      end
  end.

(** A schedule, run from left to right. *)
Fixpoint run (sched : list action) (s : thread_pool) : option thread_pool :=
  match sched with
  | [] => Some s
  | a :: sched' =>
      match step a s with
      | Some s1 => run sched' s1
      | None => None
      end
  end.

Definition has_returned (pc : worker_pc) : bool :=
  match pc with
  | returned => true
  | _ => false
  end.

(** [shutdown]'s loop of [join]s is over exactly when every worker has
    returned. *)
Definition all_joined (s : thread_pool) : bool := forallb has_returned (m_Pool s).

(** [worker()] run by one thread with no other thread in between: [Some]
    when the loop has ended within [fuel] iterations. *)
Fixpoint worker_loop (fuel : nat) (did_work : bool) (s : thread_pool)
    : option (outcome thread_pool) :=
  if m_Running s || did_work
  then
    match fuel with
    | O => None
    | S fuel' =>
        match do_work s with
        | Returned (did_work', s1) => worker_loop fuel' did_work' s1
        | Faulted => Some Faulted
        end
    end
  else Some (Returned s).

Definition worker (fuel : nat) (s : thread_pool) : option (outcome thread_pool) :=
  match do_work s with
  | Returned (did_work, s1) => worker_loop fuel did_work s1
  | Faulted => Some Faulted
  end.

(** *** Order of dequeues and completions *)

(** The tasks worker [w] has completed, oldest first. *)
Definition handled_by (w : nat) (s : thread_pool) : list task_ptr :=
  snd <$> filter (λ e, fst e = w) (handled s).

(** What processing a task sends to the console. *)
Definition task_events (p : task_ptr) : list cout_event :=
  match obj p with
  | log_task msg => console_events (finalize_format msg)
  | flush_task => [cout_flush]
  end.

(** What holds of every state a pool of [n] workers can reach. Allocation
    order is enqueue order, so [addr] tells which of two tasks was enqueued
    first. *)
Record pool_inv (n : nat) (s : thread_pool) : Prop := {
  inv_workers : length (m_Pool s) = n;
  inv_order : StronglySorted lt (addr <$> (popped s ++ m_TaskQueue s));
  inv_fresh : Forall (λ p, (addr p < allocated s)%nat) (popped s ++ m_TaskQueue s);
  inv_handled : ∀ w p, (w, p) ∈ handled s → (w < n)%nat ∧ p ∈ popped s;
  inv_holding : ∀ w p, m_Pool s !! w = Some (holding p) →
                  p ∈ popped s ∧ Forall (λ q, (addr q < addr p)%nat) (handled_by w s);
  inv_own_order : ∀ w, StronglySorted lt (addr <$> handled_by w s);
  inv_cout : cout s = concat (task_events ∘ snd <$> handled s)
}.

(** *** Sample inputs *)

(** A record for the console only, without colour. *)
Definition hello : LogMsg :=
  {| sender := 7; data := record_of 2; console := true; file := false;
     color := false; log_level := info |}.

(** A record for the console and for the file of logger 7. *)
Definition to_both : LogMsg :=
  {| sender := 7; data := record_of 3; console := true; file := true;
     color := true; log_level := warn |}.

(** One hundred records posted to a fresh pool: a queue at the limit. *)
Definition full_pool : thread_pool :=
  Nat.iter 100 (post hello) (thread_pool_new 2 empty_disk).

(** The state a schedule leads to; the start when a step is not enabled. *)
Definition reach (sched : list action) (s : thread_pool) : thread_pool :=
  default s (run sched s).

(** Two workers; logger 7 registered with an open writer at address 0. *)
Definition pool_with_logger : thread_pool :=
  add_helper 7 0
    (set_helper 0 (fst two_file_writer) (snd two_file_writer)
       (thread_pool_new 2 empty_disk)).

(** Logger 7 posts a record, unregisters, and worker 0 takes the record
    from the queue. *)
Definition unregistered_pool : thread_pool :=
  reach [a_post to_both; a_remove_helper 7; a_poll 0] pool_with_logger.

End thread_pool.

(** ** Further sample inputs and measures *)

Module Scenarios.

Import FileManager thread_pool.

(** A disk on which no file can be opened. *)
Definition read_only_disk : filesystem :=
  {| fs_data := ∅; fs_streams := []; fs_openable := λ _, false |}.

(** A disk on which only the first log file of [logs/app] can be opened. *)
Definition one_file_disk : filesystem :=
  {| fs_data := ∅; fs_streams := [];
     fs_openable := λ p, bool_decide (p = "logs/app-1.log") |}.

(** bytesPerFile = 10, maxFiles = 1, rotate = false. *)
Definition last_file_writer : FileManager * filesystem :=
  snd (init "logs" "app" 10 1 false (FileManager_new, empty_disk)).

(** bytesPerFile = 0, maxFiles = 0: no limit on the size of the file. *)
Definition unlimited_writer : FileManager * filesystem :=
  snd (init "logs" "app" 0 0 true (FileManager_new, empty_disk)).

(** bytesPerFile = 10, maxFiles = 3, on a disk where only the first file
    opens. *)
Definition stuck_writer : FileManager * filesystem :=
  snd (init "logs" "app" 10 3 true (FileManager_new, one_file_disk)).

(** The steps of the worker threads, as opposed to the producers'. *)
Definition is_worker_step (a : action) : bool :=
  match a with
  | a_poll _ | a_handle _ | a_test _ => true
  | _ => false
  end.

Definition is_stop (a : action) : bool :=
  match a with
  | a_stop => true
  | _ => false
  end.

Definition is_flush (a : action) : bool :=
  match a with
  | a_flush => true
  | _ => false
  end.

(** The steps a worker still has to take from where it stands before it
    returns, once the running flag is cleared and the queue is empty. *)
Definition cost (pc : worker_pc) : nat :=
  match pc with
  | returned => 0
  | at_loop_test false => 1
  | at_do_work => 2
  | at_loop_test true => 3
  | holding _ => 4
  end.

(** The steps the workers still have to take in total: three for every
    queued task (dequeue, process, test) on top of each worker's own. *)
Definition work_left (s : thread_pool) : nat :=
  3 * length (m_TaskQueue s) + sum_list (cost <$> m_Pool s).

(** A worker whose last poll found the queue empty. *)
Definition seen_empty (pc : worker_pc) : bool :=
  match pc with
  | at_loop_test false | returned => true
  | _ => false
  end.

(** No task is in two hands: a task a worker holds has not been
    completed, two workers hold different tasks, and no task has been
    completed twice. *)
Record once_inv (s : thread_pool) : Prop := {
  once_fresh : ∀ w p, m_Pool s !! w = Some (holding p) →
                 addr p ∉ addr <$> (snd <$> handled s);
  once_apart : ∀ w w' p p', m_Pool s !! w = Some (holding p) →
                 m_Pool s !! w' = Some (holding p') → addr p = addr p' → w = w';
  once_done : NoDup (addr <$> (snd <$> handled s))
}.

(** A task that asks nothing of a file: a flush, or a record not flagged
    for the file. *)
Definition console_only (p : task_ptr) : Prop :=
  match obj p with
  | log_task msg => file msg = false
  | flush_task => True
  end.

(** Every dequeued task is in a worker's hands or completed. *)
Definition accounted (s : thread_pool) : Prop :=
  ∀ p, p ∈ popped s →
    (∃ w, (w, p) ∈ handled s) ∨ (∃ w, m_Pool s !! w = Some (holding p)).

(** The task a record becomes when it is the [i]-th allocation. *)
Definition nth_task (i : nat) (message : LogMsg) : task_ptr :=
  {| addr := i; obj := log_task message |}.

(** One worker, the running flag cleared, a record and a flush queued. *)
Definition stopping_pool : thread_pool :=
  reach [a_post hello; a_flush; a_stop] (thread_pool_new 1 empty_disk).

(** Logger 7 registered with a writer that was never initialised. *)
Definition pool_with_closed_logger : thread_pool :=
  add_helper 7 0 (set_helper 0 FileManager_new empty_disk (thread_pool_new 2 empty_disk)).

(** The colour the console is left in by a sequence of events: the
    argument of the last [set_output_color], [c] when there is none. *)
Definition colour_after (c : color_code) (evs : list cout_event) : color_code :=
  foldl (λ c ev, match ev with set_output_color c' => c' | _ => c end) c evs.

(** The colour of the console, which starts uncoloured. *)
Definition current_colour (evs : list cout_event) : color_code :=
  colour_after BLOGGER_RESET evs.

End Scenarios.

(** ** The console block and the file write as separate steps *)

Module Interleaving.

Import FileManager thread_pool.

(** The block of [do_work] under [m_GlobalWrite]: lines 139-160 for a
    record, 172-176 for a flush. *)
Definition console_part (p : task_ptr) (s : thread_pool) : thread_pool :=
  put_cout (task_events p) s.

(** What follows the console block in [do_work]: for a record flagged for
    the file the lookup of the sender and the write (lines 162-168), then
    [return true]. *)
Definition file_part (p : task_ptr) (s : thread_pool) : outcome thread_pool :=
  match obj p with
  | log_task msg0 =>
      let msg := finalize_format msg0 in
      if file msg
      then
        match m_Files s !! sender msg with
        | Some fh =>
            match helpers s !! fh with
            | Some st =>
                match FileManager.write (data msg) (st, disk s) with
                | Returned (st', fs') => Returned (set_helper fh st' fs' s)
                | Faulted => Faulted
                end
            | None => Faulted
            end
        | None => Returned s
        end
      else Returned s
  | flush_task => Returned s
  end.

(** The pool, the workers that hold a task and have left its console
    block, and a log that no code reads: (worker, task) in the order the
    console blocks were run. *)
Record system := {
  pool : thread_pool;
  past_console : gset nat;
  written : list (nat * task_ptr)
}.

Definition system_new (thread_count : nat) (fs : filesystem) : system :=
  {| pool := thread_pool_new thread_count fs; past_console := ∅; written := [] |}.

Definition with_pool (b : thread_pool) (s : system) : system :=
  {| pool := b; past_console := past_console s; written := written s |}.

(** What a logger asks of its own writer: [InitFileLogger] calls [init]
    with the logger's tag, [TerminateFileLogger] calls [terminate],
    [SetTag] calls [setTag]. *)
Inductive logger_call :=
  | InitFileLogger (directoryPath tag : string) (bytesPerFile maxLogFiles : Z)
      (rotateLogs : bool)
  | TerminateFileLogger
  | SetTag (tag : string).

(** The sizes [InitFileLogger] is called with are [size_t] values. *)
Definition well_typed (c : logger_call) : bool :=
  match c with
  | InitFileLogger _ _ bytes files _ =>
      bool_decide (0 ≤ bytes ≤ SIZE_MAX) && bool_decide (0 ≤ files ≤ SIZE_MAX)
  | _ => true
  end.

(** The call of the logger that owns the writer at address [fh]; the
    result of [InitFileLogger] is not kept. *)
Definition call_writer (fh : nat) (c : logger_call) (b : thread_pool) : option thread_pool :=
  match helpers b !! fh with
  | Some st =>
      if well_typed c
      then
        let '(st', fs') :=
          match c with
          | InitFileLogger d t bytes files r => snd (init d t bytes files r (st, disk b))
          | TerminateFileLogger => terminate (st, disk b)
          | SetTag t => setTag t (st, disk b)
          end in
        Some (set_helper fh st' fs' b)
      else None
  | None => None
  end.

(** The constructor of [BLoggerAsync]: [m_File(new FileHelper)], then
    [add_helper(m_ID, m_File)]. The new writer gets an address not in use. *)
Definition construct (id : Z) (b : thread_pool) : thread_pool :=
  let fh := fresh (dom (helpers b)) in
  add_helper id fh (set_helper fh FileManager_new (disk b) b).

Definition is_handle (a : action) : bool :=
  match a with
  | a_handle _ => true
  | _ => false
  end.

(** One atomic step: a step of [step] other than [a_handle]; worker [w]
    running the console block of the task it holds; worker [w] running
    what follows that block; a logger being constructed; a logger calling
    its writer (under the writer's own lock). *)
Inductive move :=
  | m_pool (a : action)
  | m_console (w : nat)
  | m_file (w : nat)
  | m_construct (id : Z)
  | m_call (fh : nat) (c : logger_call).

Definition advance (m : move) (s : system) : option system :=
  match m with
  | m_pool a =>
      if is_handle a then None
      else
        match step a (pool s) with
        | Some b => Some (with_pool b s)
        | None => None
        end
  | m_console w =>
      match m_Pool (pool s) !! w with
      | Some (holding p) =>
          if decide (w ∈ past_console s) then None
          else Some {| pool := console_part p (pool s);
                       past_console := {[w]} ∪ past_console s;
                       written := written s ++ [(w, p)] |}
      | _ => None
      end
  | m_file w =>
      match m_Pool (pool s) !! w with
      | Some (holding p) =>
          if decide (w ∈ past_console s)
          then
            match file_part p (pool s) with
            | Returned b =>
                Some {| pool := set_pc w (at_loop_test true) (log_handled w p b);
                        past_console := past_console s ∖ {[w]};
                        written := written s |}
            | Faulted => None
            end
          else None
      | _ => None
      end
  | m_construct id => Some (with_pool (construct id (pool s)) s)
  | m_call fh c =>
      match call_writer fh c (pool s) with
      | Some b => Some (with_pool b s)
      | None => None
      end
  end.

Fixpoint play (ms : list move) (s : system) : option system :=
  match ms with
  | [] => Some s
  | m :: ms' =>
      match advance m s with
      | Some s1 => play ms' s1
      | None => None
      end
  end.

(** A step of [step] as moves: [a_handle] is the console block followed
    by the rest. *)
Definition moves_of (a : action) : list move :=
  match a with
  | a_handle w => [m_console w; m_file w]
  | _ => [m_pool a]
  end.

(** The tasks whose console block worker [w] has run, oldest first. *)
Definition written_by (w : nat) (s : system) : list task_ptr :=
  snd <$> filter (λ e, fst e = w) (written s).

Definition set_cout (evs : list cout_event) (s : thread_pool) : thread_pool :=
  {| m_Files := m_Files s; m_Pool := m_Pool s; m_TaskQueue := m_TaskQueue s;
     m_Running := m_Running s; helpers := helpers s; disk := disk s;
     cout := evs; allocated := allocated s; popped := popped s;
     handled := handled s |}.

(** The pool with the console replaced by the output of the completed
    tasks, in the order of completion. *)
Definition settled (b : thread_pool) : thread_pool :=
  set_cout (concat (task_events ∘ snd <$> handled b)) b.

(** With one worker: the task that worker holds while its console block
    is still to come. *)
Definition pending (s : system) : list task_ptr :=
  match m_Pool (pool s) !! 0%nat with
  | Some (holding p) => if decide (0%nat ∈ past_console s) then [] else [p]
  | _ => []
  end.

(** What holds of the console blocks in every state a system of [n]
    workers reaches. *)
Record console_inv (n : nat) (s : system) : Prop := {
  con_written : ∀ w p, (w, p) ∈ written s → (w < n)%nat ∧ p ∈ popped (pool s);
  con_holding : ∀ w p, m_Pool (pool s) !! w = Some (holding p) → w ∉ past_console s →
                  Forall (λ q, (addr q < addr p)%nat) (written_by w s);
  con_past : ∀ w, w ∈ past_console s → ∃ p, m_Pool (pool s) !! w = Some (holding p);
  con_own_order : ∀ w, StronglySorted lt (addr <$> written_by w s);
  con_cout : cout (pool s) = concat (task_events ∘ snd <$> written s);
  con_single : n = 1%nat → popped (pool s) = (snd <$> written s) ++ pending s
}.

(** One worker. Logger 7 is constructed and opens its file; it posts a
    record for console and file, then a flush; the worker processes both. *)
Definition logging_moves : list move :=
  [m_construct 7; m_call 0 (InitFileLogger "logs" "app" 10 2 true);
   m_pool (a_post to_both); m_pool a_flush;
   m_pool (a_poll 0); m_console 0; m_file 0; m_pool (a_test 0);
   m_pool (a_poll 0); m_console 0; m_file 0].

End Interleaving.

(** * Properties *)

(** ** Machine integers *)

Lemma wrap_range z : is_size_t (wrap z).
Proof.
  unfold is_size_t, wrap, SIZE_MAX.
  pose proof (Z.mod_pos_bound z (2 ^ 64)). lia.
Qed.

Lemma wrap_id z : is_size_t z → wrap z = z.
Proof.
  unfold is_size_t, wrap, SIZE_MAX. intros ?.
  apply Z.mod_small. lia.
Qed.

Lemma wrap_pred_succ n : is_size_t n → wrap (wrap (n + 1) - 1) = n.
Proof.
  unfold is_size_t, wrap, SIZE_MAX. intros Hn.
  destruct (decide (n = 2 ^ 64 - 1)) as [->|Hne].
  - reflexivity.
  - rewrite (Z.mod_small (n + 1)) by lia.
    replace (n + 1 - 1) with n by lia. apply Z.mod_small. lia.
Qed.

(** ** The rotating file writer *)

Module FileManagerSpec.

Import FileManager.

Lemma ready_true st : ready st = true ↔ ∃ p, m_File st = Some p.
Proof.
  unfold ready. rewrite bool_decide_eq_true. reflexivity.
Qed.

Lemma ready_false st : ready st = false ↔ m_File st = None.
Proof.
  unfold ready. rewrite bool_decide_eq_false, <- eq_None_not_Some. reflexivity.
Qed.

Lemma remove_first_head p l : remove_first p (p :: l) = l.
Proof. simpl. by rewrite decide_True. Qed.

(** The size [write] works with, for a buffer shorter than SIZE_MAX. *)
Lemma size_incr (data : list Byte.byte) :
  Z.of_nat (length data) < SIZE_MAX →
  wrap (Z.of_nat (length data) + 1) = Z.of_nat (length data) + 1.
Proof.
  intros H. apply wrap_id. unfold is_size_t. lia.
Qed.

(** [newLogFile] when the open succeeds. *)
Lemma newLogFile_opened st fs :
  let fs1 := match m_File st with Some h => fclose h fs | None => fs end in
  let path := constructFullPath st in
  fs_openable fs path = true →
  newLogFile (st, fs) =
    (set_File (Some path) true st,
     {| fs_data := <[path := []]> (fs_data fs1);
        fs_streams := path :: fs_streams fs1;
        fs_openable := fs_openable fs |}).
Proof.
  intros fs1 path Hopen. unfold newLogFile, OPEN_FILE.
  change (constructFullPath (set_File None (m_State st) st)) with path.
  assert (fs_openable fs1 = fs_openable fs) as Hsame
    by (subst fs1; destruct (m_File st); reflexivity).
  fold fs1. rewrite Hsame, Hopen. reflexivity.
Qed.

(** [newLogFile] when the open fails. *)
Lemma newLogFile_failed st fs :
  let fs1 := match m_File st with Some h => fclose h fs | None => fs end in
  fs_openable fs (constructFullPath st) = false →
  newLogFile (st, fs) = (set_File None false st, fs1).
Proof.
  intros fs1 Hopen. unfold newLogFile, OPEN_FILE.
  change (constructFullPath (set_File None (m_State st) st)) with (constructFullPath st).
  assert (fs_openable fs1 = fs_openable fs) as Hsame
    by (subst fs1; destruct (m_File st); reflexivity).
  fold fs1. rewrite Hsame, Hopen. reflexivity.
Qed.

(** C6: when bytesPerFile > 0 and the record is longer than bytesPerFile,
    [write] returns with the writer and every file as they were: nothing
    is written, not even a part, and currentBytes keeps its value. The
    record is a buffer in memory, so its length is below SIZE_MAX. *)
Theorem write_rejects_oversized st fs (data : list Byte.byte) :
  Z.of_nat (length data) < SIZE_MAX →
  0 < m_BytesPerFile st →
  m_BytesPerFile st < Z.of_nat (length data) →
  write data (st, fs) = Returned (st, fs).
Proof.
  intros Hlen Hpos Hbig. unfold write.
  destruct (ready st); simpl; [|reflexivity].
  rewrite size_incr by assumption.
  assert (nonzero (m_BytesPerFile st) = true) as ->
    by (unfold nonzero; apply negb_true_iff, Z.eqb_neq; lia).
  assert ((m_BytesPerFile st <? Z.of_nat (length data) + 1) = true) as ->
    by (apply Z.ltb_lt; lia).
  reflexivity.
Qed.

Lemma write_rejects_oversized_witness :
  write (record_of 11) two_file_writer = Returned two_file_writer.
Proof.
  apply (write_rejects_oversized (fst two_file_writer) (snd two_file_writer) (record_of 11));
    vm_compute; reflexivity.
Defined.


(** [newLogFile] touches no counter. *)
Lemma newLogFile_counters st fs :
  let st' := fst (newLogFile (st, fs)) in
  m_BytesPerFile st' = m_BytesPerFile st ∧ m_CurrentBytes st' = m_CurrentBytes st ∧
  m_MaxLogFiles st' = m_MaxLogFiles st ∧ m_CurrentLogFiles st' = m_CurrentLogFiles st ∧
  m_RotateLogs st' = m_RotateLogs st.
Proof.
  unfold newLogFile.
  destruct (OPEN_FILE _ _) as [f fs2]. simpl. tauto.
Qed.

(** [newLogFile] closes the stream it held before it opens another. *)
Lemma newLogFile_streams others st fs :
  fs_streams fs = held st ++ others →
  fs_streams (snd (newLogFile (st, fs))) = held (fst (newLogFile (st, fs))) ++ others.
Proof.
  intros Hs.
  assert (fs_streams (match m_File st with Some h => fclose h fs | None => fs end) = others)
    as Hclosed.
  { unfold held in Hs. destruct (m_File st) as [h|]; simpl in *.
    - rewrite Hs. apply remove_first_head.
    - exact Hs. }
  destruct (fs_openable fs (constructFullPath st)) eqn:Hopen.
  - rewrite (newLogFile_opened st fs Hopen). unfold held. simpl. by rewrite Hclosed.
  - rewrite (newLogFile_failed st fs Hopen). unfold held. simpl. exact Hclosed.
Qed.

(** What the rollover block leaves behind: the index within bounds, room
    for the record in the current file, one stream at most. *)
Lemma roll_over_inv others size st fs st1 fs1 :
  writer_inv others (st, fs) →
  is_size_t size →
  (0 < m_BytesPerFile st → size ≤ m_BytesPerFile st) →
  roll_over size (st, fs) = Some (st1, fs1) →
  size_typed st1 ∧
  m_BytesPerFile st1 = m_BytesPerFile st ∧
  m_MaxLogFiles st1 = m_MaxLogFiles st ∧
  (0 < m_MaxLogFiles st1 → 1 ≤ m_CurrentLogFiles st1 ≤ m_MaxLogFiles st1) ∧
  (0 < m_BytesPerFile st1 → wrap (m_CurrentBytes st1 + size) ≤ m_BytesPerFile st1) ∧
  fs_streams fs1 = held st1 ++ others.
Proof.
  intros (Hty & Hidx & Hcur & Hstr) Hsize Hfit. simpl in *.
  destruct Hty as (HB & HC & HM & HI).
  unfold roll_over.
  destruct (nonzero (m_BytesPerFile st) && (m_BytesPerFile st <? wrap (m_CurrentBytes st + size)))
    eqn:Hneed.
  - assert (∀ i, is_size_t i → (0 < m_MaxLogFiles st → 1 ≤ i ≤ m_MaxLogFiles st) →
        Some (newLogFile (set_counters i 0 st, fs)) = Some (st1, fs1) →
        size_typed st1 ∧ m_BytesPerFile st1 = m_BytesPerFile st ∧
        m_MaxLogFiles st1 = m_MaxLogFiles st ∧
        (0 < m_MaxLogFiles st1 → 1 ≤ m_CurrentLogFiles st1 ≤ m_MaxLogFiles st1) ∧
        (0 < m_BytesPerFile st1 → wrap (m_CurrentBytes st1 + size) ≤ m_BytesPerFile st1) ∧
        fs_streams fs1 = held st1 ++ others) as Hfresh.
    { intros i Hi Hrange Heq.
      pose proof (newLogFile_counters (set_counters i 0 st) fs) as (EB & EC & EM & EI & _).
      pose proof (newLogFile_streams others (set_counters i 0 st) fs Hstr) as Hs1.
      apply (inj Some) in Heq. rewrite Heq in *. simpl in *.
      unfold size_typed. rewrite EB, EC, EM, EI.
      rewrite Z.add_0_l, (wrap_id size) by assumption.
      repeat split; try (unfold is_size_t in *; lia); try assumption.
      all: unfold is_size_t, SIZE_MAX in *; simpl; lia. }
    destruct (m_CurrentLogFiles st =? m_MaxLogFiles st) eqn:Hlast.
    + destruct (m_RotateLogs st); simpl; [|discriminate].
      apply Z.eqb_eq in Hlast.
      apply Hfresh; [unfold is_size_t, SIZE_MAX; lia|].
      unfold is_size_t in *. lia.
    + apply Z.eqb_neq in Hlast.
      destruct (decide (0 < m_MaxLogFiles st)) as [Hpos|Hzero].
      * specialize (Hidx Hpos).
        assert (wrap (m_CurrentLogFiles st + 1) = m_CurrentLogFiles st + 1) as ->
          by (apply wrap_id; unfold is_size_t in *; lia).
        apply Hfresh; unfold is_size_t in *; lia.
      * apply Hfresh; [apply wrap_range | intros Hpos; contradiction].
  - intros [= <- <-].
    split; [exact (conj HB (conj HC (conj HM HI)))|].
    do 2 (split; [reflexivity|]). split; [exact Hidx|]. split; [|exact Hstr].
    intros Hpos.
    apply andb_false_iff in Hneed as [Hz|Hlt].
    + unfold nonzero in Hz. apply negb_false_iff, Z.eqb_eq in Hz. lia.
    + apply Z.ltb_ge in Hlt. exact Hlt.
Qed.

(** [write] keeps the invariant whenever it returns. *)
Lemma write_inv others data s s' :
  writer_inv others s →
  write data s = Returned s' →
  writer_inv others s'.
Proof.
  destruct s as [st fs]. intros Hinv. unfold write.
  destruct (negb (ready st)); [by intros [= <-]|].
  set (size := wrap (Z.of_nat (length data) + 1)).
  destruct (nonzero (m_BytesPerFile st) && (m_BytesPerFile st <? size)) eqn:Hbig;
    [by intros [= <-]|].
  destruct (roll_over size (st, fs)) as [[st1 fs1]|] eqn:Hroll; [|by intros [= <-]].
  assert (0 < m_BytesPerFile st → size ≤ m_BytesPerFile st) as Hfit.
  { intros Hpos. apply andb_false_iff in Hbig as [Hz|Hlt].
    - unfold nonzero in Hz. apply negb_false_iff, Z.eqb_eq in Hz. lia.
    - apply Z.ltb_ge in Hlt. exact Hlt. }
  destruct (roll_over_inv others size st fs st1 fs1 Hinv (wrap_range _) Hfit Hroll)
    as ((HB & HC & HM & HI) & EB & EM & Hidx & Hcur & Hstr).
  simpl. unfold fwrite.
  destruct (m_File st1) as [p|] eqn:Hfile; [|discriminate].
  intros [= <-].
  unfold held in Hstr. rewrite Hfile in Hstr.
  split; [exact (conj HB (conj (wrap_range _) (conj HM HI)))|].
  split; [exact Hidx|]. split; [exact Hcur|].
  unfold held. simpl. rewrite Hfile. exact Hstr.
Qed.

(** [write] faults only when its rollover block has left no stream open. *)
Lemma write_faulted data s :
  write data s = Faulted →
  ready (fst s) = true ∧
  ∃ s1, roll_over (wrap (Z.of_nat (length data) + 1)) s = Some s1 ∧ ready (fst s1) = false.
Proof.
  destruct s as [st fs]. unfold write.
  destruct (ready st) eqn:Hready; cbn [negb fst]; [|discriminate].
  set (size := wrap (Z.of_nat (length data) + 1)).
  destruct (nonzero (m_BytesPerFile st) && (m_BytesPerFile st <? size)); [discriminate|].
  destruct (roll_over size (st, fs)) as [[st1 fs1]|]; [|discriminate].
  unfold fwrite. cbn [m_File set_counters fst].
  destruct (m_File st1) eqn:Hfile; [discriminate|].
  intros _. split; [exact Hready|].
  exists (st1, fs1). split; [reflexivity|]. by apply ready_false.
Qed.

(** A writer fresh from its constructor satisfies the invariant. *)
Lemma FileManager_new_inv fs : writer_inv (fs_streams fs) (FileManager_new, fs).
Proof.
  unfold writer_inv, size_typed, is_size_t, SIZE_MAX. simpl. repeat split; lia.
Qed.

(** C7: every operation of the writer (init, write, terminate, setTag,
    flush) that returns leaves the invariant in force: currentFileIndex is
    within [1, maxFiles] when maxFiles > 0, currentBytes is at most
    bytesPerFile when bytesPerFile > 0, and the writer holds at most one
    open stream. The only operation that may not return is a write whose
    rollover could not open the next file. *)
Theorem operations_preserve_writer_inv others (o : operation) (s : FileManager * filesystem) :
  writer_inv others s →
  op_typed o →
  match apply_op o s with
  | Returned s' => writer_inv others s'
  | Faulted =>
      ∃ data s1, o = op_write data ∧
        roll_over (wrap (Z.of_nat (length data) + 1)) s = Some s1 ∧ ready (fst s1) = false
  end.
Proof.
  intros Hinv Hop.
  destruct o as [d t b m r|data| |tag|]; simpl.
  - destruct s as [st fs]. destruct Hinv as (_ & _ & _ & Hstr). simpl in *.
    destruct Hop as [Hb Hm].
    pose (st1 := {| m_File := m_File st; m_DirectoryPath := d +:+ "/"; m_CachedTag := t;
                   m_BytesPerFile := b; m_CurrentBytes := 0; m_MaxLogFiles := m;
                   m_CurrentLogFiles := 1; m_RotateLogs := r; m_State := m_State st |}).
    pose proof (newLogFile_counters st1 fs) as (EB & EC & EM & EI & _).
    pose proof (newLogFile_streams others st1 fs Hstr) as Hs1.
    change (writer_inv others (newLogFile (st1, fs))).
    unfold writer_inv, size_typed. rewrite EB, EC, EM, EI. subst st1. cbn [m_BytesPerFile
      m_CurrentBytes m_MaxLogFiles m_CurrentLogFiles].
    split; [unfold is_size_t, SIZE_MAX in *; lia|].
    split; [unfold is_size_t in *; lia|]. split; [lia|]. exact Hs1.
  - destruct (write data s) as [s'|] eqn:Hw.
    + eapply write_inv; eassumption.
    + apply write_faulted in Hw as [_ (s1 & Hroll & Hnull)].
      exists data, s1. done.
  - destruct s as [st fs]. destruct Hinv as (Hty & Hidx & Hcur & Hstr). simpl in *.
    unfold terminate, held in *.
    destruct (m_File st) as [h|] eqn:Hfile.
    + split; [exact Hty|]. split; [exact Hidx|]. split; [exact Hcur|].
      cbn [fst snd set_File m_File fclose fs_streams].
      rewrite Hstr. apply remove_first_head.
    + split; [exact Hty|]. split; [exact Hidx|]. split; [exact Hcur|].
      cbn [fst snd]. unfold held. rewrite Hfile. exact Hstr.
  - destruct s as [st fs]. exact Hinv.
  - exact Hinv.
Qed.

Lemma operations_preserve_writer_inv_witness :
  match apply_op (op_write (record_of 7)) two_file_writer with
  | Returned s' => writer_inv [] s'
  | Faulted =>
      ∃ data s1, op_write (record_of 7) = op_write data ∧
        roll_over (wrap (Z.of_nat (length data) + 1)) two_file_writer = Some s1 ∧
        ready (fst s1) = false
  end.
Proof.
  apply (operations_preserve_writer_inv [] (op_write (record_of 7)) two_file_writer).
  - unfold writer_inv, size_typed, is_size_t, SIZE_MAX. simpl. repeat split; lia.
  - exact I.
Defined.


(** The count handed to [fwrite] selects the whole record. *)
Lemma fwrite_count (data : list Byte.byte) :
  Z.of_nat (length data) < SIZE_MAX →
  take (Z.to_nat (wrap (Z.of_nat (length data) + 1 - 1))) data = data.
Proof.
  intros Hlen. rewrite <- (size_incr data Hlen) at 1.
  rewrite wrap_pred_succ by (unfold is_size_t; lia).
  rewrite Nat2Z.id. apply firstn_all.
Qed.

Lemma nonzero_pos z : 0 < z → nonzero z = true.
Proof. intros H. unfold nonzero. apply negb_true_iff, Z.eqb_neq. lia. Qed.

(** [write] when the record fits in the current file: the counter grows by
    the record's length plus one, the file by the record. *)
Lemma write_same_file st fs p (data : list Byte.byte) :
  let size := Z.of_nat (length data) + 1 in
  m_File st = Some p →
  Z.of_nat (length data) < SIZE_MAX →
  m_BytesPerFile st = 0 ∨
    (size ≤ m_BytesPerFile st ∧ wrap (m_CurrentBytes st + size) ≤ m_BytesPerFile st) →
  write data (st, fs) =
    Returned
      (set_counters (m_CurrentLogFiles st) (wrap (m_CurrentBytes st + size)) st,
       {| fs_data := <[p := file_bytes p fs ++ data]> (fs_data fs);
          fs_streams := fs_streams fs;
          fs_openable := fs_openable fs |}).
Proof.
  intros size Hfile Hlen Hroom. unfold write.
  assert (ready st = true) as -> by (apply ready_true; eauto).
  cbn [negb]. rewrite size_incr by assumption. fold size.
  assert (nonzero (m_BytesPerFile st) && (m_BytesPerFile st <? size) = false) as ->.
  { destruct Hroom as [->|[Hfit _]]; [reflexivity|].
    apply andb_false_iff. right. apply Z.ltb_ge. exact Hfit. }
  unfold roll_over.
  assert (nonzero (m_BytesPerFile st) &&
          (m_BytesPerFile st <? wrap (m_CurrentBytes st + size)) = false) as ->.
  { destruct Hroom as [->|[_ Hfit]]; [reflexivity|].
    apply andb_false_iff. right. apply Z.ltb_ge. exact Hfit. }
  unfold fwrite. cbn [m_File set_counters]. rewrite Hfile.
  subst size. rewrite fwrite_count by assumption. reflexivity.
Qed.

(** [write] when the record needs the next file and that file opens: the
    counter restarts at the record's length plus one, the new file holds
    the record. [i] is the index the rollover block moves to. *)
Lemma write_next_file st fs p (data : list Byte.byte) :
  let size := Z.of_nat (length data) + 1 in
  let i := if m_CurrentLogFiles st =? m_MaxLogFiles st
           then 1 else wrap (m_CurrentLogFiles st + 1) in
  let path := constructFullPath (set_counters i 0 st) in
  m_File st = Some p →
  Z.of_nat (length data) < SIZE_MAX →
  0 < m_BytesPerFile st →
  size ≤ m_BytesPerFile st →
  m_BytesPerFile st < wrap (m_CurrentBytes st + size) →
  (m_CurrentLogFiles st = m_MaxLogFiles st → m_RotateLogs st = true) →
  fs_openable fs path = true →
  write data (st, fs) =
    Returned
      (set_counters i size (set_File (Some path) true st),
       {| fs_data := <[path := data]> (fs_data fs);
          fs_streams := path :: remove_first p (fs_streams fs);
          fs_openable := fs_openable fs |}).
Proof.
  intros size i path Hfile Hlen Hpos Hfit Hover Hrot Hopen. unfold write.
  assert (ready st = true) as -> by (apply ready_true; eauto).
  cbn [negb]. rewrite size_incr by assumption. fold size.
  rewrite (nonzero_pos _ Hpos). cbn [andb].
  assert ((m_BytesPerFile st <? size) = false) as -> by (apply Z.ltb_ge; exact Hfit).
  unfold roll_over. rewrite (nonzero_pos _ Hpos). cbn [andb].
  assert ((m_BytesPerFile st <? wrap (m_CurrentBytes st + size)) = true) as ->
    by (apply Z.ltb_lt; exact Hover).
  assert ((if m_CurrentLogFiles st =? m_MaxLogFiles st
           then if negb (m_RotateLogs st) then None
                else Some (newLogFile (set_counters 1 0 st, fs))
           else Some (newLogFile (set_counters (wrap (m_CurrentLogFiles st + 1)) 0 st, fs)))
          = Some (newLogFile (set_counters i 0 st, fs))) as ->.
  { subst i. destruct (m_CurrentLogFiles st =? m_MaxLogFiles st) eqn:Hlast; [|reflexivity].
    apply Z.eqb_eq in Hlast. by rewrite (Hrot Hlast). }
  rewrite (newLogFile_opened (set_counters i 0 st) fs Hopen). fold path.
  unfold fwrite. cbn [m_File set_counters set_File fs_data fs_streams fs_openable
    m_CurrentBytes m_CurrentLogFiles]. rewrite Hfile.
  rewrite Z.add_0_l, (wrap_id size) by (subst size; unfold is_size_t; lia).
  subst size. rewrite fwrite_count by assumption.
  rewrite lookup_insert_eq. cbn [default app fclose fs_data fs_streams].
  rewrite insert_insert_eq. reflexivity.
Qed.

(** C5 as stated does not hold: with bytesPerFile = 10, maxFiles = 0 and
    rotate = true, two records of five bytes land in two files: the first
    in [logs/app-1.log], the second in [logs/app-2.log]. *)
Lemma unbounded_writer_moves_to_next_file :
  m_BytesPerFile (fst unbounded_writer) = 10 ∧
  m_MaxLogFiles (fst unbounded_writer) = 0 ∧
  m_RotateLogs (fst unbounded_writer) = true ∧
  ∃ s1 s2,
    write (record_of 5) unbounded_writer = Returned s1 ∧
    write (record_of 5) s1 = Returned s2 ∧
    m_CurrentLogFiles (fst s1) = 1 ∧ m_File (fst s1) = Some "logs/app-1.log" ∧
    m_CurrentLogFiles (fst s2) = 2 ∧ m_File (fst s2) = Some "logs/app-2.log" ∧
    file_bytes "logs/app-1.log" (snd s2) = record_of 5 ∧
    file_bytes "logs/app-2.log" (snd s2) = record_of 5.
Proof.
  do 3 (split; [reflexivity|]).
  eexists _, _. split; [vm_compute; reflexivity|].
  split; [vm_compute; reflexivity|].
  repeat split; vm_compute; reflexivity.
Qed.

(** C5, amended: with maxFiles = 0 and bytesPerFile > 0 the comparison of
    the file index with maxFiles is false for as long as the index is not
    0, so the wrap to index 1 does not fire and the rotate flag is not
    read. Rotation by size stays on: a write that fits leaves the index
    alone, and a write whose accounted size would pass bytesPerFile moves
    to the file with the next index and starts it with the record. *)
Theorem write_without_file_limit st fs p (data : list Byte.byte) :
  let size := Z.of_nat (length data) + 1 in
  let next := set_counters (wrap (m_CurrentLogFiles st + 1)) 0 st in
  m_File st = Some p →
  Z.of_nat (length data) < SIZE_MAX →
  m_MaxLogFiles st = 0 →
  m_CurrentLogFiles st ≠ 0 →
  0 < m_BytesPerFile st →
  size ≤ m_BytesPerFile st →
  (wrap (m_CurrentBytes st + size) ≤ m_BytesPerFile st →
     ∃ st' fs', write data (st, fs) = Returned (st', fs') ∧
       m_CurrentLogFiles st' = m_CurrentLogFiles st ∧ m_File st' = Some p) ∧
  (m_BytesPerFile st < wrap (m_CurrentBytes st + size) →
     fs_openable fs (constructFullPath next) = true →
     ∃ st' fs', write data (st, fs) = Returned (st', fs') ∧
       m_CurrentLogFiles st' = wrap (m_CurrentLogFiles st + 1) ∧
       m_CurrentBytes st' = size ∧
       m_File st' = Some (constructFullPath next) ∧
       file_bytes (constructFullPath next) fs' = data).
Proof.
  intros size next Hfile Hlen Hmax Hidx Hpos Hfit. split.
  - intros Hroom. eexists _, _. split.
    + apply (write_same_file st fs p data Hfile Hlen). right. split; assumption.
    + split; reflexivity || exact Hfile.
  - intros Hover Hopen.
    assert ((m_CurrentLogFiles st =? m_MaxLogFiles st) = false) as Hne
      by (apply Z.eqb_neq; congruence).
    pose proof (write_next_file st fs p data Hfile Hlen Hpos Hfit Hover) as Hw.
    cbv zeta in Hw. rewrite Hne in Hw. fold next in Hw.
    eexists _, _. split.
    + apply Hw; [congruence | exact Hopen].
    + cbn [fst snd set_counters set_File m_CurrentLogFiles m_CurrentBytes m_File].
      repeat split. unfold file_bytes. cbn [fs_data]. by rewrite lookup_insert_eq.
Qed.

Lemma write_without_file_limit_witness :
  (∃ st' fs', write (record_of 5) unbounded_writer = Returned (st', fs') ∧
     m_CurrentLogFiles st' = 1 ∧ m_File st' = Some "logs/app-1.log") ∧
  (∃ st' fs', write (record_of 5) unbounded_writer_1 = Returned (st', fs') ∧
     m_CurrentLogFiles st' = 2 ∧ m_File st' = Some "logs/app-2.log").
Proof.
  split.
  - refine (proj1 (write_without_file_limit (fst unbounded_writer) (snd unbounded_writer)
                     "logs/app-1.log" (record_of 5) _ _ _ _ _ _) _);
      vm_compute; (reflexivity || discriminate).
  - pose proof (proj2 (write_without_file_limit (fst unbounded_writer_1)
                     (snd unbounded_writer_1) "logs/app-1.log" (record_of 5)
                     eq_refl eq_refl eq_refl ltac:(vm_compute; discriminate)
                     eq_refl ltac:(vm_compute; discriminate)) eq_refl eq_refl) as H.
    destruct H as (st' & fs' & Hw & Hi & _ & Hf & _).
    exists st', fs'. split; [exact Hw|]. split; [rewrite Hi|rewrite Hf]; reflexivity.
Defined.

(** C10: for a record of [s] bytes, [write] works with [s + 1]. A record
    of exactly bytesPerFile bytes is rejected. A record that is accepted
    into the current file raises currentBytes by [s + 1] while the file
    grows by the [s] bytes of the record. The rollover is decided on the
    accounted bytes, currentBytes + [s + 1]; the record then counts as
    [s + 1] bytes of the fresh file, which holds its [s] bytes. *)
Theorem write_accounts_size_plus_one st fs p (data : list Byte.byte) :
  let s := Z.of_nat (length data) in
  let i := if m_CurrentLogFiles st =? m_MaxLogFiles st
           then 1 else wrap (m_CurrentLogFiles st + 1) in
  let path := constructFullPath (set_counters i 0 st) in
  m_File st = Some p →
  s < SIZE_MAX →
  (0 < m_BytesPerFile st → s = m_BytesPerFile st → write data (st, fs) = Returned (st, fs)) ∧
  (m_BytesPerFile st = 0 ∨
     (s + 1 ≤ m_BytesPerFile st ∧ wrap (m_CurrentBytes st + (s + 1)) ≤ m_BytesPerFile st) →
   ∃ st' fs', write data (st, fs) = Returned (st', fs') ∧
     m_CurrentBytes st' = wrap (m_CurrentBytes st + (s + 1)) ∧
     m_CurrentLogFiles st' = m_CurrentLogFiles st ∧
     m_File st' = Some p ∧
     file_bytes p fs' = file_bytes p fs ++ data ∧
     length (file_bytes p fs') = (length (file_bytes p fs) + length data)%nat) ∧
  (0 < m_BytesPerFile st →
   s + 1 ≤ m_BytesPerFile st →
   m_BytesPerFile st < wrap (m_CurrentBytes st + (s + 1)) →
   (m_CurrentLogFiles st = m_MaxLogFiles st → m_RotateLogs st = true) →
   fs_openable fs path = true →
   ∃ st' fs', write data (st, fs) = Returned (st', fs') ∧
     m_CurrentBytes st' = s + 1 ∧
     m_CurrentLogFiles st' = i ∧
     m_File st' = Some path ∧
     file_bytes path fs' = data).
Proof.
  intros s i path Hfile Hlen. split; [|split].
  - intros Hpos Hexact. unfold write.
    assert (ready st = true) as -> by (apply ready_true; eauto).
    cbn [negb]. rewrite size_incr by assumption. fold s.
    rewrite (nonzero_pos _ Hpos). cbn [andb].
    assert ((m_BytesPerFile st <? s + 1) = true) as -> by (apply Z.ltb_lt; lia).
    reflexivity.
  - intros Hroom. eexists _, _. split.
    + exact (write_same_file st fs p data Hfile Hlen Hroom).
    + cbn [fst snd set_counters m_CurrentBytes m_CurrentLogFiles m_File].
      assert (file_bytes p
                {| fs_data := <[p := file_bytes p fs ++ data]> (fs_data fs);
                   fs_streams := fs_streams fs; fs_openable := fs_openable fs |}
              = file_bytes p fs ++ data) as ->
        by (unfold file_bytes at 1; cbn [fs_data]; by rewrite lookup_insert_eq).
      rewrite length_app. done.
  - intros Hpos Hfit Hover Hrot Hopen. eexists _, _. split.
    + exact (write_next_file st fs p data Hfile Hlen Hpos Hfit Hover Hrot Hopen).
    + cbn [fst snd set_counters set_File m_CurrentBytes m_CurrentLogFiles m_File].
      repeat split. unfold file_bytes. cbn [fs_data]. by rewrite lookup_insert_eq.
Qed.

Lemma write_accounts_size_plus_one_witness :
  write (record_of 10) two_file_writer = Returned two_file_writer ∧
  ∃ st' fs', write (record_of 7) two_file_writer = Returned (st', fs') ∧
    m_CurrentBytes st' = 8 ∧ file_bytes "logs/app-1.log" fs' = record_of 7.
Proof.
  pose proof (write_accounts_size_plus_one (fst two_file_writer) (snd two_file_writer)
                "logs/app-1.log" (record_of 10) eq_refl eq_refl) as (Hexact & _ & _).
  pose proof (write_accounts_size_plus_one (fst two_file_writer) (snd two_file_writer)
                "logs/app-1.log" (record_of 7) eq_refl eq_refl) as (_ & Hsame & _).
  split.
  - apply Hexact; reflexivity.
  - destruct Hsame as (st' & fs' & Hw & Hc & _ & _ & Hb & _).
    + right. split; vm_compute; discriminate.
    + exists st', fs'. split; [exact Hw|]. split; [rewrite Hc|rewrite Hb]; reflexivity.
Defined.

(** The accounted bytes decide, not the bytes in the file: after a record
    of five bytes, a second one would bring the file to ten bytes, within
    bytesPerFile = 10, and yet goes to the next file. *)
Example rollover_on_accounted_bytes :
  ∃ s2, write (record_of 5) (after (write (record_of 5) two_file_writer) two_file_writer)
        = Returned s2 ∧
    m_CurrentLogFiles (fst s2) = 2 ∧ m_CurrentBytes (fst s2) = 6 ∧
    file_bytes "logs/app-1.log" (snd s2) = record_of 5 ∧
    file_bytes "logs/app-2.log" (snd s2) = record_of 5.
Proof.
  eexists. split; [vm_compute; reflexivity|]. repeat split; vm_compute; reflexivity.
Qed.

(** A writer with no stream stays so, counters and files untouched, under
    every operation but [init]. *)
Lemma closed_writer_stays_closed (os : list operation) st fs :
  m_File st = None →
  Forall (λ o, is_init o = false) os →
  ∃ st1, apply_ops os (st, fs) = Returned (st1, fs) ∧
    m_File st1 = None ∧
    m_CurrentLogFiles st1 = m_CurrentLogFiles st ∧
    m_CurrentBytes st1 = m_CurrentBytes st ∧
    m_BytesPerFile st1 = m_BytesPerFile st ∧
    m_MaxLogFiles st1 = m_MaxLogFiles st.
Proof.
  intros Hclosed Hops. revert st Hclosed.
  induction Hops as [|o os Ho _ IH]; intros st Hclosed.
  - exists st. done.
  - assert (∃ st0, apply_op o (st, fs) = Returned (st0, fs) ∧ m_File st0 = None ∧
              m_CurrentLogFiles st0 = m_CurrentLogFiles st ∧
              m_CurrentBytes st0 = m_CurrentBytes st ∧
              m_BytesPerFile st0 = m_BytesPerFile st ∧
              m_MaxLogFiles st0 = m_MaxLogFiles st) as (st0 & Hstep & Hc0 & E1 & E2 & E3 & E4).
    { destruct o as [d t b m r|data| |tag|]; try discriminate Ho.
      - exists st. cbn [apply_op]. unfold write.
        assert (ready st = false) as -> by (by apply ready_false). done.
      - exists st. cbn [apply_op]. unfold terminate. by rewrite Hclosed.
      - eexists. cbn [apply_op setTag]. split; [reflexivity|]. done.
      - exists st. done. }
    destruct (IH st0 Hc0) as (st1 & Hrest & Hc1 & F1 & F2 & F3 & F4).
    exists st1. cbn [apply_ops]. rewrite Hstep.
    split; [exact Hrest|]. split; [exact Hc1|]. repeat split; congruence.
Qed.

(** C8: after [terminate], a [write] changes neither the writer nor any
    file, and so does every run of operations other than [init] (which at
    most renames the tag); an [init] that follows returns true with file
    index 1, byte count 0 and health true, provided the first file opens. *)
Theorem terminate_write_init (s : FileManager * filesystem) (os : list operation)
    (d t : string) (b m : Z) (r : bool) :
  Forall (λ o, is_init o = false) os →
  fs_openable (snd s) (log_path d t 1) = true →
  (∀ data, write data (terminate s) = Returned (terminate s)) ∧
  ∃ st1, apply_ops os (terminate s) = Returned (st1, snd (terminate s)) ∧
    m_File st1 = None ∧
    m_CurrentLogFiles st1 = m_CurrentLogFiles (fst s) ∧
    m_CurrentBytes st1 = m_CurrentBytes (fst s) ∧
    (∀ data, write data (st1, snd (terminate s)) = Returned (st1, snd (terminate s))) ∧
    ∃ st2 fs2, init d t b m r (st1, snd (terminate s)) = (true, (st2, fs2)) ∧
      m_CurrentLogFiles st2 = 1 ∧
      m_CurrentBytes st2 = 0 ∧
      ok st2 = true ∧
      m_File st2 = Some (log_path d t 1).
Proof.
  intros Hops Hopen. destruct s as [st fs].
  assert (m_File (fst (terminate (st, fs))) = None) as Hclosed
    by (unfold terminate; destruct (m_File st) eqn:E; [reflexivity | exact E]).
  assert (fs_openable (snd (terminate (st, fs))) = fs_openable fs) as Hsame
    by (unfold terminate; destruct (m_File st); reflexivity).
  assert (m_CurrentLogFiles (fst (terminate (st, fs))) = m_CurrentLogFiles st ∧
          m_CurrentBytes (fst (terminate (st, fs))) = m_CurrentBytes st) as [T1 T2]
    by (unfold terminate; destruct (m_File st); done).
  assert (∀ st0 fs0 data, m_File st0 = None → write data (st0, fs0) = Returned (st0, fs0))
    as Hnoop.
  { intros st0 fs0 data H0. unfold write.
    assert (ready st0 = false) as -> by (by apply ready_false). done. }
  destruct (terminate (st, fs)) as [st0 fs0] eqn:Hterm. cbn [fst snd] in *.
  split; [intros data; by apply Hnoop|].
  destruct (closed_writer_stays_closed os st0 fs0 Hclosed Hops)
    as (st1 & Hrun & Hc1 & E1 & E2 & _ & _).
  exists st1. split; [exact Hrun|]. split; [exact Hc1|].
  split; [congruence|]. split; [congruence|]. split; [intros data; by apply Hnoop|].
  unfold init.
  set (st' := {| m_File := m_File st1; m_DirectoryPath := d +:+ "/"; m_CachedTag := t;
                 m_BytesPerFile := b; m_CurrentBytes := 0; m_MaxLogFiles := m;
                 m_CurrentLogFiles := 1; m_RotateLogs := r; m_State := m_State st1 |}).
  assert (fs_openable fs0 (constructFullPath st') = true) as Hopen'
    by (rewrite Hsame; exact Hopen).
  rewrite (newLogFile_opened st' fs0 Hopen').
  eexists _, _. split; [reflexivity|]. done.
Qed.

Lemma terminate_write_init_witness :
  write (record_of 3) (terminate two_file_writer) = Returned (terminate two_file_writer) ∧
  ∃ s2, init "logs" "again" 10 2 true (terminate two_file_writer) = (true, s2) ∧
    m_CurrentLogFiles (fst s2) = 1 ∧ m_CurrentBytes (fst s2) = 0 ∧ ok (fst s2) = true.
Proof.
  destruct (terminate_write_init two_file_writer
              [op_write (record_of 3); op_flush; op_terminate] "logs" "again" 10 2 true
              ltac:(repeat constructor) eq_refl)
    as (Hnoop & st1 & Hrun & _ & _ & _ & _ & st2 & fs2 & Hinit & Hi & Hc & Hok & _).
  split; [apply Hnoop|].
  injection Hrun as <-.
  exists (st2, fs2). split; [exact Hinit|]. done.
Defined.

End FileManagerSpec.

(** ** The task queue and the workers *)

Module PoolSpec.

Import FileManager thread_pool.

Lemma post_queue message s :
  m_TaskQueue (post message s) =
    (if (length (m_TaskQueue s) =? BLOGGER_TASK_LIMIT)%nat
     then tail (m_TaskQueue s) else m_TaskQueue s)
    ++ [{| addr := allocated s; obj := log_task message |}].
Proof.
  unfold post. by destruct (length (m_TaskQueue s) =? BLOGGER_TASK_LIMIT)%nat.
Qed.

(** [post] keeps within the limit a queue that is within it. *)
Lemma post_within_limit message s :
  (length (m_TaskQueue s) ≤ BLOGGER_TASK_LIMIT)%nat →
  (length (m_TaskQueue (post message s)) ≤ BLOGGER_TASK_LIMIT)%nat.
Proof.
  intros Hle. rewrite post_queue.
  destruct (length (m_TaskQueue s) =? BLOGGER_TASK_LIMIT)%nat eqn:Hfull.
  - apply Nat.eqb_eq in Hfull. rewrite length_app.
    unfold BLOGGER_TASK_LIMIT in *. destruct (m_TaskQueue s); simpl in *; lia.
  - apply Nat.eqb_neq in Hfull. rewrite length_app. simpl. lia.
Qed.

(** A dequeue shortens the queue. *)
Lemma do_work_locked_length s :
  (length (m_TaskQueue (snd (do_work_locked s))) ≤ length (m_TaskQueue s))%nat.
Proof.
  unfold do_work_locked. destruct (m_TaskQueue s) eqn:Hq; simpl; rewrite Hq; simpl; lia.
Qed.

(** [flush] always lengthens the queue by one: it has no test of the limit. *)
Lemma flush_length s :
  length (m_TaskQueue (flush s)) = S (length (m_TaskQueue s)).
Proof.
  unfold flush, emplace_back. simpl. rewrite length_app. simpl. lia.
Qed.

(** C1, on the code: one hundred posts fill the queue; a flush then makes
    it 101 tasks long, and from there each post adds one more, since the
    test of [post] is an equality with the limit. *)
Lemma flush_exceeds_task_limit :
  ∃ s1 s2,
    run (replicate 100 (a_post hello) ++ [a_flush]) (thread_pool_new 2 empty_disk) = Some s1 ∧
    length (m_TaskQueue s1) = 101%nat ∧
    run [a_post hello; a_post hello] s1 = Some s2 ∧
    length (m_TaskQueue s2) = 103%nat.
Proof.
  eexists _, _. split; [vm_compute; reflexivity|].
  split; [vm_compute; reflexivity|].
  split; vm_compute; reflexivity.
Qed.

(** C2: on a queue holding BLOGGER_TASK_LIMIT tasks, [post] removes the
    front task and puts the new record at the back; the tasks in between
    keep their order and the queue stays at the limit. [post] is a total
    function that a producer can run in every state, and the record it was
    given is the last task of the queue it leaves. *)
Theorem post_at_capacity (message : LogMsg) (s : thread_pool) :
  length (m_TaskQueue s) = BLOGGER_TASK_LIMIT →
  ∃ oldest rest,
    m_TaskQueue s = oldest :: rest ∧
    m_TaskQueue (post message s) =
      rest ++ [{| addr := allocated s; obj := log_task message |}] ∧
    length (m_TaskQueue (post message s)) = BLOGGER_TASK_LIMIT ∧
    step (a_post message) s = Some (post message s) ∧
    last (m_TaskQueue (post message s)) =
      Some {| addr := allocated s; obj := log_task message |}.
Proof.
  intros Hfull. rewrite post_queue, Hfull, Nat.eqb_refl.
  destruct (m_TaskQueue s) as [|oldest rest] eqn:Hq; [discriminate Hfull|].
  exists oldest, rest. cbn [tail].
  split; [reflexivity|]. split; [reflexivity|].
  split; [rewrite length_app; simpl in *; lia|].
  split; [reflexivity|]. apply last_snoc.
Qed.

(** Whatever the length of the queue, the posted record ends up last. *)
Lemma post_always_enqueues message s :
  last (m_TaskQueue (post message s)) =
    Some {| addr := allocated s; obj := log_task message |}.
Proof. rewrite post_queue. apply last_snoc. Qed.


Lemma post_at_capacity_witness :
  m_TaskQueue (post to_both full_pool) =
    tail (m_TaskQueue full_pool) ++ [{| addr := 100; obj := log_task to_both |}].
Proof.
  destruct (post_at_capacity to_both full_pool eq_refl) as (oldest & rest & Hq & Hpost & _).
  rewrite Hpost, Hq. reflexivity.
Defined.

(** After [remove_helper] the registry has no entry for the id. *)
Lemma remove_helper_lookup id s : m_Files (remove_helper id s) !! id = None.
Proof.
  unfold remove_helper. destruct (m_Files s !! id) eqn:Hid; [|exact Hid].
  cbn [m_Files set_Files]. apply lookup_delete_eq.
Qed.

(** C9: when the sender of a log task has no entry in the registry at the
    time the worker processes the task, processing returns without a
    fault, no writer and no file has changed, and the console has received
    the record's bytes if the record is flagged for the console (and
    nothing otherwise). The step of the worker holding the task is enabled
    and ends at the loop test with did_work = true: no retry. *)
Theorem unregistered_sender_skips_file (w : nat) (p : task_ptr) (msg : LogMsg)
    (s : thread_pool) :
  obj p = log_task msg →
  m_Files s !! sender msg = None →
  m_Pool s !! w = Some (holding p) →
  ∃ s',
    do_work_task p s = Returned s' ∧
    helpers s' = helpers s ∧
    disk s' = disk s ∧
    m_Files s' = m_Files s ∧
    m_TaskQueue s' = m_TaskQueue s ∧
    cout s' = cout s ++ console_events msg ∧
    (console msg = true → cout_write (data msg) ∈ console_events msg) ∧
    (console msg = false → cout s' = cout s) ∧
    step (a_handle w) s = Some (set_pc w (at_loop_test true) (log_handled w p s')).
Proof.
  intros Hobj Hmiss Hpc.
  assert (do_work_task p s = Returned (put_cout (console_events msg) s)) as Hrun.
  { unfold do_work_task. rewrite Hobj. unfold finalize_format.
    destruct (file msg); [|reflexivity].
    cbn [m_Files put_cout]. by rewrite Hmiss. }
  exists (put_cout (console_events msg) s).
  split; [exact Hrun|]. do 5 (split; [reflexivity|]).
  split; [|split].
  - intros Hconsole. unfold console_events. rewrite Hconsole.
    apply elem_of_app. right. apply elem_of_app. left. apply list_elem_of_singleton.
    reflexivity.
  - intros Hconsole. cbn [cout put_cout]. unfold console_events. rewrite Hconsole.
    apply app_nil_r.
  - cbn [step]. rewrite Hpc, Hrun. reflexivity.
Qed.


Lemma unregistered_sender_skips_file_witness :
  ∃ s', step (a_handle 0) unregistered_pool = Some s' ∧
    disk s' = disk pool_with_logger ∧
    helpers s' = helpers pool_with_logger ∧
    cout s' = [set_output_color BLOGGER_WARN_COLOR; cout_write (record_of 3);
               set_output_color BLOGGER_RESET].
Proof.
  destruct (unregistered_sender_skips_file 0 {| addr := 0; obj := log_task to_both |}
              to_both unregistered_pool eq_refl eq_refl eq_refl)
    as (s' & _ & Hh & Hd & _ & _ & Hc & _ & _ & Hstep).
  eexists. split; [exact Hstep|].
  cbn [disk helpers cout set_pc log_handled]. rewrite Hh, Hd, Hc.
  repeat split; vm_compute; reflexivity.
Defined.

(** With the logger still registered the same record reaches its file. *)
Example registered_sender_writes :
  ∃ s, run [a_post to_both; a_poll 0; a_handle 0] pool_with_logger = Some s ∧
    file_bytes "logs/app-1.log" (disk s) = record_of 3 ∧
    (m_CurrentBytes <$> helpers s !! 0%nat) = Some 4.
Proof.
  eexists. split; [vm_compute; reflexivity|]. split; vm_compute; reflexivity.
Qed.

(** C3 as stated does not hold with two workers: a record is posted, then
    a flush; worker 0 dequeues the record, worker 1 dequeues the flush and
    executes it before worker 0 writes the record to the console. *)
Lemma flush_overtakes_log :
  ∃ s, run [a_post hello; a_flush; a_poll 0; a_poll 1; a_handle 1; a_handle 0]
           (thread_pool_new 2 empty_disk) = Some s ∧
    popped s = [{| addr := 0; obj := log_task hello |}; {| addr := 1; obj := flush_task |}] ∧
    handled s = [(1%nat, {| addr := 1; obj := flush_task |});
                 (0%nat, {| addr := 0; obj := log_task hello |})] ∧
    cout s = [cout_flush; cout_write (data hello)].
Proof.
  eexists. split; [vm_compute; reflexivity|]. repeat split.
Qed.

(** C4, on the code: with two workers, both poll the empty queue and get
    did_work = false; a record is posted; [shutdown] clears the running
    flag; each worker then tests its loop condition, finds it false and
    returns. Every worker can be joined while the record is still in the
    queue: it was never written. *)
Lemma shutdown_leaves_record_queued :
  ∃ s, run [a_poll 0; a_poll 1; a_post hello; a_stop; a_test 0; a_test 1]
           (thread_pool_new 2 empty_disk) = Some s ∧
    m_Running s = false ∧
    all_joined s = true ∧
    m_TaskQueue s = [{| addr := 0; obj := log_task hello |}] ∧
    popped s = [] ∧
    cout s = [].
Proof.
  eexists. split; [vm_compute; reflexivity|]. repeat split.
Qed.


(** *** The order of dequeues *)

Lemma sorted_snoc (l : list nat) (x : nat) :
  StronglySorted lt l → Forall (λ y, (y < x)%nat) l → StronglySorted lt (l ++ [x]).
Proof.
  intros Hl Hx. apply StronglySorted_app. split; [|split].
  - intros x1 x2 H1 H2. apply list_elem_of_singleton in H2 as ->.
    rewrite Forall_forall in Hx. by apply Hx.
  - exact Hl.
  - repeat constructor.
Qed.

Lemma sorted_drop_middle (l1 l2 : list nat) (x : nat) :
  StronglySorted lt (l1 ++ x :: l2) → StronglySorted lt (l1 ++ l2).
Proof.
  rewrite !StronglySorted_app. intros (Hcross & H1 & H2).
  split; [|split].
  - intros x1 x2 Hx1 Hx2. apply Hcross; [exact Hx1|]. apply elem_of_cons. by right.
  - exact H1.
  - apply StronglySorted_cons in H2. tauto.
Qed.

(** The invariant reads only the pool, the queue, the allocation count,
    the two logs and the console. *)
Lemma pool_inv_ext n s s' :
  m_Pool s' = m_Pool s → m_TaskQueue s' = m_TaskQueue s → allocated s' = allocated s →
  popped s' = popped s → handled s' = handled s → cout s' = cout s →
  pool_inv n s → pool_inv n s'.
Proof.
  intros E1 E2 E3 E4 E5 E6 [I1 I2 I3 I4 I5 I6 I7].
  split; unfold handled_by in *; rewrite ?E1, ?E2, ?E3, ?E4, ?E5, ?E6; assumption.
Qed.

Lemma pool_inv_new n fs : pool_inv n (thread_pool_new n fs).
Proof.
  split; cbn.
  - apply length_replicate.
  - constructor.
  - constructor.
  - intros w p H. by apply elem_of_nil in H.
  - intros w p H. apply lookup_replicate in H as [H _]. discriminate.
  - intros w. constructor.
  - reflexivity.
Qed.

Lemma emplace_back_inv n t s : pool_inv n s → pool_inv n (emplace_back t s).
Proof.
  intros [I1 I2 I3 I4 I5 I6 I7]. split; cbn [emplace_back m_Pool m_TaskQueue allocated
    popped handled cout]; try assumption.
  - rewrite app_assoc, fmap_app. apply sorted_snoc; [exact I2|].
    apply Forall_fmap. exact I3.
  - rewrite app_assoc. apply Forall_app. split.
    + eapply Forall_impl; [exact I3|]. cbn. intros; lia.
    + repeat constructor.
Qed.

Lemma pop_front_inv n s : pool_inv n s → pool_inv n (pop_front s).
Proof.
  intros [I1 I2 I3 I4 I5 I6 I7]. split; cbn [pop_front set_TaskQueue m_Pool m_TaskQueue
    allocated popped handled cout]; try assumption.
  - destruct (m_TaskQueue s) as [|x q]; [exact I2|]. cbn [tail].
    rewrite fmap_app in *. rewrite fmap_cons in I2. by apply sorted_drop_middle in I2.
  - destruct (m_TaskQueue s) as [|x q]; [exact I3|]. cbn [tail].
    rewrite !Forall_app in *. destruct I3 as [Hp Hq]. split; [exact Hp|].
    by apply Forall_cons in Hq as [_ Hq].
Qed.

(** A worker that lets go of its task, or had none, may move on. *)
Lemma set_pc_inv n w pc s :
  (∀ p, pc ≠ holding p) → pool_inv n s → pool_inv n (set_pc w pc s).
Proof.
  intros Hpc [I1 I2 I3 I4 I5 I6 I7]. split; cbn [set_pc m_Pool m_TaskQueue allocated
    popped handled cout]; try assumption.
  - by rewrite length_insert.
  - intros w0 p0 Hw0. destruct (decide (w = w0)) as [->|Hne].
    + apply list_lookup_insert_Some in Hw0 as [(_ & Heq & _)|(Hne & _)]; [|done].
      by destruct (Hpc p0).
    + rewrite list_lookup_insert_ne in Hw0 by exact Hne. by apply I5.
Qed.

(** Processing a task touches the console, the writers and the files. *)
Lemma do_work_task_frame p s s1 :
  do_work_task p s = Returned s1 →
  m_Pool s1 = m_Pool s ∧ m_TaskQueue s1 = m_TaskQueue s ∧ allocated s1 = allocated s ∧
  popped s1 = popped s ∧ handled s1 = handled s ∧ m_Running s1 = m_Running s ∧
  cout s1 = cout s ++ task_events p.
Proof.
  unfold do_work_task, task_events. destruct (obj p) as [msg|].
  - destruct (file (finalize_format msg)).
    + cbn [m_Files put_cout helpers disk].
      destruct (m_Files s !! sender (finalize_format msg)) as [fh|].
      * destruct (helpers s !! fh) as [st|]; [|discriminate].
        destruct (FileManager.write _ _) as [[st' fs']|]; [|discriminate].
        intros [= <-]. done.
      * intros [= <-]. done.
    + intros [= <-]. done.
  - intros [= <-]. done.
Qed.

Lemma handled_by_snoc w0 w p s :
  handled_by w0 (log_handled w p s) =
    handled_by w0 s ++ (if decide (w = w0) then [p] else []).
Proof.
  unfold handled_by. cbn [handled log_handled].
  rewrite filter_app, fmap_app. f_equal.
  destruct (decide (w = w0)) as [->|Hne].
  - by rewrite filter_cons_True.
  - by rewrite filter_cons_False.
Qed.

(** The step that takes the front task. *)
Lemma poll_inv n w p q s :
  m_TaskQueue s = p :: q →
  (w < n)%nat →
  pool_inv n s →
  pool_inv n (set_pc w (holding p) (log_popped p (pop_front s))).
Proof.
  intros Hq Hw [I1 I2 I3 I4 I5 I6 I7].
  assert (∀ x, x ∈ popped s → (addr x < addr p)%nat) as Hbefore.
  { intros x Hx. rewrite Hq, fmap_app in I2.
    eapply (StronglySorted_app_1_elem_of lt); [exact I2| |].
    - apply list_elem_of_fmap. eauto.
    - rewrite fmap_cons. apply elem_of_cons. by left. }
  split; cbn [set_pc log_popped pop_front set_TaskQueue m_Pool m_TaskQueue allocated
    popped handled cout]; rewrite ?Hq; cbn [tail].
  - by rewrite length_insert.
  - rewrite <- app_assoc. cbn [app]. rewrite <- Hq. exact I2.
  - rewrite <- app_assoc. cbn [app]. rewrite <- Hq. exact I3.
  - intros w0 p0 H0. destruct (I4 w0 p0 H0) as [Hlt Hin].
    split; [exact Hlt|]. apply elem_of_app. by left.
  - intros w0 p0 Hw0. destruct (decide (w = w0)) as [->|Hne].
    + rewrite list_lookup_insert_eq in Hw0 by lia. injection Hw0 as <-.
      split; [apply elem_of_app; right; by apply list_elem_of_singleton|].
      apply Forall_forall. intros x Hx. apply Hbefore.
      unfold handled_by in Hx. apply list_elem_of_fmap in Hx as ([w1 x1] & -> & Hx).
      apply list_elem_of_filter in Hx as [_ Hx]. by apply (I4 w1 x1).
    + rewrite list_lookup_insert_ne in Hw0 by exact Hne.
      destruct (I5 w0 p0 Hw0) as [Hin Hall].
      split; [apply elem_of_app; by left | exact Hall].
  - exact I6.
  - exact I7.
Qed.

(** The step that completes the task a worker holds. *)
Lemma handle_inv n w p s s1 :
  m_Pool s !! w = Some (holding p) →
  do_work_task p s = Returned s1 →
  pool_inv n s →
  pool_inv n (set_pc w (at_loop_test true) (log_handled w p s1)).
Proof.
  intros Hw Hrun Hinv.
  destruct (do_work_task_frame p s s1 Hrun) as (E1 & E2 & E3 & E4 & E5 & _ & E6).
  destruct Hinv as [I1 I2 I3 I4 I5 I6 I7].
  destruct (I5 w p Hw) as [Hpopped Holder].
  pose proof (lookup_lt_Some _ _ _ Hw) as Hlt.
  split; cbn [set_pc log_handled m_Pool m_TaskQueue allocated popped handled cout];
    rewrite ?E1, ?E2, ?E3, ?E4, ?E5.
  - by rewrite length_insert.
  - exact I2.
  - exact I3.
  - intros w0 p0 H0. apply elem_of_app in H0 as [H0|H0]; [by apply I4|].
    apply list_elem_of_singleton in H0 as [= -> ->]. split; [lia | exact Hpopped].
  - intros w0 p0 Hw0. destruct (decide (w = w0)) as [->|Hne].
    + rewrite list_lookup_insert_eq in Hw0 by exact Hlt. discriminate.
    + rewrite list_lookup_insert_ne in Hw0 by exact Hne.
      destruct (I5 w0 p0 Hw0) as [Hin Hall]. split; [exact Hin|].
      change (Forall (λ q, (addr q < addr p0)%nat)
                (handled_by w0 (log_handled w p s1))).
      rewrite handled_by_snoc, decide_False, app_nil_r by exact Hne.
      unfold handled_by. rewrite E5. exact Hall.
  - intros w0.
    change (StronglySorted lt (addr <$> handled_by w0 (log_handled w p s1))).
    rewrite handled_by_snoc.
    assert (handled_by w0 s1 = handled_by w0 s) as -> by (unfold handled_by; by rewrite E5).
    destruct (decide (w = w0)) as [->|Hne].
    + rewrite fmap_app. apply sorted_snoc; [apply I6|].
      apply Forall_fmap. exact Holder.
    + rewrite app_nil_r. apply I6.
  - rewrite E6, I7, fmap_app, concat_app. cbn. by rewrite app_nil_r.
Qed.

Lemma pool_inv_step n a s s' : pool_inv n s → step a s = Some s' → pool_inv n s'.
Proof.
  intros Hinv. destruct a as [msg| |id fh|id| |w|w|w]; cbn [step].
  - intros [= <-]. unfold post.
    destruct (length (m_TaskQueue s) =? BLOGGER_TASK_LIMIT)%nat.
    + by apply emplace_back_inv, pop_front_inv.
    + by apply emplace_back_inv.
  - intros [= <-]. by apply emplace_back_inv.
  - intros [= <-]. by apply (pool_inv_ext n s).
  - intros [= <-]. unfold remove_helper.
    destruct (m_Files s !! id); [by apply (pool_inv_ext n s) | exact Hinv].
  - intros [= <-]. by apply (pool_inv_ext n s).
  - destruct (m_Pool s !! w) as [[| | |]|] eqn:Hw; try discriminate.
    pose proof (lookup_lt_Some _ _ _ Hw) as Hlt. rewrite (inv_workers n s Hinv) in Hlt.
    unfold do_work_locked. destruct (m_TaskQueue s) as [|p q] eqn:Hq.
    + intros [= <-]. by apply set_pc_inv.
    + intros [= <-]. by apply (poll_inv n w p q).
  - destruct (m_Pool s !! w) as [[|p| |]|] eqn:Hw; try discriminate.
    destruct (do_work_task p s) as [s1|] eqn:Hrun; [|discriminate].
    intros [= <-]. by apply (handle_inv n w p s s1).
  - destruct (m_Pool s !! w) as [[| |did_work|]|] eqn:Hw; try discriminate.
    intros [= <-]. apply set_pc_inv; [|exact Hinv].
    intros p. by destruct (m_Running s || did_work).
Qed.

Lemma pool_inv_run n sched s s' : pool_inv n s → run sched s = Some s' → pool_inv n s'.
Proof.
  revert s. induction sched as [|a sched IH]; intros s Hinv; cbn [run].
  - by intros [= <-].
  - destruct (step a s) as [s1|] eqn:Hstep; [|discriminate].
    apply IH. by apply (pool_inv_step n a s).
Qed.


(** *** One worker on its own *)

(** Once the running flag is cleared, a loop entered with did_work = true
    ends: it has dequeued and processed every queued task in order, unless
    a file write faulted on the way. *)
Lemma worker_loop_drains (q : list task_ptr) :
  ∀ (fuel : nat) (s : thread_pool),
    m_TaskQueue s = q →
    m_Running s = false →
    (length q < fuel)%nat →
    worker_loop fuel true s = Some Faulted ∨
    ∃ s', worker_loop fuel true s = Some (Returned s') ∧
      m_TaskQueue s' = [] ∧
      popped s' = popped s ++ q ∧
      cout s' = cout s ++ concat (task_events <$> q).
Proof.
  induction q as [|p q IH]; intros fuel s Hq Hstop Hfuel.
  - destruct fuel as [|fuel]; [cbn in Hfuel; lia|]. right. exists s.
    cbn [worker_loop]. rewrite Hstop. cbn [orb]. unfold do_work, do_work_locked.
    rewrite Hq. destruct fuel; cbn [worker_loop]; rewrite Hstop; cbn [orb].
    + rewrite !app_nil_r. done.
    + rewrite !app_nil_r. done.
  - destruct fuel as [|fuel]; [cbn in Hfuel; lia|].
    cbn [worker_loop]. rewrite Hstop. cbn [orb]. unfold do_work, do_work_locked.
    rewrite Hq.
    destruct (do_work_task p (log_popped p (pop_front s))) as [s1|] eqn:Hrun; [|by left].
    destruct (do_work_task_frame _ _ _ Hrun) as (_ & E2 & _ & E4 & _ & E6 & E7).
    cbn [log_popped pop_front set_TaskQueue m_TaskQueue popped m_Running cout] in *.
    rewrite Hq in E2. cbn [tail] in E2.
    destruct (IH fuel s1 E2 (eq_trans E6 Hstop)) as [Hfault|(s' & Hloop & F1 & F2 & F3)];
      [cbn in Hfuel; lia | by left |].
    right. exists s'. split; [exact Hloop|]. split; [exact F1|].
    split.
    + rewrite F2, E4, <- app_assoc. reflexivity.
    + rewrite F3, E7, <- app_assoc. reflexivity.
Qed.

(** [worker()] entered after the running flag was cleared, and run without
    a producer in between, returns within as many loop iterations as the
    queue is long, with the queue empty and every task processed in
    order, unless a file write faulted. *)
Lemma worker_drains (fuel : nat) (s : thread_pool) :
  m_Running s = false →
  (length (m_TaskQueue s) ≤ fuel)%nat →
  worker fuel s = Some Faulted ∨
  ∃ s', worker fuel s = Some (Returned s') ∧
    m_TaskQueue s' = [] ∧
    popped s' = popped s ++ m_TaskQueue s ∧
    cout s' = cout s ++ concat (task_events <$> m_TaskQueue s).
Proof.
  intros Hstop Hfuel. unfold worker, do_work, do_work_locked.
  destruct (m_TaskQueue s) as [|p q] eqn:Hq.
  - right. exists s. destruct fuel; cbn [worker_loop]; rewrite Hstop; cbn [orb];
      rewrite !app_nil_r; done.
  - destruct (do_work_task p (log_popped p (pop_front s))) as [s1|] eqn:Hrun; [|by left].
    destruct (do_work_task_frame _ _ _ Hrun) as (_ & E2 & _ & E4 & _ & E6 & E7).
    cbn [log_popped pop_front set_TaskQueue m_TaskQueue popped m_Running cout] in *.
    rewrite Hq in E2. cbn [tail] in E2.
    destruct (worker_loop_drains q fuel s1 E2 (eq_trans E6 Hstop))
      as [Hfault|(s' & Hloop & F1 & F2 & F3)]; [cbn in Hfuel; lia | by left |].
    right. exists s'. split; [exact Hloop|]. split; [exact F1|].
    split.
    + rewrite F2, E4, <- app_assoc. reflexivity.
    + rewrite F3, E7, <- app_assoc. reflexivity.
Qed.

End PoolSpec.

(** ** More on the rotating file writer *)

Module FileManagerMore.

Import FileManager FileManagerSpec Scenarios.

Lemma string_length_app (s1 s2 : string) :
  String.length (s1 +:+ s2) = (String.length s1 + String.length s2)%nat.
Proof.
  induction s1 as [|a s1 IH]; [reflexivity|].
  change (String a s1 +:+ s2) with (String a (s1 +:+ s2)). cbn [String.length].
  by rewrite IH.
Qed.

Lemma string_app_inj_r (s1 s2 t : string) : s1 +:+ t = s2 +:+ t → s1 = s2.
Proof.
  revert s2. induction s1 as [|a s1 IH]; intros [|b s2] Heq.
  - reflexivity.
  - apply (f_equal String.length) in Heq.
    change (String b s2 +:+ t) with (String b (s2 +:+ t)) in Heq.
    change ("" +:+ t) with t in Heq.
    cbn [String.length] in Heq. rewrite string_length_app in Heq. lia.
  - apply (f_equal String.length) in Heq.
    change (String a s1 +:+ t) with (String a (s1 +:+ t)) in Heq.
    change ("" +:+ t) with t in Heq.
    cbn [String.length] in Heq. rewrite string_length_app in Heq. lia.
  - change (String a (s1 +:+ t) = String b (s2 +:+ t)) in Heq.
    injection Heq as -> Heq. f_equal. by apply IH.
Qed.

Lemma constructFullPath_inj (st : FileManager) (i j b b' : Z) :
  constructFullPath (set_counters i b st) = constructFullPath (set_counters j b' st) → i = j.
Proof.
  unfold constructFullPath. cbn [set_counters m_DirectoryPath m_CachedTag m_CurrentLogFiles].
  intros Heq.
  do 3 apply (inj (String.append _)) in Heq.
  apply string_app_inj_r in Heq. by apply (inj pretty) in Heq.
Qed.

(** The file name of an index: the writer's directory and tag, the index
    in decimal, the extension. Two indices give the same name only when
    they are equal, so the files of a writer never share a name. *)
Theorem log_files_distinct (st : FileManager) (i j b b' : Z) :
  constructFullPath (set_counters i b st) = constructFullPath (set_counters j b' st) ↔ i = j.
Proof.
  split; [apply constructFullPath_inj | by intros ->].
Qed.

(** [init] reports the health it leaves behind: its result, [ok()] and
    [operator bool] agree afterwards, all three are whether the file of
    index 1 could be opened, and on success that file is the open stream
    and is empty. *)
Theorem init_result_is_health (d t : string) (b m : Z) (r : bool) (st : FileManager)
    (fs : filesystem) :
  let res := init d t b m r (st, fs) in
  fst res = fs_openable fs (log_path d t 1) ∧
  ok (fst (snd res)) = fst res ∧
  to_bool (fst (snd res)) = fst res ∧
  (fst res = true →
     m_File (fst (snd res)) = Some (log_path d t 1) ∧
     file_bytes (log_path d t 1) (snd (snd res)) = []).
Proof.
  intros res. subst res. unfold init.
  set (st1 := {| m_File := m_File st; m_DirectoryPath := d +:+ "/"; m_CachedTag := t;
                 m_BytesPerFile := b; m_CurrentBytes := 0; m_MaxLogFiles := m;
                 m_CurrentLogFiles := 1; m_RotateLogs := r; m_State := m_State st |}).
  change (log_path d t 1) with (constructFullPath st1).
  destruct (fs_openable fs (constructFullPath st1)) eqn:Hopen.
  - rewrite (newLogFile_opened st1 fs Hopen). cbn [fst snd].
    do 3 (split; [reflexivity|]). intros _. split; [reflexivity|].
    unfold file_bytes. cbn [fs_data]. by rewrite lookup_insert_eq.
  - rewrite (newLogFile_failed st1 fs Hopen). cbn [fst snd].
    do 3 (split; [reflexivity|]). intros H. exfalso. revert H.
    change (false = true → False). discriminate.
Qed.

(** When the first file cannot be opened, [init] returns false with no
    stream, health false, the counters reset and every file as it was;
    the writes that follow change nothing. *)
Theorem init_open_failure (d t : string) (b m : Z) (r : bool) (st : FileManager)
    (fs : filesystem) :
  fs_openable fs (log_path d t 1) = false →
  ∃ st' fs',
    init d t b m r (st, fs) = (false, (st', fs')) ∧
    m_File st' = None ∧
    ok st' = false ∧
    m_CurrentLogFiles st' = 1 ∧
    m_CurrentBytes st' = 0 ∧
    fs_data fs' = fs_data fs ∧
    ∀ data, write data (st', fs') = Returned (st', fs').
Proof.
  intros Hopen. unfold init.
  set (st1 := {| m_File := m_File st; m_DirectoryPath := d +:+ "/"; m_CachedTag := t;
                 m_BytesPerFile := b; m_CurrentBytes := 0; m_MaxLogFiles := m;
                 m_CurrentLogFiles := 1; m_RotateLogs := r; m_State := m_State st |}).
  change (log_path d t 1) with (constructFullPath st1) in Hopen.
  rewrite (newLogFile_failed st1 fs Hopen).
  eexists _, _. split; [reflexivity|].
  cbn [set_File m_File m_State ok m_CurrentLogFiles m_CurrentBytes].
  do 4 (split; [reflexivity|]).
  split; [subst st1; cbn [m_File]; by destruct (m_File st)|].
  intros data. reflexivity.
Qed.


Lemma init_open_failure_witness :
  fst (init "logs" "app" 10 2 true (FileManager_new, read_only_disk)) = false.
Proof.
  destruct (init_open_failure "logs" "app" 10 2 true FileManager_new read_only_disk eq_refl)
    as (st' & fs' & Hinit & _).
  by rewrite Hinit.
Defined.

(** [terminate] is idempotent; it gives back the one stream the writer
    held, keeps every file's contents and leaves the health flag alone, so
    [operator bool] is false afterwards whatever [ok()] says. The
    destructor gives the stream back in the same way. *)
Theorem terminate_releases_stream (others : list string) (s : FileManager * filesystem) :
  writer_inv others s →
  terminate (terminate s) = terminate s ∧
  fs_streams (snd (terminate s)) = others ∧
  fs_data (snd (terminate s)) = fs_data (snd s) ∧
  ok (fst (terminate s)) = ok (fst s) ∧
  to_bool (fst (terminate s)) = false ∧
  fs_streams (destroy s) = others ∧
  fs_data (destroy s) = fs_data (snd s).
Proof.
  destruct s as [st fs]. intros (_ & _ & _ & Hstr). cbn [fst snd] in Hstr.
  unfold terminate, destroy, held in *.
  destruct (m_File st) as [h|] eqn:Hfile.
  - cbn [fst snd set_File m_File fclose fs_streams fs_data ok m_State].
    rewrite Hstr. cbn [app]. rewrite remove_first_head.
    split; [reflexivity|]. do 3 (split; [reflexivity|]).
    split; [|done]. unfold to_bool. apply andb_false_r.
  - rewrite Hfile. cbn [fst snd].
    split; [reflexivity|]. do 3 (split; [done|]).
    split; [|done]. unfold to_bool.
    assert (ready st = false) as -> by (by apply ready_false). apply andb_false_r.
Qed.

Lemma terminate_releases_stream_witness :
  fs_streams (snd (terminate two_file_writer)) = [] ∧
  to_bool (fst (terminate two_file_writer)) = false ∧
  ok (fst (terminate two_file_writer)) = true.
Proof.
  assert (writer_inv [] two_file_writer) as Hinv.
  { unfold writer_inv, size_typed, is_size_t, SIZE_MAX. simpl. repeat split; lia. }
  destruct (terminate_releases_stream [] two_file_writer Hinv)
    as (_ & Hs & _ & Hok & Hb & _).
  split; [exact Hs|]. split; [exact Hb|]. rewrite Hok. reflexivity.
Defined.

(** With rotation off and the last file reached (index = maxFiles), a
    write never leaves that file: it opens nothing, keeps the index and
    the stream, and either appends the record (when the accounted bytes
    fit) or changes nothing at all. *)
Theorem last_file_without_rotation st fs p (data : list Byte.byte) :
  let size := Z.of_nat (length data) + 1 in
  m_File st = Some p →
  Z.of_nat (length data) < SIZE_MAX →
  0 < m_BytesPerFile st →
  m_RotateLogs st = false →
  m_CurrentLogFiles st = m_MaxLogFiles st →
  ∃ st' fs',
    write data (st, fs) = Returned (st', fs') ∧
    m_CurrentLogFiles st' = m_CurrentLogFiles st ∧
    m_File st' = Some p ∧
    fs_streams fs' = fs_streams fs ∧
    (size ≤ m_BytesPerFile st ∧ wrap (m_CurrentBytes st + size) ≤ m_BytesPerFile st →
       m_CurrentBytes st' = wrap (m_CurrentBytes st + size) ∧
       file_bytes p fs' = file_bytes p fs ++ data) ∧
    (¬ (size ≤ m_BytesPerFile st ∧ wrap (m_CurrentBytes st + size) ≤ m_BytesPerFile st) →
       st' = st ∧ fs' = fs).
Proof.
  intros size Hfile Hlen Hpos Hrot Hlast.
  destruct (decide (size ≤ m_BytesPerFile st ∧
                    wrap (m_CurrentBytes st + size) ≤ m_BytesPerFile st)) as [Hfit|Hno].
  - eexists _, _. split.
    + apply (write_same_file st fs p data Hfile Hlen). by right.
    + cbn [set_counters m_CurrentLogFiles m_File m_CurrentBytes fs_streams].
      do 3 (split; [done|]). split; [|done]. intros _. split; [reflexivity|].
      unfold file_bytes at 1. cbn [fs_data]. by rewrite lookup_insert_eq.
  - exists st, fs. split.
    + unfold write.
      assert (ready st = true) as -> by (apply ready_true; eauto).
      cbn [negb]. rewrite size_incr by assumption. fold size.
      rewrite (nonzero_pos _ Hpos). cbn [andb].
      destruct (m_BytesPerFile st <? size) eqn:Hbig; [reflexivity|].
      apply Z.ltb_ge in Hbig.
      unfold roll_over. rewrite (nonzero_pos _ Hpos). cbn [andb].
      assert ((m_BytesPerFile st <? wrap (m_CurrentBytes st + size)) = true) as ->
        by (apply Z.ltb_lt; lia).
      rewrite Hlast, Z.eqb_refl, Hrot. reflexivity.
    + do 3 (split; [done|]). split; [done|]. done.
Qed.

Lemma last_file_without_rotation_witness :
  write (record_of 9) last_file_writer =
    Returned (after (write (record_of 9) last_file_writer) last_file_writer) ∧
  write (record_of 9) (after (write (record_of 9) last_file_writer) last_file_writer) =
    Returned (after (write (record_of 9) last_file_writer) last_file_writer).
Proof.
  split; [vm_compute; reflexivity|].
  set (s1 := after (write (record_of 9) last_file_writer) last_file_writer).
  destruct (last_file_without_rotation (fst s1) (snd s1) "logs/app-1.log" (record_of 9)
              eq_refl eq_refl eq_refl eq_refl eq_refl)
    as (st' & fs' & Hw & _ & _ & _ & _ & Hsame).
  destruct Hsame as [-> ->]; [vm_compute; intros [_ H]; by apply H|].
  exact Hw.
Defined.


(** With bytesPerFile = 0 nothing is ever rejected or rolled over: any
    run of writes on an open writer returns, keeps the index and the
    stream, leaves every other file alone, and the file ends with the
    records one after the other. *)
Theorem unlimited_file_grows (datas : list (list Byte.byte)) :
  ∀ st fs p,
    m_File st = Some p →
    m_BytesPerFile st = 0 →
    Forall (λ data, Z.of_nat (length data) < SIZE_MAX) datas →
    ∃ st' fs',
      apply_ops (op_write <$> datas) (st, fs) = Returned (st', fs') ∧
      m_File st' = Some p ∧
      m_CurrentLogFiles st' = m_CurrentLogFiles st ∧
      fs_streams fs' = fs_streams fs ∧
      file_bytes p fs' = file_bytes p fs ++ concat datas ∧
      ∀ q, q ≠ p → file_bytes q fs' = file_bytes q fs.
Proof.
  induction datas as [|data datas IH]; intros st fs p Hfile Hzero Hlens.
  - exists st, fs. cbn. rewrite app_nil_r. done.
  - apply Forall_cons in Hlens as [Hlen Hlens].
    cbn [fmap list_fmap apply_ops apply_op].
    rewrite (write_same_file st fs p data Hfile Hlen (or_introl Hzero)).
    match goal with
    | |- context [apply_ops _ (?st1, ?fs1)] =>
        destruct (IH st1 fs1 p Hfile Hzero Hlens) as (st' & fs' & Hrun & Hf & Hi & Hs & Hb & Ho)
    end.
    exists st', fs'. split; [exact Hrun|]. split; [exact Hf|]. split; [exact Hi|].
    split; [exact Hs|]. split.
    + rewrite Hb. unfold file_bytes at 1. cbn [fs_data]. rewrite lookup_insert_eq.
      cbn [concat]. by rewrite app_assoc.
    + intros q Hq. rewrite (Ho q Hq). unfold file_bytes. cbn [fs_data].
      by rewrite lookup_insert_ne.
Qed.

Lemma unlimited_file_grows_witness :
  ∃ s', apply_ops [op_write (record_of 40); op_write (record_of 2)] unlimited_writer
        = Returned s' ∧
    file_bytes "logs/app-1.log" (snd s') = record_of 42.
Proof.
  destruct (unlimited_file_grows [record_of 40; record_of 2]
              (fst unlimited_writer) (snd unlimited_writer) "logs/app-1.log"
              eq_refl eq_refl ltac:(repeat constructor))
    as (st' & fs' & Hrun & _ & _ & _ & Hb & _).
  exists (st', fs'). split; [exact Hrun|]. cbn [snd]. rewrite Hb. reflexivity.
Defined.

Lemma newLogFile_data st fs q :
  m_File (fst (newLogFile (st, fs))) ≠ Some q →
  fs_data (snd (newLogFile (st, fs))) !! q = fs_data fs !! q.
Proof.
  assert (fs_data (match m_File st with Some h => fclose h fs | None => fs end) = fs_data fs)
    as Hsame by (by destruct (m_File st)).
  destruct (fs_openable fs (constructFullPath st)) eqn:Hopen.
  - rewrite (newLogFile_opened st fs Hopen). cbn [fst snd set_File m_File fs_data].
    intros Hq. rewrite lookup_insert_ne by congruence. by rewrite Hsame.
  - rewrite (newLogFile_failed st fs Hopen). cbn [fst snd]. intros _. by rewrite Hsame.
Qed.

Lemma roll_over_data size st fs st1 fs1 q :
  roll_over size (st, fs) = Some (st1, fs1) →
  m_File st1 ≠ Some q →
  fs_data fs1 !! q = fs_data fs !! q.
Proof.
  unfold roll_over.
  destruct (nonzero (m_BytesPerFile st) && (m_BytesPerFile st <? wrap (m_CurrentBytes st + size))).
  - destruct (m_CurrentLogFiles st =? m_MaxLogFiles st).
    + destruct (negb (m_RotateLogs st)); [discriminate|].
      intros Heq%(inj Some) Hq.
      pose proof (newLogFile_data (set_counters 1 0 st) fs q) as Hd.
      rewrite Heq in Hd. by apply Hd.
    + intros Heq%(inj Some) Hq.
      pose proof (newLogFile_data (set_counters (wrap (m_CurrentLogFiles st + 1)) 0 st) fs q)
        as Hd.
      rewrite Heq in Hd. by apply Hd.
  - by intros [= <- <-] _.
Qed.

(** A write that returns has changed at most one file: the one behind
    the stream the writer holds on return. Every other file, those of
    earlier indices included, has the contents it had. *)
Theorem write_changes_one_file (data : list Byte.byte) st fs st' fs' (q : string) :
  write data (st, fs) = Returned (st', fs') →
  m_File st' ≠ Some q →
  fs_data fs' !! q = fs_data fs !! q.
Proof.
  unfold write.
  destruct (negb (ready st)); [by intros [= <- <-]|].
  set (size := wrap (Z.of_nat (length data) + 1)).
  destruct (nonzero (m_BytesPerFile st) && (m_BytesPerFile st <? size)); [by intros [= <- <-]|].
  destruct (roll_over size (st, fs)) as [[st1 fs1]|] eqn:Hroll; [|by intros [= <- <-]].
  unfold fwrite. cbn [m_File set_counters].
  destruct (m_File st1) as [p|] eqn:Hfile; [|discriminate].
  intros [= <- <-] Hq. cbn [m_File set_counters] in Hq. rewrite Hfile in Hq.
  cbn [fs_data]. rewrite lookup_insert_ne by congruence.
  apply (roll_over_data size st fs st1 fs1 q Hroll). by rewrite Hfile.
Qed.

Lemma write_changes_one_file_witness :
  fs_data (snd (after (write (record_of 5) unbounded_writer_1) unbounded_writer_1))
    !! "logs/app-1.log"
  = fs_data (snd unbounded_writer_1) !! "logs/app-1.log".
Proof.
  refine (write_changes_one_file (record_of 5)
            (fst unbounded_writer_1) (snd unbounded_writer_1) _ _ "logs/app-1.log" _ _).
  - vm_compute. reflexivity.
  - vm_compute. discriminate.
Defined.

(** [write] passes a null stream to [fwrite] in exactly one situation:
    the writer was open, the record passed the size test, the accounted
    bytes called for the next file (and rotation was not exhausted), and
    that file could not be opened. *)
Theorem write_faults_iff (data : list Byte.byte) st fs :
  let size := wrap (Z.of_nat (length data) + 1) in
  let i := if m_CurrentLogFiles st =? m_MaxLogFiles st
           then 1 else wrap (m_CurrentLogFiles st + 1) in
  write data (st, fs) = Faulted ↔
    ready st = true ∧
    m_BytesPerFile st ≠ 0 ∧
    size ≤ m_BytesPerFile st ∧
    m_BytesPerFile st < wrap (m_CurrentBytes st + size) ∧
    (m_CurrentLogFiles st = m_MaxLogFiles st → m_RotateLogs st = true) ∧
    fs_openable fs (constructFullPath (set_counters i 0 st)) = false.
Proof.
  intros size i. unfold write. fold size.
  destruct (ready st) eqn:Hready; cbn [negb]; [|split; [discriminate | by intros [? _]]].
  unfold nonzero at 1.
  destruct (m_BytesPerFile st =? 0) eqn:Hz; cbn [negb andb].
  - apply Z.eqb_eq in Hz. unfold roll_over, nonzero. rewrite Hz. cbn [Z.eqb negb andb].
    apply ready_true in Hready as [p Hp]. unfold fwrite. cbn [m_File set_counters].
    rewrite Hp. split; [discriminate | by intros (_ & ? & _)].
  - apply Z.eqb_neq in Hz.
    destruct (m_BytesPerFile st <? size) eqn:Hbig.
    { apply Z.ltb_lt in Hbig. split; [discriminate | intros (_ & _ & ? & _); lia]. }
    apply Z.ltb_ge in Hbig.
    unfold roll_over, nonzero. rewrite (proj2 (Z.eqb_neq _ _) Hz). cbn [negb andb].
    destruct (m_BytesPerFile st <? wrap (m_CurrentBytes st + size)) eqn:Hover.
    2:{ apply Z.ltb_ge in Hover. apply ready_true in Hready as [p Hp].
        unfold fwrite. cbn [m_File set_counters]. rewrite Hp.
        split; [discriminate | intros (_ & _ & _ & ? & _); lia]. }
    apply Z.ltb_lt in Hover.
    assert (∀ j, (match newLogFile (set_counters j 0 st, fs) with
                  | (st1, fs1) =>
                      match fwrite data (wrap (size - 1))
                              (m_File (set_counters (m_CurrentLogFiles st1)
                                         (wrap (m_CurrentBytes st1 + size)) st1)) fs1 with
                      | Returned fs2 =>
                          Returned (set_counters (m_CurrentLogFiles st1)
                                      (wrap (m_CurrentBytes st1 + size)) st1, fs2)
                      | Faulted => Faulted
                      end
                  end = Faulted) ↔
                fs_openable fs (constructFullPath (set_counters j 0 st)) = false) as Hnew.
    { intros j. destruct (fs_openable fs (constructFullPath (set_counters j 0 st))) eqn:Hopen.
      - rewrite (newLogFile_opened (set_counters j 0 st) fs Hopen). cbn. done.
      - rewrite (newLogFile_failed (set_counters j 0 st) fs Hopen). cbn. done. }
    subst i. destruct (m_CurrentLogFiles st =? m_MaxLogFiles st) eqn:Hlast.
    + apply Z.eqb_eq in Hlast. destruct (m_RotateLogs st) eqn:Hrot; cbn [negb].
      * rewrite Hnew. split; [intros ?; done | by intros (_ & _ & _ & _ & _ & ?)].
      * split; [discriminate | intros (_ & _ & _ & _ & Hr & _)].
        specialize (Hr Hlast). discriminate.
    + apply Z.eqb_neq in Hlast. rewrite Hnew.
      split; [intros ?; done | by intros (_ & _ & _ & _ & _ & ?)].
Qed.

Lemma write_faults_iff_witness :
  write (record_of 5) (after (write (record_of 5) stuck_writer) stuck_writer) = Faulted.
Proof.
  set (s1 := after (write (record_of 5) stuck_writer) stuck_writer).
  apply (write_faults_iff (record_of 5) (fst s1) (snd s1)).
  split; [reflexivity|]. split; [vm_compute; discriminate|].
  split; [vm_compute; discriminate|]. split; [reflexivity|].
  split; [vm_compute; discriminate | reflexivity].
Defined.

(** A rollover to another index leaves the file it has just filled as it
    is: the next file has another name, and only that one is created and
    written. *)
Theorem rollover_keeps_filled_file st fs (data : list Byte.byte) :
  let size := Z.of_nat (length data) + 1 in
  let i := if m_CurrentLogFiles st =? m_MaxLogFiles st
           then 1 else wrap (m_CurrentLogFiles st + 1) in
  let path := constructFullPath (set_counters i 0 st) in
  m_File st = Some (constructFullPath st) →
  Z.of_nat (length data) < SIZE_MAX →
  0 < m_BytesPerFile st →
  size ≤ m_BytesPerFile st →
  m_BytesPerFile st < wrap (m_CurrentBytes st + size) →
  (m_CurrentLogFiles st = m_MaxLogFiles st → m_RotateLogs st = true) →
  fs_openable fs path = true →
  i ≠ m_CurrentLogFiles st →
  ∃ st' fs',
    write data (st, fs) = Returned (st', fs') ∧
    m_File st' = Some path ∧
    path ≠ constructFullPath st ∧
    file_bytes (constructFullPath st) fs' = file_bytes (constructFullPath st) fs ∧
    file_bytes path fs' = data ∧
    fs_streams fs' = path :: remove_first (constructFullPath st) (fs_streams fs).
Proof.
  intros size i path Hfile Hlen Hpos Hfit Hover Hrot Hopen Hi.
  assert (path ≠ constructFullPath st) as Hne.
  { intros Heq. apply Hi.
    apply (constructFullPath_inj st i (m_CurrentLogFiles st) 0 (m_CurrentBytes st)).
    etrans; [exact Heq|]. reflexivity. }
  eexists _, _. split.
  - exact (write_next_file st fs _ data Hfile Hlen Hpos Hfit Hover Hrot Hopen).
  - cbn [set_counters set_File m_File fs_streams]. split; [reflexivity|].
    split; [exact Hne|].
    split; [unfold file_bytes; cbn [fs_data]; by rewrite lookup_insert_ne|].
    split; [unfold file_bytes; cbn [fs_data]; by rewrite lookup_insert_eq|].
    reflexivity.
Qed.

Lemma rollover_keeps_filled_file_witness :
  ∃ s', write (record_of 5) unbounded_writer_1 = Returned s' ∧
    file_bytes "logs/app-1.log" (snd s') = record_of 5 ∧
    file_bytes "logs/app-2.log" (snd s') = record_of 5.
Proof.
  destruct (rollover_keeps_filled_file (fst unbounded_writer_1) (snd unbounded_writer_1)
              (record_of 5) eq_refl eq_refl eq_refl ltac:(vm_compute; discriminate)
              eq_refl ltac:(vm_compute; discriminate) eq_refl ltac:(vm_compute; discriminate))
    as (st' & fs' & Hw & _ & _ & Hold & Hnew & _).
  exists (st', fs'). split; [exact Hw|]. split; [exact Hold | exact Hnew].
Defined.

(** [setTag] renames nothing and reopens nothing: the records that fit
    keep going to the file opened under the old tag, and the new tag
    shows in the name of the file the next rollover opens. *)
Theorem setTag_names_next_file (tag : string) st fs p (data : list Byte.byte) :
  let size := Z.of_nat (length data) + 1 in
  let i := if m_CurrentLogFiles st =? m_MaxLogFiles st
           then 1 else wrap (m_CurrentLogFiles st + 1) in
  let path := m_DirectoryPath st +:+ tag +:+ "-" +:+ pretty i +:+ ".log" in
  m_File st = Some p →
  Z.of_nat (length data) < SIZE_MAX →
  snd (setTag tag (st, fs)) = fs ∧
  m_File (fst (setTag tag (st, fs))) = Some p ∧
  (m_BytesPerFile st = 0 ∨
     (size ≤ m_BytesPerFile st ∧ wrap (m_CurrentBytes st + size) ≤ m_BytesPerFile st) →
   ∃ st' fs', write data (setTag tag (st, fs)) = Returned (st', fs') ∧
     m_File st' = Some p ∧
     file_bytes p fs' = file_bytes p fs ++ data) ∧
  (0 < m_BytesPerFile st →
   size ≤ m_BytesPerFile st →
   m_BytesPerFile st < wrap (m_CurrentBytes st + size) →
   (m_CurrentLogFiles st = m_MaxLogFiles st → m_RotateLogs st = true) →
   fs_openable fs path = true →
   ∃ st' fs', write data (setTag tag (st, fs)) = Returned (st', fs') ∧
     m_File st' = Some path ∧
     file_bytes path fs' = data ∧
     (p ≠ path → file_bytes p fs' = file_bytes p fs)).
Proof.
  intros size i path Hfile Hlen. cbn [setTag fst snd m_File].
  split; [reflexivity|]. split; [exact Hfile|]. split.
  - intros Hroom. eexists _, _. split.
    + match goal with
      | |- write data (?st1, fs) = _ => exact (write_same_file st1 fs p data Hfile Hlen Hroom)
      end.
    + cbn [set_counters m_File]. split; [exact Hfile|].
      unfold file_bytes at 1. cbn [fs_data]. by rewrite lookup_insert_eq.
  - intros Hpos Hfit Hover Hrot Hopen. eexists _, _. split.
    + match goal with
      | |- write data (?st1, fs) = _ =>
          exact (write_next_file st1 fs p data Hfile Hlen Hpos Hfit Hover Hrot Hopen)
      end.
    + cbn [set_counters set_File m_File]. split; [reflexivity|].
      unfold file_bytes. cbn [fs_data]. split; [by rewrite lookup_insert_eq|].
      intros Hne. by rewrite lookup_insert_ne.
Qed.

Lemma setTag_names_next_file_witness :
  ∃ s', write (record_of 5) (setTag "web" unbounded_writer_1) = Returned s' ∧
    m_File (fst s') = Some "logs/web-2.log" ∧
    file_bytes "logs/app-1.log" (snd s') = record_of 5.
Proof.
  destruct (setTag_names_next_file "web" (fst unbounded_writer_1) (snd unbounded_writer_1)
              "logs/app-1.log" (record_of 5) eq_refl eq_refl)
    as (_ & _ & _ & Hroll).
  destruct Hroll as (st' & fs' & Hw & Hf & _ & Hold);
    try (vm_compute; (reflexivity || discriminate)).
  exists (st', fs'). split; [exact Hw|]. split; [exact Hf|].
  cbn [snd]. rewrite Hold; [reflexivity | vm_compute; discriminate].
Defined.

Lemma newLogFile_health st fs :
  ok (fst (newLogFile (st, fs))) = ready (fst (newLogFile (st, fs))).
Proof.
  destruct (fs_openable fs (constructFullPath st)) eqn:Hopen.
  - by rewrite (newLogFile_opened st fs Hopen).
  - by rewrite (newLogFile_failed st fs Hopen).
Qed.

Lemma op_keeps_health (o : operation) s s' :
  (ready (fst s) = true → ok (fst s) = true) →
  apply_op o s = Returned s' →
  ready (fst s') = true → ok (fst s') = true.
Proof.
  destruct s as [st fs]. intros Hinv.
  destruct o as [d t b m r|data| |tag|]; cbn [apply_op].
  - intros Heq. assert (s' = snd (init d t b m r (st, fs))) as -> by congruence.
    change (snd (init d t b m r (st, fs))) with
      (newLogFile ({| m_File := m_File st; m_DirectoryPath := d +:+ "/"; m_CachedTag := t;
                      m_BytesPerFile := b; m_CurrentBytes := 0; m_MaxLogFiles := m;
                      m_CurrentLogFiles := 1; m_RotateLogs := r; m_State := m_State st |},
                   fs)).
    intros Hr. by rewrite newLogFile_health.
  - unfold write. destruct (negb (ready st)); [by intros [= <-]|].
    set (size := wrap (Z.of_nat (length data) + 1)).
    destruct (nonzero (m_BytesPerFile st) && (m_BytesPerFile st <? size));
      [by intros [= <-]|].
    destruct (roll_over size (st, fs)) as [[st1 fs1]|] eqn:Hroll; [|by intros [= <-]].
    destruct (fwrite _ _ _ _) as [fs2|]; [|discriminate].
    intros [= <-]. cbn [fst]. unfold ready, ok. cbn [set_counters m_File m_State].
    change (ready st1 = true → ok st1 = true).
    revert Hroll. unfold roll_over.
    destruct (nonzero (m_BytesPerFile st) &&
              (m_BytesPerFile st <? wrap (m_CurrentBytes st + size))).
    + destruct (m_CurrentLogFiles st =? m_MaxLogFiles st).
      * destruct (negb (m_RotateLogs st)); [discriminate|].
        intros Heq%(inj Some) Hr.
        pose proof (newLogFile_health (set_counters 1 0 st) fs) as Hh.
        rewrite Heq in Hh. cbn [fst] in Hh. by rewrite Hh.
      * intros Heq%(inj Some) Hr.
        pose proof (newLogFile_health
                      (set_counters (wrap (m_CurrentLogFiles st + 1)) 0 st) fs) as Hh.
        rewrite Heq in Hh. cbn [fst] in Hh. by rewrite Hh.
    + by intros [= <- <-].
  - intros [= <-]. unfold terminate. destruct (m_File st) eqn:Hf.
    + cbn [fst]. intros Hr. apply ready_true in Hr as [p Hp]. discriminate.
    + exact Hinv.
  - intros [= <-]. exact Hinv.
  - intros [= <-]. exact Hinv.
Qed.

(** Whatever operations a writer has gone through since its
    construction, an open stream implies health: [operator bool] is true
    exactly when a stream is open. *)
Theorem open_writer_is_healthy (os : list operation) (fs : filesystem)
    (s' : FileManager * filesystem) :
  apply_ops os (FileManager_new, fs) = Returned s' →
  to_bool (fst s') = ready (fst s').
Proof.
  intros Hrun.
  assert (∀ (l : list operation) (s0 : FileManager * filesystem),
            (ready (fst s0) = true → ok (fst s0) = true) →
            apply_ops l s0 = Returned s' →
            ready (fst s') = true → ok (fst s') = true) as Hall.
  { induction l as [|o l IH]; intros s0 H0; cbn [apply_ops].
    - by intros [= <-].
    - destruct (apply_op o s0) as [s1|] eqn:Hop; [|discriminate].
      apply IH. by apply (op_keeps_health o s0). }
  assert (ready (fst s') = true → ok (fst s') = true) as Hinv
    by (apply (Hall os (FileManager_new, fs)); [done | exact Hrun]).
  unfold to_bool. destruct (ready (fst s')); [by rewrite Hinv | apply andb_false_r].
Qed.

Lemma open_writer_is_healthy_witness :
  to_bool (fst (after (write (record_of 5) stuck_writer) stuck_writer)) = true.
Proof.
  rewrite (open_writer_is_healthy
             [op_init "logs" "app" 10 3 true; op_write (record_of 5)] one_file_disk
             (after (write (record_of 5) stuck_writer) stuck_writer)).
  - vm_compute. reflexivity.
  - vm_compute. reflexivity.
Defined.

Lemma write_rollover_failed st fs p (data : list Byte.byte) :
  let size := Z.of_nat (length data) + 1 in
  let i := if m_CurrentLogFiles st =? m_MaxLogFiles st
           then 1 else wrap (m_CurrentLogFiles st + 1) in
  m_File st = Some p →
  Z.of_nat (length data) < SIZE_MAX →
  0 < m_BytesPerFile st →
  size ≤ m_BytesPerFile st →
  m_BytesPerFile st < wrap (m_CurrentBytes st + size) →
  (m_CurrentLogFiles st = m_MaxLogFiles st → m_RotateLogs st = true) →
  fs_openable fs (constructFullPath (set_counters i 0 st)) = false →
  write data (st, fs) = Faulted.
Proof.
  intros size i Hfile Hlen Hpos Hfit Hover Hrot Hopen. unfold write.
  assert (ready st = true) as -> by (apply ready_true; eauto).
  cbn [negb]. rewrite size_incr by assumption. fold size.
  rewrite (nonzero_pos _ Hpos). cbn [andb].
  assert ((m_BytesPerFile st <? size) = false) as -> by (apply Z.ltb_ge; exact Hfit).
  unfold roll_over. rewrite (nonzero_pos _ Hpos). cbn [andb].
  assert ((m_BytesPerFile st <? wrap (m_CurrentBytes st + size)) = true) as ->
    by (apply Z.ltb_lt; exact Hover).
  assert ((if m_CurrentLogFiles st =? m_MaxLogFiles st
           then if negb (m_RotateLogs st) then None
                else Some (newLogFile (set_counters 1 0 st, fs))
           else Some (newLogFile (set_counters (wrap (m_CurrentLogFiles st + 1)) 0 st, fs)))
          = Some (newLogFile (set_counters i 0 st, fs))) as ->.
  { subst i. destruct (m_CurrentLogFiles st =? m_MaxLogFiles st) eqn:Hlast; [|reflexivity].
    apply Z.eqb_eq in Hlast. by rewrite (Hrot Hlast). }
  rewrite (newLogFile_failed (set_counters i 0 st) fs Hopen). reflexivity.
Qed.

(** With 0 < bytesPerFile < 2^63, a write that returns leaves the open
    file no longer than currentBytes, which is at most bytesPerFile, if
    that was so before: a log file never grows beyond bytesPerFile. *)
Theorem write_keeps_file_within_budget st fs p (data : list Byte.byte) st' fs' p' :
  m_File st = Some p →
  Z.of_nat (length data) < SIZE_MAX →
  0 < m_BytesPerFile st →
  2 * m_BytesPerFile st ≤ SIZE_MAX →
  0 ≤ m_CurrentBytes st ≤ m_BytesPerFile st →
  Z.of_nat (length (file_bytes p fs)) ≤ m_CurrentBytes st →
  write data (st, fs) = Returned (st', fs') →
  m_File st' = Some p' →
  Z.of_nat (length (file_bytes p' fs')) ≤ m_CurrentBytes st' ∧
  m_CurrentBytes st' ≤ m_BytesPerFile st' ∧
  m_BytesPerFile st' = m_BytesPerFile st.
Proof.
  intros Hfile Hlen Hpos Hhalf Hcur Hsize Hw Hfile'.
  set (size := Z.of_nat (length data) + 1).
  destruct (decide (m_BytesPerFile st < size)) as [Hbig|Hfit].
  { assert (write data (st, fs) = Returned (st, fs)) as Hrej.
    { unfold write. assert (ready st = true) as -> by (apply ready_true; eauto).
      cbn [negb]. rewrite size_incr by assumption. fold size.
      rewrite (nonzero_pos _ Hpos). cbn [andb].
      by assert ((m_BytesPerFile st <? size) = true) as -> by (apply Z.ltb_lt; exact Hbig). }
    rewrite Hrej in Hw. injection Hw as <- <-.
    rewrite Hfile in Hfile'. injection Hfile' as <-. lia. }
  assert (wrap (m_CurrentBytes st + size) = m_CurrentBytes st + size) as Hnowrap
    by (apply wrap_id; unfold is_size_t, size in *; lia).
  destruct (decide (m_CurrentBytes st + size ≤ m_BytesPerFile st)) as [Hroom|Hover].
  - rewrite (write_same_file st fs p data Hfile Hlen) in Hw
      by (right; fold size; rewrite Hnowrap; lia).
    injection Hw as <- <-. cbn [set_counters m_File m_CurrentBytes m_BytesPerFile] in *.
    rewrite Hfile in Hfile'. injection Hfile' as <-.
    match goal with
    | |- context [file_bytes p ?fs1] =>
        assert (file_bytes p fs1 = file_bytes p fs ++ data) as ->
          by (unfold file_bytes at 1; cbn [fs_data]; by rewrite lookup_insert_eq)
    end.
    rewrite length_app. fold size. rewrite Hnowrap. unfold size. lia.
  - destruct (decide (m_CurrentLogFiles st = m_MaxLogFiles st ∧ m_RotateLogs st = false))
      as [[Hlast Hrot]|Hgo].
    + assert (write data (st, fs) = Returned (st, fs)) as Hdrop.
      { unfold write. assert (ready st = true) as -> by (apply ready_true; eauto).
        cbn [negb]. rewrite size_incr by assumption. fold size.
        rewrite (nonzero_pos _ Hpos). cbn [andb].
        assert ((m_BytesPerFile st <? size) = false) as -> by (apply Z.ltb_ge; lia).
        unfold roll_over. rewrite (nonzero_pos _ Hpos). cbn [andb].
        assert ((m_BytesPerFile st <? wrap (m_CurrentBytes st + size)) = true) as ->
          by (apply Z.ltb_lt; lia).
        by rewrite Hlast, Z.eqb_refl, Hrot. }
      rewrite Hdrop in Hw. injection Hw as <- <-.
      rewrite Hfile in Hfile'. injection Hfile' as <-. lia.
    + assert (m_CurrentLogFiles st = m_MaxLogFiles st → m_RotateLogs st = true) as Hrot.
      { intros Hlast. destruct (m_RotateLogs st); [reflexivity|]. by destruct Hgo. }
      set (i := if m_CurrentLogFiles st =? m_MaxLogFiles st
                then 1 else wrap (m_CurrentLogFiles st + 1)).
      destruct (fs_openable fs (constructFullPath (set_counters i 0 st))) eqn:Hopen.
      * rewrite (write_next_file st fs p data Hfile Hlen Hpos) in Hw
          by (fold size; rewrite ?Hnowrap; (lia || assumption)).
        injection Hw as <- <-.
        cbn [set_counters set_File m_File m_CurrentBytes m_BytesPerFile] in *.
        injection Hfile' as <-.
        match goal with
        | |- context [file_bytes ?q ?fs1] =>
            assert (file_bytes q fs1 = data) as ->
              by (unfold file_bytes; cbn [fs_data]; by rewrite lookup_insert_eq)
        end.
        unfold size. lia.
      * rewrite (write_rollover_failed st fs p data Hfile Hlen Hpos) in Hw
          by (fold size; rewrite ?Hnowrap; (lia || assumption)).
        discriminate.
Qed.

Lemma write_keeps_file_within_budget_witness :
  Z.of_nat (length (file_bytes "logs/app-1.log"
              (snd (after (write (record_of 7) two_file_writer) two_file_writer)))) ≤ 10.
Proof.
  destruct (write_keeps_file_within_budget (fst two_file_writer) (snd two_file_writer)
              "logs/app-1.log" (record_of 7)
              (fst (after (write (record_of 7) two_file_writer) two_file_writer))
              (snd (after (write (record_of 7) two_file_writer) two_file_writer))
              "logs/app-1.log" eq_refl eq_refl eq_refl
              ltac:(vm_compute; discriminate)
              ltac:(vm_compute; split; discriminate)
              ltac:(vm_compute; discriminate) eq_refl eq_refl) as (Hlen & Hcur & HB).
  etrans; [exact Hlen|]. etrans; [exact Hcur|]. rewrite HB. vm_compute. discriminate.
Defined.

End FileManagerMore.

(** ** More on the pool *)

Module PoolMore.

Import FileManager thread_pool FileManagerSpec PoolSpec Scenarios.

Lemma run_app (l1 l2 : list action) (s : thread_pool) :
  run (l1 ++ l2) s = run l1 s ≫= run l2.
Proof.
  revert s. induction l1 as [|a l1 IH]; intros s; [reflexivity|].
  cbn [app run]. destruct (step a s); [apply IH | reflexivity].
Qed.

(** What each step does to the length of the queue. *)
Lemma step_queue_length a s s' :
  step a s = Some s' →
  is_flush a = false →
  (length (m_TaskQueue s) ≤ BLOGGER_TASK_LIMIT)%nat →
  (length (m_TaskQueue s') ≤ BLOGGER_TASK_LIMIT)%nat.
Proof.
  intros Hstep Hnf Hle. destruct a as [msg| |id fh|id| |w|w|w]; cbn [step] in Hstep;
    try discriminate Hnf.
  - injection Hstep as <-. by apply post_within_limit.
  - by injection Hstep as <-.
  - injection Hstep as <-. unfold remove_helper. by destruct (m_Files s !! id).
  - by injection Hstep as <-.
  - destruct (m_Pool s !! w) as [[| | |]|]; try discriminate.
    pose proof (do_work_locked_length s) as Hlen.
    destruct (do_work_locked s) as [[p|] s1]; injection Hstep as <-;
      cbn [snd set_pc m_TaskQueue] in *; lia.
  - destruct (m_Pool s !! w) as [[|p| |]|]; try discriminate.
    destruct (do_work_task p s) as [s1|] eqn:Hrun; [|discriminate].
    destruct (do_work_task_frame p s s1 Hrun) as (_ & E2 & _).
    injection Hstep as <-. cbn [set_pc log_handled m_TaskQueue]. by rewrite E2.
  - destruct (m_Pool s !! w) as [[| |d|]|]; try discriminate.
    by injection Hstep as <-.
Qed.

(** As long as no flush is enqueued the queue stays within
    BLOGGER_TASK_LIMIT, whatever the producers and the workers do and in
    whatever order. *)
Theorem queue_bounded_without_flush (sched : list action) :
  ∀ s s',
    (length (m_TaskQueue s) ≤ BLOGGER_TASK_LIMIT)%nat →
    Forall (λ a, is_flush a = false) sched →
    run sched s = Some s' →
    (length (m_TaskQueue s') ≤ BLOGGER_TASK_LIMIT)%nat.
Proof.
  induction sched as [|a sched IH]; intros s s' Hle Hnf; cbn [run].
  - by intros [= <-].
  - apply Forall_cons in Hnf as [Ha Hnf].
    destruct (step a s) as [s1|] eqn:Hstep; [|discriminate].
    apply IH; [|exact Hnf]. by apply (step_queue_length a s).
Qed.

Lemma queue_bounded_without_flush_witness :
  (length (m_TaskQueue (reach [a_post hello; a_poll 0; a_post to_both] full_pool))
   ≤ BLOGGER_TASK_LIMIT)%nat.
Proof.
  apply (queue_bounded_without_flush [a_post hello; a_poll 0; a_post to_both] full_pool).
  - vm_compute. lia.
  - repeat constructor.
  - vm_compute. reflexivity.
Defined.

Lemma tail_drop {A} (n : nat) (l : list A) : tail (drop n l) = drop (S n) l.
Proof.
  revert l. induction n as [|n IH]; intros [|x l]; cbn; try reflexivity.
  apply IH.
Qed.

(** Posting a run of records to a fresh pool, with no worker in between,
    leaves the most recent BLOGGER_TASK_LIMIT of them in the queue, in
    the order they were posted: what overflows is dropped from the old
    end, one record for each record that came after the limit. *)
Theorem posts_keep_most_recent (ms : list LogMsg) (n : nat) (fs : filesystem) :
  ∃ s,
    run (a_post <$> ms) (thread_pool_new n fs) = Some s ∧
    allocated s = length ms ∧
    m_TaskQueue s = drop (length ms - BLOGGER_TASK_LIMIT) (imap nth_task ms) ∧
    length (m_TaskQueue s) = (length ms `min` BLOGGER_TASK_LIMIT)%nat.
Proof.
  induction ms as [|m ms IH] using rev_ind.
  - eexists. split; [reflexivity|]. done.
  - destruct IH as (s & Hrun & Halloc & Hq & Hlen).
    exists (post m s). rewrite fmap_app, run_app, Hrun. cbn [mbind option_bind fmap list_fmap run step].
    split; [reflexivity|].
    assert (allocated (post m s) = S (allocated s)) as Ha.
    { unfold post. by destruct (length (m_TaskQueue s) =? BLOGGER_TASK_LIMIT)%nat. }
    rewrite length_app, Ha, Halloc. cbn [length].
    split; [lia|].
    rewrite post_queue, Hlen. rewrite Hq.
    assert (imap nth_task (ms ++ [m]) = imap nth_task ms ++ [nth_task (length ms) m]) as ->.
    { rewrite imap_app. cbn. by rewrite Nat.add_0_r. }
    fold (nth_task (allocated s) m). rewrite Halloc.
    unfold BLOGGER_TASK_LIMIT in *.
    destruct (decide (length ms < 100)%nat) as [Hlt|Hge].
    + assert ((length ms `min` 100 =? 100)%nat = false) as -> by (apply Nat.eqb_neq; lia).
      replace (length ms - 100)%nat with 0%nat by lia.
      replace (length ms + 1 - 100)%nat with 0%nat by lia.
      rewrite !drop_0, length_app, length_imap. cbn [length]. split; [reflexivity | lia].
    + assert ((length ms `min` 100 =? 100)%nat = true) as -> by (apply Nat.eqb_eq; lia).
      rewrite tail_drop.
      replace (length ms + 1 - 100)%nat with (S (length ms - 100)) by lia.
      rewrite drop_app_le by (rewrite length_imap; lia).
      split; [reflexivity|].
      rewrite length_app, length_drop, length_imap. cbn [length]. lia.
Qed.

(** The registry: an entry added is found, adding again replaces it,
    removing makes the id unknown again, removing an unknown id changes
    nothing, and neither operation touches another id's entry. *)
Theorem registry_round_trip (id : Z) (fh fh' : nat) (s : thread_pool) :
  m_Files (add_helper id fh s) !! id = Some fh ∧
  m_Files (add_helper id fh' (add_helper id fh s)) = m_Files (add_helper id fh' s) ∧
  m_Files (remove_helper id (add_helper id fh s)) !! id = None ∧
  (m_Files s !! id = None →
     remove_helper id s = s ∧
     m_Files (remove_helper id (add_helper id fh s)) = m_Files s) ∧
  (∀ id', id' ≠ id →
     m_Files (add_helper id fh s) !! id' = m_Files s !! id' ∧
     m_Files (remove_helper id s) !! id' = m_Files s !! id').
Proof.
  cbn [add_helper set_Files m_Files].
  split; [apply lookup_insert_eq|].
  split; [apply insert_insert_eq|].
  assert (∀ s0 : thread_pool, remove_helper id (add_helper id fh s0)
            = set_Files (delete id (<[id := fh]> (m_Files s0))) (add_helper id fh s0)) as Hrm.
  { intros s0. unfold remove_helper. cbn [add_helper set_Files m_Files].
    by rewrite lookup_insert_eq. }
  split; [rewrite Hrm; cbn [set_Files m_Files]; apply lookup_delete_eq|].
  split.
  - intros Hnone. split.
    + unfold remove_helper. by rewrite Hnone.
    + rewrite Hrm. cbn [set_Files m_Files]. rewrite delete_insert_eq.
      by apply delete_id.
  - intros id' Hne. split.
    + by apply lookup_insert_ne.
    + unfold remove_helper. destruct (m_Files s !! id); [|reflexivity].
      cbn [set_Files m_Files]. by apply lookup_delete_ne.
Qed.


Lemma worker_drains_witness :
  ∃ s', worker 2 stopping_pool = Some (Returned s') ∧
    m_TaskQueue s' = [] ∧
    cout s' = [cout_write (data hello); cout_flush].
Proof.
  destruct (worker_drains 2 stopping_pool eq_refl ltac:(vm_compute; lia))
    as [Hfault|(s' & Hrun & Hq & _ & Hc)].
  - vm_compute in Hfault. discriminate.
  - exists s'. split; [exact Hrun|]. split; [exact Hq|]. rewrite Hc. reflexivity.
Defined.

(** Which steps touch the running flag. *)
Lemma step_running a s s' :
  step a s = Some s' →
  m_Running s' = (if is_stop a then false else m_Running s).
Proof.
  destruct a as [msg| |id fh|id| |w|w|w]; cbn [step]; intros Hstep.
  - injection Hstep as <-. unfold post.
    by destruct (length (m_TaskQueue s) =? BLOGGER_TASK_LIMIT)%nat.
  - by injection Hstep as <-.
  - by injection Hstep as <-.
  - injection Hstep as <-. unfold remove_helper. by destruct (m_Files s !! id).
  - by injection Hstep as <-.
  - destruct (m_Pool s !! w) as [[| | |]|]; try discriminate.
    unfold do_work_locked in Hstep.
    by destruct (m_TaskQueue s); injection Hstep as <-.
  - destruct (m_Pool s !! w) as [[|p| |]|]; try discriminate.
    destruct (do_work_task p s) as [s1|] eqn:Hrun; [|discriminate].
    destruct (do_work_task_frame p s s1 Hrun) as (_ & _ & _ & _ & _ & E & _).
    by injection Hstep as <-.
  - destruct (m_Pool s !! w) as [[| |d|]|]; try discriminate.
    by injection Hstep as <-.
Qed.

Lemma do_work_running s d s1 :
  do_work s = Returned (d, s1) → m_Running s1 = m_Running s.
Proof.
  unfold do_work, do_work_locked. destruct (m_TaskQueue s) as [|p q].
  - by intros [= <- <-].
  - destruct (do_work_task p _) as [s2|] eqn:Hrun; [|discriminate].
    destruct (do_work_task_frame _ _ _ Hrun) as (_ & _ & _ & _ & _ & E & _).
    by intros [= <- <-].
Qed.

Lemma worker_loop_keeps_running (fuel : nat) :
  ∀ d s s', m_Running s = true → worker_loop fuel d s ≠ Some (Returned s').
Proof.
  induction fuel as [|fuel IH]; intros d s s' Hrun; cbn [worker_loop]; rewrite Hrun;
    cbn [orb]; [discriminate|].
  destruct (do_work s) as [[d1 s1]|] eqn:Hwork; [|discriminate].
  apply IH. by rewrite (do_work_running s d1 s1 Hwork).
Qed.

(** While the running flag is set, [worker()] does not return, however
    long it runs and whatever the queue holds: an idle worker keeps
    polling. *)
Theorem worker_keeps_running (fuel : nat) (s s' : thread_pool) :
  m_Running s = true →
  worker fuel s ≠ Some (Returned s').
Proof.
  intros Hrun. unfold worker.
  destruct (do_work s) as [[d1 s1]|] eqn:Hwork; [|discriminate].
  apply worker_loop_keeps_running. by rewrite (do_work_running s d1 s1 Hwork).
Qed.

Lemma worker_keeps_running_witness :
  worker 50 full_pool ≠ Some (Returned full_pool).
Proof.
  apply (worker_keeps_running 50 full_pool full_pool). reflexivity.
Defined.

Lemma run_stop_needed (sched : list action) :
  ∀ s s', run sched s = Some s' → m_Running s = true → m_Running s' = false →
    a_stop ∈ sched.
Proof.
  induction sched as [|a sched IH]; intros s s' Hrun Hon Hoff; cbn [run] in Hrun.
  - injection Hrun as <-. congruence.
  - destruct (step a s) as [s1|] eqn:Hstep; [|discriminate].
    destruct (is_stop a) eqn:Hs.
    { destruct a; try discriminate Hs. apply elem_of_cons. by left. }
    apply elem_of_cons. right. apply (IH s1 s' Hrun); [|exact Hoff].
    rewrite (step_running a s s1 Hstep), Hs. exact Hon.
Qed.

Lemma returned_needs_stop a s s' :
  step a s = Some s' →
  (∀ w, m_Pool s !! w = Some returned → m_Running s = false) →
  ∀ w, m_Pool s' !! w = Some returned → m_Running s' = false.
Proof.
  intros Hstep Hinv w0 Hw0.
  rewrite (step_running a s s' Hstep). destruct (is_stop a) eqn:Hs; [reflexivity|].
  destruct a as [msg| |id fh|id| |w|w|w]; cbn [step] in Hstep.
  - injection Hstep as <-. apply (Hinv w0). revert Hw0. unfold post.
    by destruct (length (m_TaskQueue s) =? BLOGGER_TASK_LIMIT)%nat.
  - injection Hstep as <-. by apply (Hinv w0).
  - injection Hstep as <-. by apply (Hinv w0).
  - injection Hstep as <-. apply (Hinv w0). revert Hw0. unfold remove_helper.
    by destruct (m_Files s !! id).
  - done.
  - destruct (m_Pool s !! w) as [[| | |]|] eqn:Hw; try discriminate.
    unfold do_work_locked in Hstep.
    destruct (m_TaskQueue s); injection Hstep as <-;
      cbn [set_pc log_popped pop_front set_TaskQueue m_Pool] in Hw0;
      (destruct (decide (w = w0)) as [->|Hne];
       [apply list_lookup_insert_Some in Hw0 as [(_ & [=] & _)|(? & _)]; done
       |rewrite list_lookup_insert_ne in Hw0 by exact Hne; by apply (Hinv w0)]).
  - destruct (m_Pool s !! w) as [[|p| |]|] eqn:Hw; try discriminate.
    destruct (do_work_task p s) as [s1|] eqn:Hrun; [|discriminate].
    destruct (do_work_task_frame p s s1 Hrun) as (E1 & _).
    injection Hstep as <-. cbn [set_pc log_handled m_Pool] in Hw0. rewrite E1 in Hw0.
    destruct (decide (w = w0)) as [->|Hne].
    + apply list_lookup_insert_Some in Hw0 as [(_ & [=] & _)|(? & _)]; done.
    + rewrite list_lookup_insert_ne in Hw0 by exact Hne. by apply (Hinv w0).
  - destruct (m_Pool s !! w) as [[| |d|]|] eqn:Hw; try discriminate.
    injection Hstep as <-. cbn [set_pc m_Pool] in Hw0.
    destruct (decide (w = w0)) as [->|Hne].
    + apply list_lookup_insert_Some in Hw0 as [(_ & Heq & _)|(? & _)]; [|done].
      destruct (m_Running s); [discriminate | reflexivity].
    + rewrite list_lookup_insert_ne in Hw0 by exact Hne. by apply (Hinv w0).
Qed.

(** No worker returns before [shutdown] has begun. Start from any state
    of the pool in which the running flag is set and no worker has
    returned, whatever loggers are registered and whatever their writers
    and files hold: in every state a schedule leads to, a worker that has
    returned implies that the running flag is cleared and that the
    assignment of [shutdown] is part of the schedule. *)
Theorem no_return_before_shutdown (s0 : thread_pool) (sched : list action)
    (s : thread_pool) (w : nat) :
  m_Running s0 = true →
  (∀ w0, m_Pool s0 !! w0 ≠ Some returned) →
  run sched s0 = Some s →
  m_Pool s !! w = Some returned →
  m_Running s = false ∧ a_stop ∈ sched.
Proof.
  intros Hon Hnone Hrun Hw.
  assert (∀ l s1 s2, run l s1 = Some s2 →
            (∀ w, m_Pool s1 !! w = Some returned → m_Running s1 = false) →
            ∀ w, m_Pool s2 !! w = Some returned → m_Running s2 = false) as Hall.
  { induction l as [|a l IH]; intros s1 s2 Hr Hinv; cbn [run] in Hr.
    - by injection Hr as <-.
    - destruct (step a s1) as [s3|] eqn:Hstep; [|discriminate].
      apply (IH s3 s2 Hr). by apply (returned_needs_stop a s1 s3). }
  assert (m_Running s = false) as Hoff.
  { apply (Hall sched s0 s Hrun) with w; [|exact Hw].
    intros w0 Hw0. by destruct (Hnone w0). }
  split; [exact Hoff|]. by apply (run_stop_needed sched s0 s Hrun).
Qed.

Lemma no_return_before_shutdown_witness :
  file_bytes "logs/app-1.log"
    (disk (reach [a_post to_both; a_poll 0; a_handle 0; a_stop; a_test 0; a_poll 0; a_test 0]
             pool_with_logger)) = record_of 3 ∧
  m_Running (reach [a_post to_both; a_poll 0; a_handle 0; a_stop; a_test 0; a_poll 0; a_test 0]
               pool_with_logger) = false.
Proof.
  split; [vm_compute; reflexivity|].
  refine (proj1 (no_return_before_shutdown pool_with_logger
                   [a_post to_both; a_poll 0; a_handle 0; a_stop; a_test 0; a_poll 0; a_test 0]
                   (reach [a_post to_both; a_poll 0; a_handle 0; a_stop; a_test 0; a_poll 0;
                           a_test 0] pool_with_logger) 0
                   _ _ _ _)).
  - vm_compute. reflexivity.
  - intros w0 Hw0. change (replicate 2 at_do_work !! w0 = Some returned) in Hw0.
    apply lookup_replicate in Hw0 as [Hw0 _]. discriminate.
  - vm_compute. reflexivity.
  - vm_compute. reflexivity.
Defined.

(** Once every worker has returned the pool is inert: producers can
    still post and flush, but no step of a worker is possible, so
    nothing is dequeued, nothing reaches the console or a file, and no
    writer changes. *)
Theorem joined_pool_is_inert (sched : list action) :
  ∀ s s',
    all_joined s = true →
    run sched s = Some s' →
    all_joined s' = true ∧
    Forall (λ a, is_worker_step a = false) sched ∧
    popped s' = popped s ∧
    handled s' = handled s ∧
    cout s' = cout s ∧
    disk s' = disk s ∧
    helpers s' = helpers s.
Proof.
  induction sched as [|a sched IH]; intros s s' Hj Hrun; cbn [run] in Hrun.
  - injection Hrun as <-. by repeat split.
  - destruct (step a s) as [s1|] eqn:Hstep; [|discriminate].
    assert (∀ w, m_Pool s !! w = Some returned ∨ m_Pool s !! w = None) as Hpcs.
    { intros w. destruct (m_Pool s !! w) as [pc|] eqn:Hw; [left|by right].
      unfold all_joined in Hj. rewrite forallb_forall in Hj.
      assert (has_returned pc = true) as Hpc
        by (apply Hj, list_elem_of_In, list_elem_of_lookup; eauto).
      by destruct pc. }
    assert (is_worker_step a = false ∧ m_Pool s1 = m_Pool s ∧ popped s1 = popped s ∧
            handled s1 = handled s ∧ cout s1 = cout s ∧ disk s1 = disk s ∧
            helpers s1 = helpers s) as (Ha & E1 & E2 & E3 & E4 & E5 & E6).
    { destruct a as [msg| |id fh|id| |w|w|w]; cbn [step] in Hstep.
      - injection Hstep as <-. unfold post.
        by destruct (length (m_TaskQueue s) =? BLOGGER_TASK_LIMIT)%nat.
      - by injection Hstep as <-.
      - by injection Hstep as <-.
      - injection Hstep as <-. unfold remove_helper. by destruct (m_Files s !! id).
      - by injection Hstep as <-.
      - destruct (Hpcs w) as [Hw|Hw]; rewrite Hw in Hstep; discriminate.
      - destruct (Hpcs w) as [Hw|Hw]; rewrite Hw in Hstep; discriminate.
      - destruct (Hpcs w) as [Hw|Hw]; rewrite Hw in Hstep; discriminate. }
    assert (all_joined s1 = true) as Hj1 by (unfold all_joined; by rewrite E1).
    destruct (IH s1 s' Hj1 Hrun) as (F0 & F1 & F2 & F3 & F4 & F5 & F6).
    split; [exact F0|]. split; [by constructor|].
    repeat split; congruence.
Qed.

Lemma joined_pool_is_inert_witness :
  cout (reach [a_post hello; a_flush]
          (reach [a_stop; a_poll 0; a_test 0] (thread_pool_new 1 empty_disk))) = [].
Proof.
  destruct (joined_pool_is_inert [a_post hello; a_flush]
              (reach [a_stop; a_poll 0; a_test 0] (thread_pool_new 1 empty_disk))
              (reach [a_post hello; a_flush]
                 (reach [a_stop; a_poll 0; a_test 0] (thread_pool_new 1 empty_disk)))
              eq_refl eq_refl) as (_ & _ & _ & _ & Hc & _).
  rewrite Hc. reflexivity.
Defined.


(** *** Each task at most once *)

Lemma sorted_lt_NoDup (l : list nat) : StronglySorted lt l → NoDup l.
Proof.
  induction 1 as [|x l _ IH Hx]; constructor; [|exact IH].
  intros Hin. rewrite Forall_forall in Hx. specialize (Hx x Hin). lia.
Qed.

Lemma once_inv_ext s s' :
  m_Pool s' = m_Pool s → handled s' = handled s → once_inv s → once_inv s'.
Proof.
  intros E1 E2 [O1 O2 O3]. split; rewrite ?E1, ?E2; assumption.
Qed.

Lemma once_inv_release w pc s :
  (∀ p, pc ≠ holding p) → once_inv s → once_inv (set_pc w pc s).
Proof.
  intros Hpc [O1 O2 O3].
  assert (∀ w0 p0, <[w := pc]> (m_Pool s) !! w0 = Some (holding p0) →
            m_Pool s !! w0 = Some (holding p0)) as Hold.
  { intros w0 p0 H0. destruct (decide (w = w0)) as [->|Hne].
    - apply list_lookup_insert_Some in H0 as [(_ & Heq & _)|(? & _)]; [|done].
      by destruct (Hpc p0).
    - by rewrite list_lookup_insert_ne in H0. }
  split; cbn [set_pc m_Pool handled].
  - intros w0 p0 H0. by apply (O1 w0), Hold.
  - intros w0 w1 p0 p1 H0 H1. by apply O2; apply Hold.
  - exact O3.
Qed.

Lemma once_inv_step n a s s' :
  pool_inv n s → once_inv s → step a s = Some s' → once_inv s'.
Proof.
  intros Hinv Honce. destruct a as [msg| |id fh|id| |w|w|w]; cbn [step].
  - intros [= <-]. apply (once_inv_ext s); [| |exact Honce]; unfold post;
      by destruct (length (m_TaskQueue s) =? BLOGGER_TASK_LIMIT)%nat.
  - intros [= <-]. by apply (once_inv_ext s).
  - intros [= <-]. by apply (once_inv_ext s).
  - intros [= <-]. unfold remove_helper.
    destruct (m_Files s !! id); [by apply (once_inv_ext s) | exact Honce].
  - intros [= <-]. by apply (once_inv_ext s).
  - destruct (m_Pool s !! w) as [[| | |]|] eqn:Hw; try discriminate.
    pose proof (lookup_lt_Some _ _ _ Hw) as Hlt.
    unfold do_work_locked. destruct (m_TaskQueue s) as [|p q] eqn:Hq.
    + intros [= <-]. by apply once_inv_release.
    + intros [= <-]. destruct Hinv as [I1 I2 I3 I4 I5 I6 I7]. destruct Honce as [O1 O2 O3].
      assert (∀ x, x ∈ popped s → (addr x < addr p)%nat) as Hbefore.
      { intros x Hx. rewrite Hq, fmap_app in I2.
        eapply (StronglySorted_app_1_elem_of lt); [exact I2| |].
        - apply list_elem_of_fmap. eauto.
        - rewrite fmap_cons. apply elem_of_cons. by left. }
      split; cbn [set_pc log_popped pop_front set_TaskQueue m_Pool handled].
      * intros w0 p0 H0. destruct (decide (w = w0)) as [->|Hne].
        -- rewrite list_lookup_insert_eq in H0 by exact Hlt. injection H0 as <-.
           intros Hin. apply list_elem_of_fmap in Hin as (x & Hax & Hin).
           apply list_elem_of_fmap in Hin as ([w1 x1] & -> & Hin).
           destruct (I4 w1 x1 Hin) as [_ Hpop]. specialize (Hbefore x1 Hpop).
           cbn in Hax. lia.
        -- rewrite list_lookup_insert_ne in H0 by exact Hne. by apply (O1 w0).
      * intros w0 w1 p0 p1 H0 H1 Heq.
        destruct (decide (w0 = w)) as [->|Hne0]; destruct (decide (w1 = w)) as [->|Hne1];
          [reflexivity| | |].
        -- rewrite list_lookup_insert_eq in H0 by exact Hlt. injection H0 as <-.
           rewrite list_lookup_insert_ne in H1 by congruence.
           destruct (I5 w1 p1 H1) as [Hpop _]. specialize (Hbefore p1 Hpop). lia.
        -- rewrite list_lookup_insert_eq in H1 by exact Hlt. injection H1 as <-.
           rewrite list_lookup_insert_ne in H0 by congruence.
           destruct (I5 w0 p0 H0) as [Hpop _]. specialize (Hbefore p0 Hpop). lia.
        -- rewrite list_lookup_insert_ne in H0 by congruence.
           rewrite list_lookup_insert_ne in H1 by congruence. by apply (O2 w0 w1 p0 p1).
      * exact O3.
  - destruct (m_Pool s !! w) as [[|p| |]|] eqn:Hw; try discriminate.
    destruct (do_work_task p s) as [s1|] eqn:Hrun; [|discriminate].
    destruct (do_work_task_frame p s s1 Hrun) as (E1 & _ & _ & _ & E5 & _).
    pose proof (lookup_lt_Some _ _ _ Hw) as Hlt.
    intros [= <-]. destruct Honce as [O1 O2 O3].
    split; cbn [set_pc log_handled m_Pool handled]; rewrite ?E1, ?E5.
    + intros w0 p0 H0. destruct (decide (w = w0)) as [->|Hne].
      * rewrite list_lookup_insert_eq in H0 by exact Hlt. discriminate.
      * rewrite list_lookup_insert_ne in H0 by exact Hne.
        rewrite !fmap_app. cbn [fmap list_fmap snd]. intros Hin.
        apply elem_of_app in Hin as [Hin|Hin]; [by apply (O1 w0 p0 H0)|].
        apply list_elem_of_singleton in Hin. by apply Hne, eq_sym, (O2 w0 w p0 p).
    + intros w0 w1 p0 p1 H0 H1 Heq.
      destruct (decide (w0 = w)) as [->|Hne0].
      { rewrite list_lookup_insert_eq in H0 by exact Hlt. discriminate. }
      destruct (decide (w1 = w)) as [->|Hne1].
      { rewrite list_lookup_insert_eq in H1 by exact Hlt. discriminate. }
      rewrite list_lookup_insert_ne in H0 by congruence.
      rewrite list_lookup_insert_ne in H1 by congruence. by apply (O2 w0 w1 p0 p1).
    + rewrite !fmap_app. cbn [fmap list_fmap snd]. apply NoDup_app.
      split; [exact O3|]. split; [|apply NoDup_singleton].
      intros x Hx Hin. apply list_elem_of_singleton in Hin as ->. by apply (O1 w p Hw).
  - destruct (m_Pool s !! w) as [[| |did_work|]|] eqn:Hw; try discriminate.
    intros [= <-]. apply once_inv_release; [|exact Honce].
    intros p. by destruct (m_Running s || did_work).
Qed.

(** A pool whose workers are about to call [do_work] for the first time,
    with nothing dequeued and nothing on the console, satisfies both
    invariants, whatever is queued in order, whatever loggers are
    registered and whatever their writers and files hold. *)
Lemma invariants_at_start n s :
  m_Pool s = replicate n at_do_work →
  m_TaskQueue s = [] → popped s = [] → handled s = [] → cout s = [] →
  pool_inv n s ∧ once_inv s.
Proof.
  intros E1 E2 E3 E4 E5. split.
  - split; unfold handled_by; rewrite ?E1, ?E2, ?E3, ?E4, ?E5; cbn.
    + apply length_replicate.
    + constructor.
    + constructor.
    + intros w p H. by apply elem_of_nil in H.
    + intros w p H. apply lookup_replicate in H as [H _]. discriminate.
    + intros w. constructor.
    + reflexivity.
  - split; rewrite ?E1, ?E4; cbn.
    + intros w p H. apply lookup_replicate in H as [? _]. discriminate.
    + intros w w' p p' H. apply lookup_replicate in H as [? _]. discriminate.
    + constructor.
Qed.

(** No task is processed twice, and none is processed that was not
    dequeued. Start from any state that satisfies the invariants of the
    pool, whatever loggers are registered and whatever their writers and
    files hold: in every state a schedule leads to, the completed tasks
    are pairwise distinct, each of them was dequeued, the dequeued tasks
    are pairwise distinct, and none of them is still in the queue. *)
Theorem each_task_at_most_once (n : nat) (s0 : thread_pool) (sched : list action)
    (s : thread_pool) :
  pool_inv n s0 →
  once_inv s0 →
  run sched s0 = Some s →
  NoDup (addr <$> (snd <$> handled s)) ∧
  (∀ w p, (w, p) ∈ handled s → p ∈ popped s) ∧
  NoDup (addr <$> popped s) ∧
  (∀ p, p ∈ popped s → addr p ∉ addr <$> m_TaskQueue s).
Proof.
  intros Hpool Honce Hrun.
  assert (∀ l s1 s2, run l s1 = Some s2 → pool_inv n s1 → once_inv s1 →
            pool_inv n s2 ∧ once_inv s2) as Hall.
  { induction l as [|a l IH]; intros s1 s2 Hr Hp Ho; cbn [run] in Hr.
    - by injection Hr as <-.
    - destruct (step a s1) as [s3|] eqn:Hstep; [|discriminate].
      apply (IH s3 s2 Hr); [by apply (pool_inv_step n a s1) | by apply (once_inv_step n a s1)]. }
  destruct (Hall sched s0 s Hrun Hpool Honce) as [[I1 I2 I3 I4 I5 I6 I7] [O1 O2 O3]].
  rewrite fmap_app in I2.
  split; [exact O3|]. split; [intros w p H; by apply (I4 w p)|].
  split; [apply sorted_lt_NoDup; by apply (StronglySorted_app_1_l lt) in I2|].
  intros p Hp Hin.
  assert (addr p < addr p)%nat; [|lia].
  eapply (StronglySorted_app_1_elem_of lt); [exact I2| |exact Hin].
  apply list_elem_of_fmap. eauto.
Qed.

Lemma each_task_at_most_once_witness :
  file_bytes "logs/app-1.log"
    (disk (reach [a_post to_both; a_flush; a_poll 0; a_poll 1; a_handle 1; a_handle 0]
             pool_with_logger)) = record_of 3 ∧
  NoDup (addr <$> (snd <$> handled
    (reach [a_post to_both; a_flush; a_poll 0; a_poll 1; a_handle 1; a_handle 0]
       pool_with_logger))).
Proof.
  split; [vm_compute; reflexivity|].
  refine (proj1 (each_task_at_most_once 2 pool_with_logger
            [a_post to_both; a_flush; a_poll 0; a_poll 1; a_handle 1; a_handle 0] _
            (proj1 (invariants_at_start 2 pool_with_logger eq_refl eq_refl eq_refl eq_refl
                      eq_refl))
            (proj2 (invariants_at_start 2 pool_with_logger eq_refl eq_refl eq_refl eq_refl
                      eq_refl))
            _)).
  vm_compute. reflexivity.
Defined.


(** *** From the queue to the file *)

(** A record flagged for the file, from a registered logger whose writer
    is open and has room for it, ends in that writer's file, whole and at
    the end; its console output is emitted as well, and no other writer
    and no other file changes. *)
Theorem record_reaches_its_file (p : task_ptr) (msg : LogMsg) (s : thread_pool)
    (fh : nat) (st : FileManager) (path : string) :
  let size := Z.of_nat (length (data msg)) + 1 in
  obj p = log_task msg →
  file msg = true →
  m_Files s !! sender msg = Some fh →
  helpers s !! fh = Some st →
  m_File st = Some path →
  Z.of_nat (length (data msg)) < SIZE_MAX →
  m_BytesPerFile st = 0 ∨
    (size ≤ m_BytesPerFile st ∧ wrap (m_CurrentBytes st + size) ≤ m_BytesPerFile st) →
  ∃ s',
    do_work_task p s = Returned s' ∧
    file_bytes path (disk s') = file_bytes path (disk s) ++ data msg ∧
    cout s' = cout s ++ console_events msg ∧
    (m_CurrentBytes <$> helpers s' !! fh) = Some (wrap (m_CurrentBytes st + size)) ∧
    (∀ fh', fh' ≠ fh → helpers s' !! fh' = helpers s !! fh') ∧
    (∀ q, q ≠ path → file_bytes q (disk s') = file_bytes q (disk s)).
Proof.
  intros size Hobj Hfile Hreg Hheap Hopen Hlen Hroom.
  unfold do_work_task. rewrite Hobj. unfold finalize_format. rewrite Hfile.
  cbn [put_cout m_Files helpers disk]. rewrite Hreg, Hheap.
  rewrite (write_same_file st (disk s) path (data msg) Hopen Hlen Hroom).
  eexists. split; [reflexivity|].
  cbn [set_helper put_cout disk cout helpers].
  split; [unfold file_bytes at 1; cbn [fs_data]; by rewrite lookup_insert_eq|].
  split; [reflexivity|].
  split; [by rewrite lookup_insert_eq|].
  split; [intros fh' Hne; by rewrite lookup_insert_ne|].
  intros q Hne. unfold file_bytes. cbn [fs_data]. by rewrite lookup_insert_ne.
Qed.

Lemma record_reaches_its_file_witness :
  ∃ s', do_work_task (nth_task 0 to_both) pool_with_logger = Returned s' ∧
    file_bytes "logs/app-1.log" (disk s') = record_of 3.
Proof.
  destruct (record_reaches_its_file (nth_task 0 to_both) to_both pool_with_logger 0
              (fst two_file_writer) "logs/app-1.log"
              eq_refl eq_refl eq_refl eq_refl eq_refl eq_refl)
    as (s' & Hrun & Hb & _).
  - right. split; vm_compute; discriminate.
  - exists s'. split; [exact Hrun|]. rewrite Hb. reflexivity.
Defined.

(** A record flagged for the file whose logger's writer has no open
    stream (never initialised, or terminated) is processed without a
    fault: the console part is done, no file and no writer changes. *)
Theorem closed_writer_skips_file (p : task_ptr) (msg : LogMsg) (s : thread_pool)
    (fh : nat) (st : FileManager) :
  obj p = log_task msg →
  m_Files s !! sender msg = Some fh →
  helpers s !! fh = Some st →
  m_File st = None →
  ∃ s',
    do_work_task p s = Returned s' ∧
    cout s' = cout s ++ console_events msg ∧
    disk s' = disk s ∧
    helpers s' = helpers s.
Proof.
  intros Hobj Hreg Hheap Hclosed.
  unfold do_work_task. rewrite Hobj. unfold finalize_format.
  destruct (file msg).
  - cbn [put_cout m_Files helpers disk]. rewrite Hreg, Hheap.
    unfold FileManager.write.
    assert (ready st = false) as -> by (by apply ready_false). cbn [negb].
    eexists. split; [reflexivity|].
    cbn [set_helper put_cout disk cout helpers].
    do 2 (split; [reflexivity|]). by apply insert_id.
  - eexists. split; [reflexivity|]. done.
Qed.

Lemma closed_writer_skips_file_witness :
  ∃ s', do_work_task (nth_task 0 to_both) pool_with_closed_logger = Returned s' ∧
    disk s' = empty_disk ∧
    cout s' = [set_output_color BLOGGER_WARN_COLOR; cout_write (record_of 3);
               set_output_color BLOGGER_RESET].
Proof.
  destruct (closed_writer_skips_file (nth_task 0 to_both) to_both pool_with_closed_logger 0
              FileManager_new eq_refl eq_refl eq_refl eq_refl)
    as (s' & Hrun & Hc & Hd & _).
  exists s'. split; [exact Hrun|]. split; [rewrite Hd|rewrite Hc]; reflexivity.
Defined.

(** *** The end of a shutdown *)

Lemma sum_list_insert (l : list nat) (i x y : nat) :
  l !! i = Some x → (sum_list (<[i := y]> l) + x = sum_list l + y)%nat.
Proof.
  revert i. induction l as [|z l IH]; intros [|i] Hi; try discriminate.
  - injection Hi as ->. cbn. lia.
  - cbn in Hi. cbn [sum_list]. change (<[S i := y]> (z :: l)) with (z :: <[i := y]> l).
    cbn [sum_list]. specialize (IH i Hi). lia.
Qed.

Lemma cost_set_pc w pc pc' s :
  m_Pool s !! w = Some pc →
  (sum_list (cost <$> m_Pool (set_pc w pc' s)) + cost pc
   = sum_list (cost <$> m_Pool s) + cost pc')%nat.
Proof.
  intros Hw. cbn [set_pc m_Pool]. rewrite list_fmap_insert.
  apply sum_list_insert. by rewrite list_lookup_fmap, Hw.
Qed.

(** With the running flag cleared, each step of a worker uses up one
    unit of the work that is left. *)
Lemma worker_step_work a s s' :
  m_Running s = false →
  is_worker_step a = true →
  step a s = Some s' →
  m_Running s' = false ∧ S (work_left s') = work_left s.
Proof.
  intros Hoff Ha Hstep.
  split.
  { rewrite (step_running a s s' Hstep), Hoff. by destruct (is_stop a). }
  destruct a as [msg| |id fh|id| |w|w|w]; try discriminate Ha; cbn [step] in Hstep.
  - destruct (m_Pool s !! w) as [[| | |]|] eqn:Hw; try discriminate.
    unfold do_work_locked in Hstep. unfold work_left.
    destruct (m_TaskQueue s) as [|p q] eqn:Hq; injection Hstep as <-.
    + pose proof (cost_set_pc w at_do_work (at_loop_test false) s Hw) as Hc.
      cbn [set_pc m_TaskQueue]. rewrite Hq. cbn [cost length] in *. lia.
    + pose proof (cost_set_pc w at_do_work (holding p) (log_popped p (pop_front s)) Hw) as Hc.
      cbn [set_pc log_popped pop_front set_TaskQueue m_TaskQueue m_Pool] in *.
      rewrite Hq. cbn [tail cost length] in *. lia.
  - destruct (m_Pool s !! w) as [[|p| |]|] eqn:Hw; try discriminate.
    destruct (do_work_task p s) as [s1|] eqn:Hrun; [|discriminate].
    destruct (do_work_task_frame p s s1 Hrun) as (E1 & E2 & _).
    injection Hstep as <-. unfold work_left.
    assert (m_Pool (log_handled w p s1) !! w = Some (holding p)) as Hw1
      by (cbn [log_handled m_Pool]; by rewrite E1).
    pose proof (cost_set_pc w (holding p) (at_loop_test true) (log_handled w p s1) Hw1) as Hc.
    cbn [set_pc log_handled m_TaskQueue m_Pool] in *. rewrite E1 in *. rewrite E2.
    cbn [cost] in *. lia.
  - destruct (m_Pool s !! w) as [[| |d|]|] eqn:Hw; try discriminate.
    injection Hstep as <-. unfold work_left. rewrite Hoff. cbn [orb].
    pose proof (cost_set_pc w (at_loop_test d) (if d then at_do_work else returned) s Hw)
      as Hc.
    cbn [set_pc m_TaskQueue]. destruct d; cbn [cost] in *; lia.
Qed.

(** Once the running flag is cleared and the producers are quiet, the
    workers cannot go on for ever: every step of a worker lowers the work
    that is left by one, so a run of worker steps is at most
    3 * (queued tasks) + (what each worker has left to do) long. *)
Theorem shutdown_work_is_bounded (sched : list action) :
  ∀ s s',
    m_Running s = false →
    Forall (λ a, is_worker_step a = true) sched →
    run sched s = Some s' →
    (length sched + work_left s' = work_left s)%nat ∧
    (length sched ≤ 3 * length (m_TaskQueue s) + 4 * length (m_Pool s))%nat.
Proof.
  assert (∀ l : list worker_pc, (sum_list (cost <$> l) ≤ 4 * length l)%nat) as Hcost.
  { induction l as [|pc l IH]; [cbn; lia|].
    rewrite fmap_cons. cbn [sum_list length].
    assert (cost pc ≤ 4)%nat by (destruct pc as [| |[|]|]; cbn; lia).
    change (id (cost pc)) with (cost pc). lia. }
  assert (∀ sched s s', m_Running s = false →
            Forall (λ a, is_worker_step a = true) sched →
            run sched s = Some s' →
            (length sched + work_left s' = work_left s)%nat) as Hexact.
  { induction sched0 as [|a sched0 IH]; intros s s' Hoff Hws Hrun; cbn [run] in Hrun.
    - by injection Hrun as <-.
    - apply Forall_cons in Hws as [Ha Hws].
      destruct (step a s) as [s1|] eqn:Hstep; [|discriminate].
      destruct (worker_step_work a s s1 Hoff Ha Hstep) as [Hoff1 Hwork].
      specialize (IH s1 s' Hoff1 Hws Hrun). cbn [length]. lia. }
  intros s s' Hoff Hws Hrun.
  pose proof (Hexact sched s s' Hoff Hws Hrun) as He.
  split; [exact He|]. unfold work_left in He. specialize (Hcost (m_Pool s)). lia.
Qed.

Lemma shutdown_work_is_bounded_witness :
  (8 + work_left (reach [a_poll 0; a_handle 0; a_test 0; a_poll 0; a_handle 0; a_test 0;
                         a_poll 0; a_test 0] stopping_pool)
   = work_left stopping_pool)%nat.
Proof.
  refine (proj1 (shutdown_work_is_bounded
            [a_poll 0; a_handle 0; a_test 0; a_poll 0; a_handle 0; a_test 0;
             a_poll 0; a_test 0] stopping_pool _ eq_refl ltac:(repeat constructor) _)).
  vm_compute. reflexivity.
Defined.


Lemma accounted_release w pc pc' s :
  m_Pool s !! w = Some pc →
  (∀ p, pc ≠ holding p) →
  accounted s →
  accounted (set_pc w pc' s).
Proof.
  intros Hw Hpc Hacc p Hp. cbn [set_pc popped handled m_Pool] in *.
  destruct (Hacc p Hp) as [Hdone|[w0 Hheld]]; [by left|]. right. exists w0.
  destruct (decide (w = w0)) as [->|Hne].
  - rewrite Hw in Hheld. injection Hheld as ->. by destruct (Hpc p).
  - by rewrite list_lookup_insert_ne.
Qed.

Lemma accounted_step a s s' : step a s = Some s' → accounted s → accounted s'.
Proof.
  intros Hstep Hacc. destruct a as [msg| |id fh|id| |w|w|w]; cbn [step] in Hstep.
  - injection Hstep as <-. unfold post.
    by destruct (length (m_TaskQueue s) =? BLOGGER_TASK_LIMIT)%nat.
  - by injection Hstep as <-.
  - by injection Hstep as <-.
  - injection Hstep as <-. unfold remove_helper. by destruct (m_Files s !! id).
  - by injection Hstep as <-.
  - destruct (m_Pool s !! w) as [[| | |]|] eqn:Hw; try discriminate.
    pose proof (lookup_lt_Some _ _ _ Hw) as Hlt.
    unfold do_work_locked in Hstep. destruct (m_TaskQueue s) as [|p1 q]; injection Hstep as <-.
    + by apply (accounted_release w at_do_work).
    + intros p Hp. cbn [set_pc log_popped pop_front set_TaskQueue popped handled m_Pool] in *.
      apply elem_of_app in Hp as [Hp|Hp].
      * destruct (Hacc p Hp) as [Hdone|[w0 Hheld]]; [by left|]. right. exists w0.
        destruct (decide (w = w0)) as [->|Hne]; [congruence|].
        by rewrite list_lookup_insert_ne.
      * apply list_elem_of_singleton in Hp as ->. right. exists w.
        by apply list_lookup_insert_eq.
  - destruct (m_Pool s !! w) as [[|p1| |]|] eqn:Hw; try discriminate.
    destruct (do_work_task p1 s) as [s1|] eqn:Hrun; [|discriminate].
    destruct (do_work_task_frame p1 s s1 Hrun) as (E1 & _ & _ & E4 & E5 & _).
    injection Hstep as <-. intros p Hp.
    cbn [set_pc log_handled popped handled m_Pool] in *. rewrite E1, E5. rewrite E4 in Hp.
    destruct (Hacc p Hp) as [[w0 Hdone]|[w0 Hheld]].
    + left. exists w0. apply elem_of_app. by left.
    + destruct (decide (w = w0)) as [->|Hne].
      * rewrite Hw in Hheld. injection Hheld as ->. left. exists w0.
        apply elem_of_app. right. by apply list_elem_of_singleton.
      * right. exists w0. by rewrite list_lookup_insert_ne.
  - destruct (m_Pool s !! w) as [[| |d|]|] eqn:Hw; try discriminate.
    injection Hstep as <-. by apply (accounted_release w (at_loop_test d)).
Qed.

(** With the flag cleared and the producers quiet, a step of a worker
    keeps the tasks in their order (dequeued ones first, then the queue)
    and keeps this: if some worker's last poll found the queue empty, the
    queue is empty. *)
Lemma quiet_step a s s' :
  m_Running s = false →
  is_worker_step a = true →
  step a s = Some s' →
  (∀ w pc, m_Pool s !! w = Some pc → seen_empty pc = true → m_TaskQueue s = []) →
  (∀ w pc, m_Pool s' !! w = Some pc → seen_empty pc = true → m_TaskQueue s' = []) ∧
  popped s' ++ m_TaskQueue s' = popped s ++ m_TaskQueue s.
Proof.
  intros Hoff Ha Hstep Hseen.
  destruct a as [msg| |id fh|id| |w|w|w]; try discriminate Ha; cbn [step] in Hstep.
  - destruct (m_Pool s !! w) as [[| | |]|] eqn:Hw; try discriminate.
    pose proof (lookup_lt_Some _ _ _ Hw) as Hlt.
    unfold do_work_locked in Hstep.
    destruct (m_TaskQueue s) as [|p1 q] eqn:Hq; injection Hstep as <-;
      cbn [set_pc log_popped pop_front set_TaskQueue popped m_TaskQueue m_Pool];
      rewrite ?Hq; cbn [tail].
    + split; [done|reflexivity].
    + split; [|by rewrite <- app_assoc].
      intros w0 pc0 Hw0 Hs0. destruct (decide (w = w0)) as [->|Hne].
      * rewrite list_lookup_insert_eq in Hw0 by exact Hlt. injection Hw0 as <-. discriminate.
      * rewrite list_lookup_insert_ne in Hw0 by exact Hne.
        specialize (Hseen w0 pc0 Hw0 Hs0). discriminate.
  - destruct (m_Pool s !! w) as [[|p1| |]|] eqn:Hw; try discriminate.
    pose proof (lookup_lt_Some _ _ _ Hw) as Hlt.
    destruct (do_work_task p1 s) as [s1|] eqn:Hrun; [|discriminate].
    destruct (do_work_task_frame p1 s s1 Hrun) as (E1 & E2 & _ & E4 & _).
    injection Hstep as <-.
    cbn [set_pc log_handled popped m_TaskQueue m_Pool]. rewrite E1, E2, E4.
    split; [|reflexivity].
    intros w0 pc0 Hw0 Hs0. destruct (decide (w = w0)) as [->|Hne].
    + rewrite list_lookup_insert_eq in Hw0 by exact Hlt. injection Hw0 as <-. discriminate.
    + rewrite list_lookup_insert_ne in Hw0 by exact Hne. by apply (Hseen w0 pc0).
  - destruct (m_Pool s !! w) as [[| |d|]|] eqn:Hw; try discriminate.
    pose proof (lookup_lt_Some _ _ _ Hw) as Hlt.
    injection Hstep as <-. cbn [set_pc popped m_TaskQueue m_Pool].
    split; [|reflexivity].
    intros w0 pc0 Hw0 Hs0. destruct (decide (w = w0)) as [->|Hne].
    + rewrite list_lookup_insert_eq in Hw0 by exact Hlt. injection Hw0 as <-.
      rewrite Hoff in Hs0. destruct d; [discriminate|].
      by apply (Hseen w0 (at_loop_test false)).
    + rewrite list_lookup_insert_ne in Hw0 by exact Hne. by apply (Hseen w0 pc0).
Qed.

Lemma step_workers a s s' : step a s = Some s' → length (m_Pool s') = length (m_Pool s).
Proof.
  destruct a as [msg| |id fh|id| |w|w|w]; cbn [step]; intros Hstep.
  - injection Hstep as <-. unfold post.
    by destruct (length (m_TaskQueue s) =? BLOGGER_TASK_LIMIT)%nat.
  - by injection Hstep as <-.
  - by injection Hstep as <-.
  - injection Hstep as <-. unfold remove_helper. by destruct (m_Files s !! id).
  - by injection Hstep as <-.
  - destruct (m_Pool s !! w) as [[| | |]|]; try discriminate.
    unfold do_work_locked in Hstep.
    destruct (m_TaskQueue s); injection Hstep as <-; cbn; by rewrite length_insert.
  - destruct (m_Pool s !! w) as [[|p| |]|]; try discriminate.
    destruct (do_work_task p s) as [s1|] eqn:Hwork; [|discriminate].
    injection Hstep as <-.
    destruct (do_work_task_frame p s s1 Hwork) as (E1 & _).
    cbn. by rewrite length_insert, E1.
  - destruct (m_Pool s !! w) as [[| |d|]|]; try discriminate.
    injection Hstep as <-. cbn. by rewrite length_insert.
Qed.

(** Take any state of a pool with at least one worker in which every
    dequeued task is in a worker's hands or completed, whatever loggers
    are registered and whatever their writers and files hold. When
    [shutdown] has cleared the flag at a moment where no worker stands
    between a poll that found the queue empty and the test of its loop
    (unless the queue is empty), and no producer acts afterwards, then
    once all workers have returned the queue is empty, the tasks that
    were queued have been dequeued in their order, and every dequeued
    task has been processed. *)
Theorem quiet_shutdown_drains (sched : list action) (s s' : thread_pool) :
  accounted s →
  (0 < length (m_Pool s))%nat →
  m_Running s = false →
  (∀ w pc, m_Pool s !! w = Some pc → seen_empty pc = true → m_TaskQueue s = []) →
  Forall (λ a, is_worker_step a = true) sched →
  run sched s = Some s' →
  all_joined s' = true →
  m_TaskQueue s' = [] ∧
  popped s' = popped s ++ m_TaskQueue s ∧
  ∀ p, p ∈ popped s' → ∃ w, (w, p) ∈ handled s'.
Proof.
  intros Hstart Hn Hoff Hseen Hws Hrun Hjoined.
  assert (∀ l s0 s1, run l s0 = Some s1 → accounted s0 → accounted s1) as Hacc.
  { induction l as [|a l IH]; intros s0 s1 Hr H0; cbn [run] in Hr.
    - by injection Hr as <-.
    - destruct (step a s0) as [s2|] eqn:Hstep; [|discriminate].
      apply (IH s2 s1 Hr). by apply (accounted_step a s0). }
  pose proof (Hacc sched s s' Hrun Hstart) as Hacc'.
  assert (∀ l s0 s1, run l s0 = Some s1 → length (m_Pool s1) = length (m_Pool s0)) as Hsize.
  { induction l as [|a l IH]; intros s0 s1 Hr; cbn [run] in Hr.
    - by injection Hr as <-.
    - destruct (step a s0) as [s2|] eqn:Hstep; [|discriminate].
      rewrite (IH s2 s1 Hr). by apply (step_workers a). }
  assert (∀ l s0 s1, run l s0 = Some s1 → m_Running s0 = false →
            Forall (λ a, is_worker_step a = true) l →
            (∀ w pc, m_Pool s0 !! w = Some pc → seen_empty pc = true → m_TaskQueue s0 = []) →
            (∀ w pc, m_Pool s1 !! w = Some pc → seen_empty pc = true → m_TaskQueue s1 = []) ∧
            popped s1 ++ m_TaskQueue s1 = popped s0 ++ m_TaskQueue s0) as Hquiet.
  { induction l as [|a l IH]; intros s0 s1 Hr H0 Hl Hs; cbn [run] in Hr.
    - by injection Hr as <-.
    - apply Forall_cons in Hl as [Ha Hl].
      destruct (step a s0) as [s2|] eqn:Hstep; [|discriminate].
      destruct (quiet_step a s0 s2 H0 Ha Hstep Hs) as [Hs2 Hq2].
      destruct (worker_step_work a s0 s2 H0 Ha Hstep) as [H2 _].
      destruct (IH s2 s1 Hr H2 Hl Hs2) as [Hs1 Hq1]. split; [exact Hs1|congruence]. }
  destruct (Hquiet sched s s' Hrun Hoff Hws Hseen) as [Hseen' Horder].
  assert (∀ w pc, m_Pool s' !! w = Some pc → pc = returned) as Hall.
  { intros w pc Hw. unfold all_joined in Hjoined. rewrite forallb_forall in Hjoined.
    assert (has_returned pc = true) as Hpc
      by (apply Hjoined, list_elem_of_In, list_elem_of_lookup; eauto).
    by destruct pc. }
  assert (m_TaskQueue s' = []) as Hempty.
  { destruct (lookup_lt_is_Some_2 (m_Pool s') 0%nat) as [pc Hpc].
    { rewrite (Hsize sched s s' Hrun). exact Hn. }
    apply (Hseen' 0%nat pc Hpc). by rewrite (Hall _ _ Hpc). }
  split; [exact Hempty|]. split; [by rewrite Hempty, app_nil_r in Horder|].
  intros p Hp. destruct (Hacc' p Hp) as [Hdone|[w Hheld]]; [exact Hdone|].
  by specialize (Hall w _ Hheld).
Qed.

Lemma quiet_shutdown_drains_witness :
  file_bytes "logs/app-1.log"
    (disk (reach [a_poll 0; a_handle 0; a_test 0; a_poll 0; a_handle 0; a_test 0;
                  a_poll 0; a_test 0; a_poll 1; a_test 1]
             (reach [a_post to_both; a_flush; a_stop] pool_with_logger))) = record_of 3 ∧
  m_TaskQueue (reach [a_poll 0; a_handle 0; a_test 0; a_poll 0; a_handle 0; a_test 0;
                      a_poll 0; a_test 0; a_poll 1; a_test 1]
                 (reach [a_post to_both; a_flush; a_stop] pool_with_logger)) = [].
Proof.
  split; [vm_compute; reflexivity|].
  refine (proj1 (quiet_shutdown_drains
            [a_poll 0; a_handle 0; a_test 0; a_poll 0; a_handle 0; a_test 0;
             a_poll 0; a_test 0; a_poll 1; a_test 1]
            (reach [a_post to_both; a_flush; a_stop] pool_with_logger) _
            _ ltac:(vm_compute; lia) _ _ ltac:(repeat constructor) _ _)).
  - intros p Hp. vm_compute in Hp. by apply elem_of_nil in Hp.
  - vm_compute. reflexivity.
  - intros [|[|w]] pc Hw Hs; vm_compute in Hw; try discriminate Hw;
      injection Hw as <-; discriminate Hs.
  - vm_compute. reflexivity.
  - vm_compute. reflexivity.
Defined.


(** *** What the console sees *)

Lemma colour_after_app (c : color_code) (l1 l2 : list cout_event) :
  colour_after c (l1 ++ l2) = colour_after (colour_after c l1) l2.
Proof. apply foldl_app. Qed.

(** The console block of a task, entered with the console uncoloured,
    leaves it uncoloured. *)
Lemma task_events_colour (p : task_ptr) :
  colour_after BLOGGER_RESET (task_events p) = BLOGGER_RESET.
Proof.
  unfold task_events. destruct (obj p) as [msg|]; [|reflexivity].
  unfold finalize_format, console_events.
  destruct (console msg); [|reflexivity].
  by destruct (color msg).
Qed.

Lemma step_cout a s s' :
  step a s = Some s' → cout s' = cout s ∨ ∃ p, cout s' = cout s ++ task_events p.
Proof.
  destruct a as [msg| |id fh|id| |w|w|w]; cbn [step]; intros Hstep.
  - left. injection Hstep as <-. unfold post.
    by destruct (length (m_TaskQueue s) =? BLOGGER_TASK_LIMIT)%nat.
  - left. by injection Hstep as <-.
  - left. by injection Hstep as <-.
  - left. injection Hstep as <-. unfold remove_helper. by destruct (m_Files s !! id).
  - left. by injection Hstep as <-.
  - left. destruct (m_Pool s !! w) as [[| | |]|]; try discriminate.
    unfold do_work_locked in Hstep. by destruct (m_TaskQueue s); injection Hstep as <-.
  - right. destruct (m_Pool s !! w) as [[|p| |]|]; try discriminate.
    destruct (do_work_task p s) as [s1|] eqn:Hwork; [|discriminate].
    injection Hstep as <-. exists p.
    by destruct (do_work_task_frame p s s1 Hwork) as (_ & _ & _ & _ & _ & _ & E).
  - left. destruct (m_Pool s !! w) as [[| |d|]|]; try discriminate.
    by injection Hstep as <-.
Qed.

(** No task leaves the console coloured. Start from any state of the
    pool whose console is uncoloured, whatever loggers are registered and
    whatever their writers and files hold: in every state a schedule
    leads to, the console is uncoloured again, that is, the last colour
    code sent to it, if any, is the reset code. *)
Theorem console_colour_is_reset (s0 : thread_pool) (sched : list action) (s : thread_pool) :
  current_colour (cout s0) = BLOGGER_RESET →
  run sched s0 = Some s →
  current_colour (cout s) = BLOGGER_RESET.
Proof.
  revert s0. induction sched as [|a sched IH]; intros s0 Hstart Hrun; cbn [run] in Hrun.
  - by injection Hrun as <-.
  - destruct (step a s0) as [s1|] eqn:Hstep; [|discriminate].
    apply (IH s1); [|exact Hrun].
    destruct (step_cout a s0 s1 Hstep) as [->|[p ->]]; [exact Hstart|].
    unfold current_colour in *. rewrite colour_after_app, Hstart.
    apply task_events_colour.
Qed.

Lemma console_colour_is_reset_witness :
  cout (reach [a_post to_both; a_poll 0; a_handle 0] pool_with_logger)
    = [set_output_color BLOGGER_WARN_COLOR; cout_write (data to_both);
       set_output_color BLOGGER_RESET] ∧
  current_colour (cout (reach [a_post to_both; a_poll 0; a_handle 0] pool_with_logger))
    = BLOGGER_RESET.
Proof.
  split; [vm_compute; reflexivity|].
  refine (console_colour_is_reset pool_with_logger [a_post to_both; a_poll 0; a_handle 0]
            (reach [a_post to_both; a_poll 0; a_handle 0] pool_with_logger) _ _);
    vm_compute; reflexivity.
Defined.

(** *** Posted, then emitted *)

Lemma posts_below_limit (ms : list LogMsg) (n : nat) (fs : filesystem) :
  (length ms ≤ BLOGGER_TASK_LIMIT)%nat →
  ∃ s,
    run (a_post <$> ms) (thread_pool_new n fs) = Some s ∧
    m_TaskQueue s = imap nth_task ms ∧
    allocated s = length ms ∧
    cout s = [] ∧ popped s = [].
Proof.
  induction ms as [|m ms IH] using rev_ind; intros Hlen.
  - eexists. split; [reflexivity|]. done.
  - rewrite length_app in Hlen. cbn [length] in Hlen.
    destruct IH as (s & Hrun & Hq & Ha & Hc & Hp); [lia|].
    exists (post m s). rewrite fmap_app, run_app, Hrun.
    cbn [mbind option_bind fmap list_fmap run step].
    split; [reflexivity|].
    assert ((length (m_TaskQueue s) =? BLOGGER_TASK_LIMIT)%nat = false) as Hroom.
    { apply Nat.eqb_neq. rewrite Hq, length_imap. lia. }
    unfold post. rewrite Hroom.
    cbn [emplace_back m_TaskQueue allocated cout popped].
    rewrite imap_app, Hq, Ha, length_app. cbn. rewrite Nat.add_0_r.
    repeat split; try done. lia.
Qed.

Lemma console_only_drains (q : list task_ptr) :
  ∀ (fuel : nat) (s : thread_pool),
    m_TaskQueue s = q →
    m_Running s = false →
    Forall console_only q →
    (length q < fuel)%nat →
    ∃ s', worker_loop fuel true s = Some (Returned s') ∧
      m_TaskQueue s' = [] ∧
      cout s' = cout s ++ concat (task_events <$> q) ∧
      disk s' = disk s.
Proof.
  induction q as [|p q IH]; intros fuel s Hq Hoff Hco Hfuel.
  - destruct fuel as [|fuel]; [cbn in Hfuel; lia|]. exists s.
    cbn [worker_loop]. rewrite Hoff. cbn [orb]. unfold do_work, do_work_locked.
    rewrite Hq. destruct fuel; cbn [worker_loop]; rewrite Hoff; cbn [orb];
      rewrite !app_nil_r; done.
  - destruct fuel as [|fuel]; [cbn in Hfuel; lia|].
    apply Forall_cons in Hco as [Hp Hco].
    cbn [worker_loop]. rewrite Hoff. cbn [orb]. unfold do_work, do_work_locked.
    rewrite Hq.
    assert (do_work_task p (log_popped p (pop_front s))
            = Returned (put_cout (task_events p) (log_popped p (pop_front s)))) as Hrun.
    { unfold do_work_task, task_events, console_only in *.
      destruct (obj p) as [msg|]; [|reflexivity].
      unfold finalize_format. by rewrite Hp. }
    rewrite Hrun.
    destruct (IH fuel (put_cout (task_events p) (log_popped p (pop_front s))))
      as (s' & Hloop & F1 & F2 & F3).
    + cbn [put_cout log_popped pop_front set_TaskQueue m_TaskQueue]. by rewrite Hq.
    + exact Hoff.
    + exact Hco.
    + cbn in Hfuel. lia.
    + exists s'. split; [exact Hloop|]. split; [exact F1|].
      rewrite F2, F3. cbn [put_cout log_popped pop_front set_TaskQueue cout disk concat
        fmap list_fmap]. by rewrite <- app_assoc.
Qed.

(** Up to BLOGGER_TASK_LIMIT records posted to a fresh pool and then
    drained by one worker on its own (the running flag cleared) come out
    on the console in exactly the order they were posted, none lost and
    none repeated. The records are not flagged for a file. *)
Theorem posted_records_emitted_in_order (ms : list LogMsg) (n : nat) (fs : filesystem) :
  (length ms ≤ BLOGGER_TASK_LIMIT)%nat →
  Forall (λ m, file m = false) ms →
  ∃ s1 s2,
    run ((a_post <$> ms) ++ [a_stop]) (thread_pool_new n fs) = Some s1 ∧
    worker (length ms) s1 = Some (Returned s2) ∧
    m_TaskQueue s2 = [] ∧
    cout s2 = concat (console_events <$> ms) ∧
    disk s2 = fs.
Proof.
  intros Hlen Hfile.
  destruct (posts_below_limit ms n fs Hlen) as (s & Hrun & Hq & _ & Hc & _).
  assert (disk s = fs) as Hdisk.
  { assert (∀ l s0 s1, run (a_post <$> l) s0 = Some s1 → disk s1 = disk s0) as Hd.
    { induction l as [|m l IH]; intros s0 s1; cbn [fmap list_fmap run step].
      - by intros [= <-].
      - intros Hr. rewrite (IH _ _ Hr). unfold post.
        by destruct (length (m_TaskQueue s0) =? BLOGGER_TASK_LIMIT)%nat. }
    by rewrite (Hd ms _ s Hrun). }
  assert (task_events <$> imap nth_task ms = console_events <$> ms) as Hev.
  { rewrite fmap_imap, <- imap_const. by apply imap_ext. }
  assert (Forall console_only (imap nth_task ms)) as Hco.
  { apply Forall_forall. intros p Hp. apply list_elem_of_lookup in Hp as [i Hi].
    rewrite list_lookup_imap in Hi.
    destruct (ms !! i) as [m|] eqn:Hm; [|discriminate]. injection Hi as <-.
    unfold console_only. cbn. rewrite Forall_forall in Hfile.
    apply Hfile, list_elem_of_lookup. eauto. }
  assert (run ((a_post <$> ms) ++ [a_stop]) (thread_pool_new n fs)
          = Some (set_Running false s)) as Hstop
    by (rewrite run_app, Hrun; reflexivity).
  destruct ms as [|m ms].
  - exists (set_Running false s), (set_Running false s).
    split; [exact Hstop|]. split.
    + unfold worker, do_work, do_work_locked. cbn [set_Running m_TaskQueue]. rewrite Hq.
      reflexivity.
    + cbn [set_Running m_TaskQueue cout disk]. rewrite Hq. done.
  - rewrite imap_cons in *. apply Forall_cons in Hco as [Hp Hco].
    set (p := nth_task 0 m) in *. set (q := imap (nth_task ∘ S) ms) in *.
    set (s0 := log_popped p (pop_front (set_Running false s))).
    assert (do_work_task p s0 = Returned (put_cout (task_events p) s0)) as Htask.
    { unfold do_work_task, task_events. subst p. cbn [nth_task obj].
      unfold finalize_format. apply Forall_cons in Hfile as [-> _]. reflexivity. }
    destruct (console_only_drains q (length (m :: ms)) (put_cout (task_events p) s0))
      as (s2 & Hloop & F1 & F2 & F3).
    + subst s0. cbn [put_cout log_popped pop_front set_TaskQueue set_Running m_TaskQueue].
      by rewrite Hq.
    + reflexivity.
    + exact Hco.
    + subst q. rewrite length_imap. cbn. lia.
    + exists (set_Running false s), s2. split; [exact Hstop|]. split.
      * unfold worker, do_work, do_work_locked. cbn [set_Running m_TaskQueue]. rewrite Hq.
        fold s0. rewrite Htask. exact Hloop.
      * split; [exact F1|]. rewrite F2, F3. subst s0.
        cbn [put_cout log_popped pop_front set_TaskQueue set_Running cout disk].
        rewrite Hc, <- Hev. cbn [fmap list_fmap concat app]. done.
Qed.

Lemma posted_records_emitted_in_order_witness :
  ∃ s1 s2,
    run [a_post hello; a_post hello; a_stop] (thread_pool_new 1 empty_disk) = Some s1 ∧
    worker 2 s1 = Some (Returned s2) ∧
    cout s2 = [cout_write (data hello); cout_write (data hello)].
Proof.
  destruct (posted_records_emitted_in_order [hello; hello] 1 empty_disk
              ltac:(vm_compute; lia) ltac:(repeat constructor))
    as (s1 & s2 & Hrun & Hw & _ & Hc & _).
  exists s1, s2. split; [exact Hrun|]. split; [exact Hw|]. rewrite Hc. reflexivity.
Defined.

End PoolMore.


(** ** The order of console blocks *)

Module OrderSpec.

Import FileManager thread_pool Scenarios Interleaving PoolSpec.

(** The rest of [do_work] is the console block followed by the file write. *)
Lemma do_work_task_parts (p : task_ptr) (b : thread_pool) :
  do_work_task p b = file_part p (console_part p b).
Proof.
  unfold do_work_task, file_part, console_part, task_events.
  destruct (obj p); reflexivity.
Qed.

(** The file write touches the writers and the files only. *)
Lemma file_part_frame p b b1 :
  file_part p b = Returned b1 →
  m_Pool b1 = m_Pool b ∧ m_TaskQueue b1 = m_TaskQueue b ∧ allocated b1 = allocated b ∧
  popped b1 = popped b ∧ handled b1 = handled b ∧ m_Running b1 = m_Running b ∧
  cout b1 = cout b.
Proof.
  unfold file_part. destruct (obj p) as [msg|].
  - destruct (file (finalize_format msg)).
    + destruct (m_Files b !! sender (finalize_format msg)) as [fh|].
      * destruct (helpers b !! fh) as [st|]; [|discriminate].
        destruct (FileManager.write _ _) as [[st' fs']|]; [|discriminate].
        intros [= <-]. done.
      * intros [= <-]. done.
    + intros [= <-]. done.
  - intros [= <-]. done.
Qed.

Lemma file_part_set_cout c p b b1 :
  file_part p b = Returned b1 → file_part p (set_cout c b) = Returned (set_cout c b1).
Proof.
  unfold file_part. destruct (obj p) as [msg|].
  - destruct (file (finalize_format msg)).
    + cbn [set_cout m_Files helpers disk].
      destruct (m_Files b !! sender (finalize_format msg)) as [fh|].
      * destruct (helpers b !! fh) as [st|]; [|discriminate].
        destruct (FileManager.write _ _) as [[st' fs']|]; [|discriminate].
        intros [= <-]. reflexivity.
      * intros [= <-]. reflexivity.
    + intros [= <-]. reflexivity.
  - intros [= <-]. reflexivity.
Qed.

(** A step other than the processing of a task leaves the console and
    the log of completed tasks alone, and does not read the console. *)
Lemma step_set_cout c a b b' :
  is_handle a = false →
  step a b = Some b' →
  step a (set_cout c b) = Some (set_cout c b') ∧ handled b' = handled b ∧ cout b' = cout b.
Proof.
  intros Ha. destruct a as [msg| |id fh|id| |w|w|w]; try discriminate Ha; cbn [step].
  - intros [= <-]. unfold post. cbn [set_cout m_TaskQueue].
    by destruct (length (m_TaskQueue b) =? BLOGGER_TASK_LIMIT)%nat.
  - by intros [= <-].
  - by intros [= <-].
  - intros [= <-]. unfold remove_helper. cbn [set_cout m_Files].
    by destruct (m_Files b !! id).
  - by intros [= <-].
  - cbn [set_cout m_Pool].
    destruct (m_Pool b !! w) as [[| | |]|]; try discriminate.
    unfold do_work_locked. cbn [set_cout m_TaskQueue].
    destruct (m_TaskQueue b) as [|p q] eqn:Hq; intros [= <-]; [done|].
    unfold pop_front. cbn [set_cout m_TaskQueue]. rewrite Hq. done.
  - cbn [set_cout m_Pool m_Running].
    destruct (m_Pool b !! w) as [[| |d|]|]; try discriminate.
    by intros [= <-].
Qed.

Lemma settled_ext n b b' :
  m_Pool b' = m_Pool b → m_TaskQueue b' = m_TaskQueue b → allocated b' = allocated b →
  popped b' = popped b → handled b' = handled b →
  pool_inv n (settled b) → pool_inv n (settled b').
Proof.
  intros E1 E2 E3 E4 E5. apply pool_inv_ext; cbn; try assumption. by rewrite E5.
Qed.

(** The invariant of the pool, read with the console of the completed
    tasks, is kept by every move. *)
Lemma settled_advance n m s s' :
  pool_inv n (settled (pool s)) → advance m s = Some s' → pool_inv n (settled (pool s')).
Proof.
  intros Hinv. destruct m as [a|w|w|id|fh c]; cbn [advance].
  - destruct (is_handle a) eqn:Ha; [discriminate|].
    destruct (step a (pool s)) as [b|] eqn:Hstep; [|discriminate].
    intros [= <-]. cbn [with_pool pool].
    destruct (step_set_cout (concat (task_events ∘ snd <$> handled (pool s))) a _ _ Ha Hstep)
      as (Hs & Hh & _).
    unfold settled. rewrite Hh. by apply (pool_inv_step n a (settled (pool s))).
  - destruct (m_Pool (pool s) !! w) as [[|p| |]|]; try discriminate.
    destruct (decide (w ∈ past_console s)); [discriminate|].
    intros [= <-]. exact Hinv.
  - destruct (m_Pool (pool s) !! w) as [[|p| |]|] eqn:Hw; try discriminate.
    destruct (decide (w ∈ past_console s)); [|discriminate].
    destruct (file_part p (pool s)) as [b|] eqn:Hfile; [|discriminate].
    intros [= <-]. cbn [pool].
    destruct (file_part_frame p _ _ Hfile) as (E1 & E2 & E3 & E4 & E5 & _ & _).
    pose proof (file_part_set_cout
                  (concat (task_events ∘ snd <$> handled (pool s)) ++ task_events p)
                  p _ _ Hfile) as Hfile'.
    change (set_cout _ (pool s)) with (console_part p (settled (pool s))) in Hfile'.
    rewrite <- do_work_task_parts in Hfile'.
    pose proof (handle_inv n w p (settled (pool s)) _ Hw Hfile' Hinv) as Hnext.
    revert Hnext. apply pool_inv_ext; cbn; try reflexivity.
    rewrite E5, fmap_app, concat_app. cbn. by rewrite app_nil_r.
  - intros [= <-]. revert Hinv. by apply settled_ext.
  - unfold call_writer. destruct (helpers (pool s) !! fh) as [st|]; [|discriminate].
    destruct (well_typed c); [|discriminate].
    destruct (match c with
              | InitFileLogger d t bytes files r => _
              | TerminateFileLogger => _
              | SetTag t => _
              end) as [st' fs'].
    intros [= <-]. revert Hinv. by apply settled_ext.
Qed.

Lemma written_by_snoc w0 w p s' s :
  written s' = written s ++ [(w, p)] →
  written_by w0 s' = written_by w0 s ++ (if decide (w = w0) then [p] else []).
Proof.
  unfold written_by. intros ->.
  rewrite filter_app, fmap_app. f_equal.
  destruct (decide (w = w0)) as [->|Hne].
  - by rewrite filter_cons_True.
  - by rewrite filter_cons_False.
Qed.

(** The invariant of the console blocks reads the workers, the log of
    dequeues and the console of the pool. *)
Lemma console_inv_ext n s s' :
  m_Pool (pool s') = m_Pool (pool s) → popped (pool s') = popped (pool s) →
  cout (pool s') = cout (pool s) → past_console s' = past_console s →
  written s' = written s →
  console_inv n s → console_inv n s'.
Proof.
  intros E1 E2 E3 E4 E5 [C1 C2 C3 C4 C5 C6].
  split; unfold written_by, pending in *; rewrite ?E1, ?E2, ?E3, ?E4, ?E5; assumption.
Qed.

(** A worker that holds no task moves on to a place where it holds none. *)
Lemma console_inv_release n w pc pc' s s' :
  m_Pool (pool s) !! w = Some pc →
  (∀ p, pc ≠ holding p) → (∀ p, pc' ≠ holding p) →
  m_Pool (pool s') = <[w := pc']> (m_Pool (pool s)) → popped (pool s') = popped (pool s) →
  cout (pool s') = cout (pool s) → past_console s' = past_console s →
  written s' = written s →
  console_inv n s → console_inv n s'.
Proof.
  intros Hw Hpc Hpc' E1 E2 E3 E4 E5 [C1 C2 C3 C4 C5 C6].
  assert (∀ w0 p0, <[w := pc']> (m_Pool (pool s)) !! w0 = Some (holding p0) →
            m_Pool (pool s) !! w0 = Some (holding p0)) as Hold.
  { intros w0 p0 H0. destruct (decide (w = w0)) as [->|Hne].
    - apply list_lookup_insert_Some in H0 as [(_ & Heq & _)|(? & _)]; [|done].
      by destruct (Hpc' p0).
    - by rewrite list_lookup_insert_ne in H0. }
  split; unfold written_by, pending in *; rewrite ?E1, ?E2, ?E3, ?E4, ?E5.
  - exact C1.
  - intros w0 p0 H0. by apply C2, Hold.
  - intros w0 H0. destruct (C3 w0 H0) as [p0 Hp0]. exists p0.
    destruct (decide (w = w0)) as [->|Hne].
    + rewrite Hw in Hp0. injection Hp0 as ->. by destruct (Hpc p0).
    + by rewrite list_lookup_insert_ne.
  - exact C4.
  - exact C5.
  - intros Hn. rewrite (C6 Hn). f_equal.
    destruct (decide (w = 0%nat)) as [->|Hne].
    + rewrite Hw. rewrite list_lookup_insert_eq by (by apply lookup_lt_Some in Hw).
      destruct pc; try (by destruct (Hpc p)); destruct pc'; try (by destruct (Hpc' p));
        reflexivity.
    + by rewrite list_lookup_insert_ne.
Qed.

Lemma producer_frame a b b' :
  is_worker_step a = false →
  step a b = Some b' →
  m_Pool b' = m_Pool b ∧ popped b' = popped b ∧ cout b' = cout b.
Proof.
  intros Ha. destruct a as [msg| |id fh|id| |w|w|w]; try discriminate Ha; cbn [step].
  - intros [= <-]. unfold post.
    by destruct (length (m_TaskQueue b) =? BLOGGER_TASK_LIMIT)%nat.
  - by intros [= <-].
  - by intros [= <-].
  - intros [= <-]. unfold remove_helper. by destruct (m_Files b !! id).
  - by intros [= <-].
Qed.

(** A worker takes the front task: its console block is still to come. *)
Lemma console_inv_poll n w p q s :
  m_Pool (pool s) !! w = Some at_do_work →
  m_TaskQueue (pool s) = p :: q →
  pool_inv n (settled (pool s)) →
  console_inv n s →
  console_inv n (with_pool (set_pc w (holding p) (log_popped p (pop_front (pool s)))) s).
Proof.
  intros Hw Hq [I1 I2 _ _ _ _ _] [C1 C2 C3 C4 C5 C6].
  cbn [settled set_cout m_Pool popped m_TaskQueue] in I1, I2.
  pose proof (lookup_lt_Some _ _ _ Hw) as Hlt.
  assert (∀ x, x ∈ popped (pool s) → (addr x < addr p)%nat) as Hbefore.
  { intros x Hx. rewrite Hq, fmap_app in I2.
    eapply (StronglySorted_app_1_elem_of lt); [exact I2| |].
    - apply list_elem_of_fmap. eauto.
    - rewrite fmap_cons. apply elem_of_cons. by left. }
  assert (w ∉ past_console s) as Hfresh.
  { intros Hin. destruct (C3 w Hin) as [p0 Hp0]. congruence. }
  split; unfold written_by, pending in *;
    cbn [with_pool pool past_console written set_pc log_popped pop_front set_TaskQueue
         m_Pool popped cout] in *.
  - intros w0 p0 H0. destruct (C1 w0 p0 H0) as [Hw0 Hin].
    split; [exact Hw0|]. apply elem_of_app. by left.
  - intros w0 p0 H0 Hout. destruct (decide (w = w0)) as [->|Hne].
    + rewrite list_lookup_insert_eq in H0 by exact Hlt. injection H0 as <-.
      apply Forall_forall. intros x Hx. apply Hbefore.
      apply list_elem_of_fmap in Hx as ([w1 x1] & -> & Hx).
      apply list_elem_of_filter in Hx as [_ Hx]. by apply (C1 w1 x1).
    + rewrite list_lookup_insert_ne in H0 by exact Hne. by apply C2.
  - intros w0 H0. destruct (C3 w0 H0) as [p0 Hp0]. exists p0.
    destruct (decide (w = w0)) as [->|Hne]; [done|].
    by rewrite list_lookup_insert_ne.
  - exact C4.
  - exact C5.
  - intros Hn. assert (w = 0%nat) as -> by lia.
    rewrite list_lookup_insert_eq by exact Hlt.
    rewrite decide_False by exact Hfresh.
    rewrite (C6 Hn), Hw. by rewrite app_nil_r.
Qed.

(** A worker runs the console block of the task it holds. *)
Lemma console_inv_console n w p s :
  m_Pool (pool s) !! w = Some (holding p) →
  w ∉ past_console s →
  pool_inv n (settled (pool s)) →
  console_inv n s →
  console_inv n {| pool := console_part p (pool s);
                   past_console := {[w]} ∪ past_console s;
                   written := written s ++ [(w, p)] |}.
Proof.
  intros Hw Hout [I1 _ _ _ I5 _ _] [C1 C2 C3 C4 C5 C6].
  cbn [settled set_cout m_Pool popped] in I1, I5.
  pose proof (lookup_lt_Some _ _ _ Hw) as Hlt.
  destruct (I5 w p Hw) as [Hpopped _].
  split; cbn [pool past_console console_part put_cout m_Pool popped cout].
  - cbn [written]. intros w0 p0 H0. apply elem_of_app in H0 as [H0|H0]; [by apply C1|].
    apply list_elem_of_singleton in H0. injection H0 as E1 E2. subst w0 p0.
    split; [lia | exact Hpopped].
  - intros w0 p0 H0 Hout0.
    assert (w ≠ w0) as Hne.
    { intros <-. apply Hout0, elem_of_union. left. by apply elem_of_singleton. }
    erewrite written_by_snoc by reflexivity.
    rewrite decide_False, app_nil_r by exact Hne.
    apply C2; [exact H0|]. intros Hin. apply Hout0, elem_of_union. by right.
  - intros w0 H0. apply elem_of_union in H0 as [H0|H0]; [|by apply C3].
    apply elem_of_singleton in H0 as ->. eauto.
  - intros w0. erewrite written_by_snoc by reflexivity.
    destruct (decide (w = w0)) as [<-|Hne].
    + rewrite fmap_app. apply sorted_snoc; [apply C4|].
      apply Forall_fmap. by apply C2.
    + rewrite app_nil_r. apply C4.
  - cbn [written]. rewrite C5, fmap_app, concat_app. cbn. by rewrite app_nil_r.
  - intros Hn. assert (w = 0%nat) as -> by lia.
    unfold pending in *. cbn [pool past_console written console_part put_cout m_Pool].
    rewrite Hw in C6 |- *. rewrite decide_False in C6 by exact Hout.
    rewrite decide_True by (apply elem_of_union; left; by apply elem_of_singleton).
    rewrite (C6 Hn), fmap_app. cbn. by rewrite app_nil_r.
Qed.

(** A worker completes the task it holds, its console block behind it. *)
Lemma console_inv_file n w p b s :
  m_Pool (pool s) !! w = Some (holding p) →
  w ∈ past_console s →
  file_part p (pool s) = Returned b →
  pool_inv n (settled (pool s)) →
  console_inv n s →
  console_inv n {| pool := set_pc w (at_loop_test true) (log_handled w p b);
                   past_console := past_console s ∖ {[w]};
                   written := written s |}.
Proof.
  intros Hw Hin Hfile [I1 _ _ _ _ _ _] [C1 C2 C3 C4 C5 C6].
  cbn [settled set_cout m_Pool] in I1.
  destruct (file_part_frame p _ _ Hfile) as (E1 & _ & _ & E4 & _ & _ & E7).
  pose proof (lookup_lt_Some _ _ _ Hw) as Hlt.
  split; unfold written_by, pending in *;
    cbn [pool past_console written set_pc log_handled m_Pool popped cout];
    rewrite ?E1, ?E4, ?E7.
  - exact C1.
  - intros w0 p0 H0 Hout0. destruct (decide (w = w0)) as [->|Hne].
    + rewrite list_lookup_insert_eq in H0 by exact Hlt. discriminate.
    + rewrite list_lookup_insert_ne in H0 by exact Hne. apply C2; [exact H0|].
      intros H1. apply Hout0, elem_of_difference. split; [exact H1|].
      intros H2. apply elem_of_singleton in H2. congruence.
  - intros w0 H0. apply elem_of_difference in H0 as [H0 Hne].
    destruct (C3 w0 H0) as [p0 Hp0]. exists p0.
    rewrite list_lookup_insert_ne; [exact Hp0|].
    intros ->. apply Hne. by apply elem_of_singleton.
  - exact C4.
  - exact C5.
  - intros Hn. assert (w = 0%nat) as -> by lia.
    rewrite (C6 Hn), Hw, decide_True by exact Hin.
    by rewrite list_lookup_insert_eq by exact Hlt.
Qed.

(** Every move keeps the invariant of the console blocks. *)
Lemma console_inv_advance n m s s' :
  pool_inv n (settled (pool s)) → console_inv n s → advance m s = Some s' →
  console_inv n s'.
Proof.
  intros Hinv Hcon. destruct m as [a|w|w|id|fh c]; cbn [advance].
  - destruct (is_handle a) eqn:Ha; [discriminate|].
    destruct (step a (pool s)) as [b|] eqn:Hstep; [|discriminate].
    intros [= <-].
    destruct (is_worker_step a) eqn:Hwork.
    + destruct a as [msg| |id fh|id| |w|w|w]; try discriminate; cbn [step] in Hstep.
      * destruct (m_Pool (pool s) !! w) as [[| | |]|] eqn:Hw; try discriminate.
        unfold do_work_locked in Hstep.
        destruct (m_TaskQueue (pool s)) as [|p q] eqn:Hq; injection Hstep as <-.
        -- by apply (console_inv_release n w at_do_work (at_loop_test false) s).
        -- by apply (console_inv_poll n w p q).
      * destruct (m_Pool (pool s) !! w) as [[| |d|]|] eqn:Hw; try discriminate.
        injection Hstep as <-.
        apply (console_inv_release n w (at_loop_test d)
                 (if m_Running (pool s) || d then at_do_work else returned) s); try done.
        intros p. by destruct (m_Running (pool s) || d).
    + destruct (producer_frame a _ _ Hwork Hstep) as (E1 & E2 & E3).
      by apply (console_inv_ext n s).
  - destruct (m_Pool (pool s) !! w) as [[|p| |]|] eqn:Hw; try discriminate.
    destruct (decide (w ∈ past_console s)) as [|Hout]; [discriminate|].
    intros [= <-]. by apply console_inv_console.
  - destruct (m_Pool (pool s) !! w) as [[|p| |]|] eqn:Hw; try discriminate.
    destruct (decide (w ∈ past_console s)) as [Hin|]; [|discriminate].
    destruct (file_part p (pool s)) as [b|] eqn:Hfile; [|discriminate].
    intros [= <-]. by apply console_inv_file.
  - intros [= <-]. by apply (console_inv_ext n s).
  - unfold call_writer. destruct (helpers (pool s) !! fh) as [st|]; [|discriminate].
    destruct (well_typed c); [|discriminate].
    destruct (match c with
              | InitFileLogger d t bytes files r => _
              | TerminateFileLogger => _
              | SetTag t => _
              end) as [st' fs'].
    intros [= <-]. by apply (console_inv_ext n s).
Qed.

Lemma console_inv_new n fs : console_inv n (system_new n fs).
Proof.
  split; unfold written_by, pending; cbn.
  - intros w p H. by apply elem_of_nil in H.
  - intros w p H. apply lookup_replicate in H as [H _]. discriminate.
  - intros w H. by apply elem_of_empty in H.
  - intros w. constructor.
  - reflexivity.
  - intros ->. reflexivity.
Qed.

Lemma play_inv n ms :
  ∀ s s', play ms s = Some s' →
    pool_inv n (settled (pool s)) → console_inv n s →
    pool_inv n (settled (pool s')) ∧ console_inv n s'.
Proof.
  induction ms as [|m ms IH]; intros s s' Hplay Hinv Hcon; cbn [play] in Hplay.
  - by injection Hplay as <-.
  - destruct (advance m s) as [s1|] eqn:Hadv; [|discriminate].
    apply (IH s1 s' Hplay).
    + by apply (settled_advance n m s).
    + by apply (console_inv_advance n m s).
Qed.

(** In a strictly increasing list, what is smaller than an element
    stands before it. *)
Lemma sorted_before (l1 l2 : list task_ptr) (f p : task_ptr) :
  StronglySorted lt (addr <$> (l1 ++ f :: l2)) →
  p ∈ l1 ++ f :: l2 → (addr p < addr f)%nat → p ∈ l1.
Proof.
  rewrite fmap_app, fmap_cons. intros Hs Hin Hlt.
  apply StronglySorted_app in Hs as (_ & _ & Hs).
  apply StronglySorted_cons in Hs as [Hall _].
  apply elem_of_app in Hin as [Hin|Hin]; [exact Hin|].
  apply elem_of_cons in Hin as [->|Hin]; [lia|].
  rewrite Forall_forall in Hall.
  assert (addr f < addr p)%nat; [|lia].
  apply Hall. apply list_elem_of_fmap. eauto.
Qed.

(** Every schedule of [step] is a sequence of moves: processing a task
    is its console block followed by the rest. *)
Lemma run_play (sched : list action) :
  ∀ s b, past_console s = ∅ → run sched (pool s) = Some b →
    ∃ s', play (sched ≫= moves_of) s = Some s' ∧ pool s' = b ∧ past_console s' = ∅.
Proof.
  induction sched as [|a sched IH]; intros s b Hpast Hrun; cbn [run] in Hrun.
  - injection Hrun as <-. by exists s.
  - destruct (step a (pool s)) as [b1|] eqn:Hstep; [|discriminate].
    change ((a :: sched) ≫= moves_of) with (moves_of a ++ (sched ≫= moves_of)).
    destruct (is_handle a) eqn:Ha.
    + destruct a as [| | | | | |w|]; try discriminate Ha. cbn [step] in Hstep.
      destruct (m_Pool (pool s) !! w) as [[|p| |]|] eqn:Hw; try discriminate.
      destruct (do_work_task p (pool s)) as [b2|] eqn:Hwork; [|discriminate].
      injection Hstep as <-. rewrite do_work_task_parts in Hwork.
      cbn [moves_of app play advance]. rewrite Hw, Hpast.
      rewrite decide_False by apply not_elem_of_empty.
      cbn [pool past_console console_part put_cout m_Pool]. rewrite Hw.
      rewrite decide_True by (apply elem_of_union; left; by apply elem_of_singleton).
      change (put_cout (task_events p) (pool s)) with (console_part p (pool s)).
      rewrite Hwork. apply IH; [|exact Hrun]. cbn [past_console].
      by rewrite union_empty_r_L, difference_diag_L.
    + assert (moves_of a = [m_pool a]) as -> by (by destruct a).
      cbn [app play advance]. rewrite Ha, Hstep. by apply IH.
Qed.

(** With two workers the console blocks need not follow the queue, also
    when the record goes to a file: worker 0 dequeues the record, worker 1
    dequeues the flush and runs its block first. *)
Example two_workers_reorder_console :
  ∃ s, play [m_construct 7; m_call 0 (InitFileLogger "logs" "app" 10 2 true);
             m_pool (a_post to_both); m_pool a_flush;
             m_pool (a_poll 0); m_pool (a_poll 1);
             m_console 1; m_file 1; m_console 0; m_file 0]
            (system_new 2 empty_disk) = Some s ∧
    cout (pool s) = [cout_flush; set_output_color BLOGGER_WARN_COLOR;
                     cout_write (data to_both); set_output_color BLOGGER_RESET] ∧
    file_bytes "logs/app-1.log" (disk (pool s)) = record_of 3.
Proof.
  eexists. split; [vm_compute; reflexivity|]. split; vm_compute; reflexivity.
Qed.

(** C3, amended: in every state a pool of [n] workers reaches, with
    loggers constructed, their files opened and closed, and records
    written to those files along the way, the tasks have left the queue in
    the order they were enqueued (flush requests included, with no
    priority); every dequeued task was enqueued before every task still
    queued; each worker has run the console blocks of its tasks, and has
    completed its tasks, in that same order; the console holds the output
    of the console blocks in the order they were run. With one worker
    the console holds the output of the dequeued tasks in the order of
    enqueueing, without gaps: only the task in the worker's hands can
    have been dequeued without its console output, so when a flush is
    executed, the console block of every task dequeued before it has
    been run before. *)
Theorem dequeue_and_console_order (n : nat) (fs : filesystem) (ms : list move)
    (s : system) :
  play ms (system_new n fs) = Some s →
  StronglySorted lt (addr <$> popped (pool s)) ∧
  (∀ p q, p ∈ popped (pool s) → q ∈ m_TaskQueue (pool s) → (addr p < addr q)%nat) ∧
  (∀ w, StronglySorted lt (addr <$> written_by w s)) ∧
  (∀ w, StronglySorted lt (addr <$> handled_by w (pool s))) ∧
  cout (pool s) = concat (task_events ∘ snd <$> written s) ∧
  (n = 1%nat →
     ∃ done rest,
       popped (pool s) = done ++ rest ∧ (length rest ≤ 1)%nat ∧
       cout (pool s) = concat (task_events <$> done) ∧
       ∀ f p, f ∈ done → p ∈ popped (pool s) → (addr p < addr f)%nat →
         ∃ l1 l2, done = l1 ++ f :: l2 ∧ p ∈ l1).
Proof.
  intros Hplay.
  destruct (play_inv n ms _ s Hplay) as [[I1 I2 I3 I4 I5 I6 I7] [C1 C2 C3 C4 C5 C6]].
  { apply (pool_inv_new n fs). }
  { apply console_inv_new. }
  cbn [settled set_cout popped m_TaskQueue] in I2.
  rewrite fmap_app in I2.
  split; [by apply StronglySorted_app_1_l in I2|].
  split; [|split; [exact C4|split; [exact I6|split; [exact C5|]]]].
  - intros p q Hp Hq. eapply (StronglySorted_app_1_elem_of lt); [exact I2| |];
      apply list_elem_of_fmap; eauto.
  - intros Hn. specialize (C6 Hn). exists (snd <$> written s), (pending s).
    split; [exact C6|]. split; [|split].
    + unfold pending.
      destruct (m_Pool (pool s) !! 0%nat) as [[|p0| |]|]; cbn; try lia.
      destruct (decide (0%nat ∈ past_console s)); cbn; lia.
    + by rewrite C5, list_fmap_compose.
    + intros f p Hf Hp Hlt.
      apply list_elem_of_split in Hf as (l1 & l2 & Hf). exists l1, l2.
      split; [exact Hf|].
      apply (sorted_before l1 (l2 ++ pending s) f p); [| |exact Hlt].
      * apply (StronglySorted_app_1_l lt) in I2.
        rewrite C6, Hf, <- app_assoc in I2. exact I2.
      * rewrite C6, Hf, <- app_assoc in Hp. exact Hp.
Qed.

Lemma dequeue_and_console_order_witness :
  ∃ s, play logging_moves (system_new 1 empty_disk) = Some s ∧
    cout (pool s) = [set_output_color BLOGGER_WARN_COLOR; cout_write (data to_both);
                     set_output_color BLOGGER_RESET; cout_flush] ∧
    file_bytes "logs/app-1.log" (disk (pool s)) = record_of 3 ∧
    ∃ done rest,
      popped (pool s) = done ++ rest ∧ (length rest ≤ 1)%nat ∧
      cout (pool s) = concat (task_events <$> done) ∧
      ∀ f p, f ∈ done → p ∈ popped (pool s) → (addr p < addr f)%nat →
        ∃ l1 l2, done = l1 ++ f :: l2 ∧ p ∈ l1.
Proof.
  eexists. split; [vm_compute; reflexivity|].
  split; [vm_compute; reflexivity|]. split; [vm_compute; reflexivity|].
  refine (proj2 (proj2 (proj2 (proj2 (proj2
            (dequeue_and_console_order 1 empty_disk logging_moves _ _))))) eq_refl).
  vm_compute. reflexivity.
Defined.

End OrderSpec.
